(** * AzureAIAgentService and the chat streaming endpoint

    A shallow embedding of the agent gateway
    ([WebApp.Api.Services.AzureAIAgentService]), of the endpoint pattern
    [StreamChatMessage] the backend guide prints, of the .env loader and of
    the client's authentication hook; and the encoder of the streaming
    endpoint after the specification, over the gateway.

    Conventions.
    - A .NET [string] is a sequence of code units; attachment URIs are
      ASCII, and the embedding uses [string] with one [ascii] per code unit
      (the Latin-1 range).
    - [Task<T>] bodies are computations in a state-and-exception monad over
      the service's fields and the log of calls made to the provider.
    - What the .NET runtime or the provider SDK supplies
      ([Convert.FromBase64String], the [F1] number format, the remote
      provider) is a variable of the section. *)

From stdpp Require Import base option list gmap strings.
From Stdlib Require Import ZArith Ascii String Lia DecimalString DecimalPos DecimalN.

Local Open Scope Z_scope.
Local Open Scope string_scope.

(** ** System.String *)

Module Str.

(** [s.StartsWith(p)], compared code unit by code unit: on ASCII text the
    culture-sensitive overload the code calls does the same. *)
Fixpoint StartsWith (p s : string) : bool :=
  match p, s with
  | EmptyString, _ => true
  | String a p', String b s' => if Ascii.eqb a b then StartsWith p' s' else false
  | String _ _, EmptyString => false
  end.

(** [s.IndexOf(c)]: position of the first [c], [-1] when there is none. *)
Fixpoint index_from (c : ascii) (s : string) (k : Z) : Z :=
  match s with
  | EmptyString => -1
  | String a s' => if Ascii.eqb a c then k else index_from c s' (k + 1)
  end.

Definition IndexOf (c : ascii) (s : string) : Z := index_from c s 0.

Definition Length (s : string) : Z := Z.of_nat (String.length s).

(** [s[a..b]]; the callers below only use it with [0 <= a <= b <= Length s]
    (lemma [media_range_ok]), where the runtime does not throw. *)
Definition Range (s : string) (a b : Z) : string :=
  substring (Z.to_nat a) (Z.to_nat (b - a)) s.

(** [s[a..]] *)
Definition RangeFrom (s : string) (a : Z) : string :=
  substring (Z.to_nat a) (String.length s - Z.to_nat a)%nat s.

Definition lower_char (c : ascii) : ascii :=
  let n := N_of_ascii c in
  if ((65 <=? n) && (n <=? 90))%N then ascii_of_N (n + 32)
  else if ((192 <=? n) && (n <=? 222) && negb (n =? 215))%N then ascii_of_N (n + 32)
  else c.

Fixpoint ToLowerInvariant (s : string) : string :=
  match s with
  | EmptyString => EmptyString
  | String a s' => String (lower_char a) (ToLowerInvariant s')
  end.

(** [char.IsWhiteSpace] on the Latin-1 range: U+0009..U+000D, U+0020,
    U+0085 and U+00A0. *)
Definition IsWhiteSpace (c : ascii) : bool :=
  let n := N_of_ascii c in
  (((9 <=? n) && (n <=? 13)) || (n =? 32) || (n =? 133) || (n =? 160))%N.

Fixpoint all_white (s : string) : bool :=
  match s with
  | EmptyString => true
  | String a s' => IsWhiteSpace a && all_white s'
  end.

(** [string.IsNullOrWhiteSpace] *)
Definition IsNullOrWhiteSpace (s : option string) : bool :=
  match s with None => true | Some s => all_white s end.

(** [string.IsNullOrEmpty] *)
Definition IsNullOrEmpty (s : option string) : bool :=
  match s with None => true | Some EmptyString => true | Some _ => false end.

(** [string.Join(sep, items)] *)
Fixpoint Join (sep : string) (items : list string) : string :=
  match items with
  | [] => EmptyString
  | [x] => x
  | x :: rest => x ++ sep ++ Join sep rest
  end.

(** An integer interpolated into a string. *)
Definition of_nat (n : nat) : string := NilEmpty.string_of_uint (Nat.to_uint n).

(** The double quote and the line feed, as one-character strings. *)
Definition quote : string := String (ascii_of_nat 34) EmptyString.

Definition LF : string := String (ascii_of_nat 10) EmptyString.

End Str.

(** ** Data model *)

Inductive Exception : Type :=
| ObjectDisposedException
| ArgumentException (message : string) (paramName : option string)
| FormatException
| OperationCanceledException
| RequestFailedException (detail : string).

(** How a task ends when it is run by a single caller: with a value, with an
    exception, or never ([Pending]: it waits for a semaphore permit that no
    other caller is there to release). *)
Inductive Outcome (A : Type) : Type :=
| Returned (a : A)
| Threw (e : Exception)
| Pending.

Arguments Returned {A} a.
Arguments Threw {A} e.
Arguments Pending {A}.

Record AgentVersion : Type := mkAgentVersion {
  agent_Id : string;
  agent_Version : string
}.

Record AgentRecord : Type := mkAgentRecord {
  Versions_Latest : AgentVersion
}.

Record ResponseTokenUsage : Type := mkResponseTokenUsage {
  InputTokenCount : Z;
  OutputTokenCount : Z;
  TotalTokenCount : Z
}.

Record UsageInfo : Type := mkUsageInfo {
  PromptTokens : Z;
  CompletionTokens : Z;
  TotalTokens : Z
}.

Inductive StreamingResponseUpdate : Type :=
| StreamingResponseOutputTextDeltaUpdate (Delta : string)
| StreamingResponseCompletedUpdate (Usage : ResponseTokenUsage)
| StreamingResponseOtherUpdate.

(** What iterating a provider stream delivers: the updates, then the end of
    the stream or an exception. *)
Record ResponseStream : Type := mkResponseStream {
  updates : list StreamingResponseUpdate;
  failure : option Exception
}.

Inductive ResponseContentPart : Type :=
| InputTextPart (text : string)
| InputImagePart (imageBytes : list Byte.byte) (mediaType : string)
| InputImageUriPart (uri : string).

Inductive ResponseItem : Type :=
| UserMessageItem (content : list ResponseContentPart).

Record ProjectConversationCreationOptions : Type := mkConversationOptions {
  Metadata : gmap string string
}.

(** The calls that reach the remote provider, in the order they are made. *)
Inductive ProviderCall : Type :=
| Agents_GetAgentAsync (agentId : string)
| CreateProjectConversationAsync (options : ProjectConversationCreationOptions)
| CreateResponseStreamingAsync (agent : AgentVersion) (conversationId : string)
    (inputItems : list ResponseItem).

Definition is_GetAgent (c : ProviderCall) : bool :=
  match c with Agents_GetAgentAsync _ => true | _ => false end.

Definition is_CreateResponseStreaming (c : ProviderCall) : bool :=
  match c with CreateResponseStreamingAsync _ _ _ => true | _ => false end.

Definition count_GetAgent (log : list ProviderCall) : nat :=
  List.length (List.filter is_GetAgent log).

Definition count_streams (log : list ProviderCall) : nat :=
  List.length (List.filter is_CreateResponseStreaming log).

(** The provider answers a call knowing the calls made before it. *)
Record Provider : Type := mkProvider {
  answer_GetAgent : list ProviderCall -> string -> Exception + AgentRecord;
  answer_CreateConversation :
    list ProviderCall -> ProjectConversationCreationOptions -> Exception + string;
  answer_CreateResponseStreaming :
    list ProviderCall -> AgentVersion -> string -> list ResponseItem -> ResponseStream
}.

(** The fields of [AzureAIAgentService] ([_agentLock] is the semaphore's
    current count; the logger and the metadata cache play no part here). *)
Record AzureAIAgentService : Type := mkService {
  _agentId : string;
  _latestAgentVersion : option AgentVersion;
  _agentLock : nat;
  _lastRunUsage : option UsageInfo;
  _disposed : bool
}.

Record World : Type := mkWorld {
  service : AzureAIAgentService;
  calls : list ProviderCall
}.

(** The service as its constructor leaves it. *)
Definition new_service (agentId : string) : AzureAIAgentService :=
  {| _agentId := agentId; _latestAgentVersion := None; _agentLock := 1;
     _lastRunUsage := None; _disposed := false |}.

Definition set_latestAgentVersion (v : option AgentVersion) (s : AzureAIAgentService)
  : AzureAIAgentService :=
  {| _agentId := _agentId s; _latestAgentVersion := v; _agentLock := _agentLock s;
     _lastRunUsage := _lastRunUsage s; _disposed := _disposed s |}.

Definition set_agentLock (n : nat) (s : AzureAIAgentService) : AzureAIAgentService :=
  {| _agentId := _agentId s; _latestAgentVersion := _latestAgentVersion s; _agentLock := n;
     _lastRunUsage := _lastRunUsage s; _disposed := _disposed s |}.

Definition set_lastRunUsage (u : option UsageInfo) (s : AzureAIAgentService)
  : AzureAIAgentService :=
  {| _agentId := _agentId s; _latestAgentVersion := _latestAgentVersion s;
     _agentLock := _agentLock s; _lastRunUsage := u; _disposed := _disposed s |}.

Definition set_disposed (b : bool) (s : AzureAIAgentService) : AzureAIAgentService :=
  {| _agentId := _agentId s; _latestAgentVersion := _latestAgentVersion s;
     _agentLock := _agentLock s; _lastRunUsage := _lastRunUsage s; _disposed := b |}.

Definition with_service (f : AzureAIAgentService -> AzureAIAgentService) (w : World) : World :=
  {| service := f (service w); calls := calls w |}.

Definition log_call (c : ProviderCall) (w : World) : World :=
  {| service := service w; calls := calls w ++ [c] |}.

(** ** Tasks *)

Definition Task (A : Type) : Type := World -> Outcome A * World.

Definition ret {A} (a : A) : Task A := fun w => (Returned a, w).

Definition throw {A} (e : Exception) : Task A := fun w => (Threw e, w).

Definition bind {A B} (m : Task A) (k : A -> Task B) : Task B :=
  fun w =>
    match m w with
    | (Returned a, w') => k a w'
    | (Threw e, w') => (Threw e, w')
    | (Pending, w') => (Pending, w')
    end.

Notation "'let!' x ':=' m 'in' k" := (bind m (fun x => k))
  (at level 10, x name, m at level 100, k at level 200).
Notation "'do!' m 'in' k" := (bind m (fun _ => k))
  (at level 10, m at level 100, k at level 200).

(** [try { body } finally { fin }]: [fin] runs whether [body] returned or
    threw. *)
Definition try_finally {A} (body : Task A) (fin : World -> World) : Task A :=
  fun w =>
    match body w with
    | (Returned a, w') => (Returned a, fin w')
    | (Threw e, w') => (Threw e, fin w')
    | (Pending, w') => (Pending, w')
    end.

Definition get_service : Task AzureAIAgentService := fun w => (Returned (service w), w).

Definition update_service (f : AzureAIAgentService -> AzureAIAgentService) : Task unit :=
  fun w => (Returned tt, with_service f w).

(** [ObjectDisposedException.ThrowIf(_disposed, this)] *)
Definition ThrowIfDisposed : Task unit :=
  fun w => if _disposed (service w) then (Threw ObjectDisposedException, w)
           else (Returned tt, w).

(** [await _agentLock.WaitAsync()] *)
Definition WaitAsync : Task unit :=
  fun w =>
    match _agentLock (service w) with
    | O => (Pending, w)
    | S n => (Returned tt, with_service (set_agentLock n) w)
    end.

(** [_agentLock.Release()] *)
Definition Release (w : World) : World :=
  with_service (fun s => set_agentLock (S (_agentLock s)) s) w.

(** ** A runtime to run the examples with *)

Inductive AgentDefinition : Type :=
| PromptAgentDefinition (Model Instructions : option string)
| OtherAgentDefinition.

(** What the SDK lets the code read from an [AgentVersion] besides its id;
    [CreatedAt] is already in Unix seconds. *)
Record AgentProperties : Type := mkAgentProperties {
  CreatedAt : Z;
  Name : option string;
  Description : option string;
  Definition_ : AgentDefinition;
  AgentMetadata : option (gmap string string)
}.

Module Sample.

(** A strict RFC 4648 decoder, standing for [Convert.FromBase64String] in
    the examples; [None] is its [FormatException]. *)
Definition sextet (c : ascii) : option N :=
  let n := N_of_ascii c in
  if ((65 <=? n) && (n <=? 90))%N then Some (n - 65)%N
  else if ((97 <=? n) && (n <=? 122))%N then Some (n - 71)%N
  else if ((48 <=? n) && (n <=? 57))%N then Some (n + 4)%N
  else if (n =? 43)%N then Some 62%N
  else if (n =? 47)%N then Some 63%N
  else None.

Definition octet (n : N) : Byte.byte := byte_of_ascii (ascii_of_N (n mod 256)).

Definition is_pad (c : ascii) : bool := Ascii.eqb c "=".

Fixpoint decode_quads (cs : list ascii) : option (list Byte.byte) :=
  match cs with
  | [] => Some []
  | a :: b :: c :: d :: rest =>
      match sextet a, sextet b with
      | Some x, Some y =>
          match sextet c, sextet d with
          | Some z, Some t =>
              match decode_quads rest with
              | Some bs =>
                  Some (octet (x * 4 + y / 16) :: octet (y * 16 + z / 4)
                        :: octet (z * 64 + t) :: bs)
              | None => None
              end
          | Some z, None =>
              match rest with
              | [] => if is_pad d
                      then Some [octet (x * 4 + y / 16); octet (y * 16 + z / 4)]
                      else None
              | _ :: _ => None
              end
          | None, _ =>
              match rest with
              | [] => if is_pad c && is_pad d then Some [octet (x * 4 + y / 16)] else None
              | _ :: _ => None
              end
          end
      | _, _ => None
      end
  | _ => None
  end.

Definition FromBase64String (s : string) : option (list Byte.byte) :=
  decode_quads (list_ascii_of_string s).

(** One decimal of [n / 2^20], truncated; stands for the [F1] format. *)
Definition FormatF1 (n : Z) : string :=
  Str.of_nat (Z.to_nat (n / 1048576)) ++ "." ++
  Str.of_nat (Z.to_nat ((n * 10 / 1048576) mod 10)).

Definition agent : AgentVersion :=
  {| agent_Id := "asst_1"; agent_Version := "3" |}.

Definition usage (n : Z) : ResponseTokenUsage :=
  {| InputTokenCount := n; OutputTokenCount := 2 * n; TotalTokenCount := 3 * n |}.

(** A provider whose agent load succeeds from the second attempt on, which
    names conversations after the number of calls it has seen, and whose
    streams depend on the conversation: [conv_fail] breaks after one delta,
    any other delivers two deltas and a completion. *)

Definition flaky : Provider :=
  {| answer_GetAgent := fun log _ =>
       match count_GetAgent log with
       | O => inl (RequestFailedException "503")
       | S _ => inr {| Versions_Latest := agent |}
       end;
     answer_CreateConversation := fun log _ => inr ("conv_" ++ Str.of_nat (List.length log));
     answer_CreateResponseStreaming := fun log _ conversationId _ =>
       if String.eqb conversationId "conv_fail"
       then {| updates := [StreamingResponseOutputTextDeltaUpdate "Hel"];
               failure := Some (RequestFailedException "connection reset") |}
       else {| updates := [StreamingResponseOutputTextDeltaUpdate "Hel";
                           StreamingResponseOtherUpdate;
                           StreamingResponseOutputTextDeltaUpdate "lo";
                           StreamingResponseCompletedUpdate (usage (Z.of_nat (List.length log)))];
               failure := None |} |}.

(** The same provider with a dependable agent load. *)
Definition steady : Provider :=
  {| answer_GetAgent := fun _ _ => inr {| Versions_Latest := agent |};
     answer_CreateConversation := answer_CreateConversation flaky;
     answer_CreateResponseStreaming := answer_CreateResponseStreaming flaky |}.

Definition fresh : World :=
  {| service := new_service "asst_1"; calls := [] |}.

(** The service after a successful load. *)
Definition loaded : World :=
  {| service := set_latestAgentVersion (Some agent) (new_service "asst_1");
     calls := [Agents_GetAgentAsync "asst_1"] |}.

Definition png : string := "data:image/png;base64,iVBORw0KGgo=".

(** A provider whose agent load fails every time. *)
Definition broken : Provider :=
  {| answer_GetAgent := fun _ _ => inl (RequestFailedException "503");
     answer_CreateConversation := answer_CreateConversation flaky;
     answer_CreateResponseStreaming := answer_CreateResponseStreaming flaky |}.

(** What the SDK shows of an agent: a prompt agent with a name and a model,
    no description, no instructions and no metadata. *)
Definition properties (a : AgentVersion) : AgentProperties :=
  {| CreatedAt := 1700000000;
     Name := Some "helper";
     Description := None;
     Definition_ := PromptAgentDefinition (Some "gpt-4o") None;
     AgentMetadata := None |}.

Definition ToString (a : AgentVersion) : option string :=
  Some (agent_Id a ++ ":" ++ agent_Version a).

(** The JSON of a chunk whose text needs no escaping. *)
Definition Serialize_chunk (chunk : string) : string :=
  "{" ++ Str.quote ++ "type" ++ Str.quote ++ ":" ++ Str.quote ++ "chunk" ++ Str.quote ++ ","
  ++ Str.quote ++ "content" ++ Str.quote ++ ":" ++ Str.quote ++ chunk ++ Str.quote ++ "}".

(** One message for every exception. *)
Definition user_safe_message (e : Exception) : string :=
  "The assistant could not answer. Please try again.".

End Sample.

(** ** The attachment grammar, as the specification words it

    [data:<mime>;<encoding>,<payload>]: the text after [data:] up to the
    first [;] is the mime type, the text up to the next [,] the encoding,
    the rest the payload. *)

Module Grammar.

Fixpoint strip_prefix (p s : string) : option string :=
  match p, s with
  | EmptyString, _ => Some s
  | String a p', String b s' => if Ascii.eqb a b then strip_prefix p' s' else None
  | String _ _, EmptyString => None
  end.

Fixpoint split_at_first (c : ascii) (s : string) : option (string * string) :=
  match s with
  | EmptyString => None
  | String a s' =>
      if Ascii.eqb a c then Some (EmptyString, s')
      else match split_at_first c s' with
           | Some (l, r) => Some (String a l, r)
           | None => None
           end
  end.

Record DataUri : Type := mkDataUri {
  mime : string;
  encoding : string;
  payload : string
}.

Definition parse_data_uri (u : string) : option DataUri :=
  match strip_prefix "data:" u with
  | None => None
  | Some body =>
      match split_at_first ";" body with
      | None => None
      | Some (m, rest) =>
          match split_at_first "," rest with
          | None => None
          | Some (e, p) => Some {| mime := m; encoding := e; payload := p |}
          end
      end
  end.

End Grammar.

(** ** The .env file read at startup *)

Module EnvFile.

Fixpoint TrimStart (s : string) : string :=
  match s with
  | EmptyString => EmptyString
  | String a s' => if Str.IsWhiteSpace a then TrimStart s' else s
  end.

Fixpoint TrimEnd (s : string) : string :=
  match s with
  | EmptyString => EmptyString
  | String a s' =>
      match TrimEnd s' with
      | EmptyString => if Str.IsWhiteSpace a then EmptyString else String a EmptyString
      | rest => String a rest
      end
  end.

(** [s.Trim()] *)
Definition Trim (s : string) : string := TrimEnd (TrimStart s).

(** [s.Split(c, 2)]: the text before the first [c] and the text after it,
    or [s] alone when it has no [c]. *)
Fixpoint Split2 (c : ascii) (s : string) : list string :=
  match s with
  | EmptyString => [EmptyString]
  | String a s' =>
      if Ascii.eqb a c then [EmptyString; s']
      else match Split2 c s' with
           | [l; r] => [String a l; r]
           | _ => [s]
           end
  end.

(** The lines the [Where] clause lets through. *)
Definition kept (l : string) : bool :=
  negb (Str.IsNullOrWhiteSpace (Some l)) && negb (Str.StartsWith "#" l).

(** What the loop does: the calls of [Environment.SetEnvironmentVariable]
    that return, in order, as pairs of variable and value; and, when a call
    throws because the runtime refuses the variable name ([accepts] tells
    which names it takes), the name of that call, the last one made: the
    exception ends the loop. *)
Fixpoint load (accepts : string -> bool) (lines : list string)
  : list (string * string) * option string :=
  match lines with
  | [] => ([], None)
  | line :: rest =>
      if kept line then
        match Split2 "=" line with
        | [k; v] =>
            if accepts (Trim k) then
              let '(sets, refused) := load accepts rest in
              ((Trim k, Trim v) :: sets, refused)
            else ([], Some (Trim k))
        | _ => load accepts rest
        end
      else load accepts rest
  end.

Fixpoint has_char (c : ascii) (s : string) : bool :=
  match s with
  | EmptyString => false
  | String a s' => Ascii.eqb a c || has_char c s'
  end.

Definition first_char (s : string) : option ascii :=
  match s with EmptyString => None | String a _ => Some a end.

Fixpoint last_char (s : string) : option ascii :=
  match s with
  | EmptyString => None
  | String a EmptyString => Some a
  | String _ s' => last_char s'
  end.

(** No white space at either end. *)
Definition trimmed (s : string) : Prop :=
  (forall a, first_char s = Some a -> Str.IsWhiteSpace a = false) /\
  (forall a, last_char s = Some a -> Str.IsWhiteSpace a = false).

End EnvFile.

(** ** The authentication hook of the client (useAuth)

    Numbers are the integers a JavaScript number holds exactly;
    [localStorage] is a finite map; [Date.now()] is an input. *)

Module Auth.

(** What [JSON.parse] returns, with the two objects the hook builds. *)
Record Json : Type := mkJson {
  Value : Type;
  parse : string -> option Value;
  stringify : Value -> string;
  user_named : string -> Value
}.

Record LoginResponse : Type := mkLoginResponse {
  access_token : string;
  token_type : string;
  expires_in : Z
}.

(** The answer to the login request: not [ok], with the [detail] of its
    body if it has one, or [ok] with its body. *)
Inductive LoginAnswer : Type :=
| NotOk (detail : option string)
| Ok (data : LoginResponse).

Definition tokenKey : string := "auth_token".
Definition tokenExpiryKey : string := "auth_expiry".
Definition userKey : string := "auth_user".

Record State (J : Json) : Type := mkState {
  localStorage : gmap string string;
  isAuthenticated : bool;
  user : option (Value J);
  isLoading : bool
}.

Arguments mkState {J}.
Arguments localStorage {J}.
Arguments isAuthenticated {J}.
Arguments user {J}.
Arguments isLoading {J}.

(** A string or [null] taken as a condition. *)
Definition truthy (v : option string) : bool :=
  match v with Some (String _ _) => true | _ => false end.

Definition js_space (c : ascii) : bool :=
  let n := N_of_ascii c in
  (((9 <=? n) && (n <=? 13)) || (n =? 32) || (n =? 160))%N.

Fixpoint skip_space (s : string) : string :=
  match s with
  | EmptyString => EmptyString
  | String a s' => if js_space a then skip_space s' else s
  end.

Definition is_digit (c : ascii) : bool :=
  let n := N_of_ascii c in ((48 <=? n) && (n <=? 57))%N.

Fixpoint digits (s : string) : string :=
  match s with
  | EmptyString => EmptyString
  | String a s' => if is_digit a then String a (digits s') else EmptyString
  end.

Definition digits_value (d : string) : N :=
  match NilEmpty.uint_of_string d with
  | Some u => N.of_uint u
  | None => 0
  end.

(** [parseInt(s, 10)] as the integer the digits write; [None] is [NaN]. The
    code gets the double nearest to that integer, which is the integer
    itself when it is a safe one (see [safe_integer]). *)
Definition parseInt (s : string) : option Z :=
  let s1 := skip_space s in
  let '(negative, s2) :=
    match s1 with
    | String a r =>
        if Ascii.eqb a "-" then (true, r)
        else if Ascii.eqb a "+" then (false, r)
        else (false, s1)
    | EmptyString => (false, s1)
    end in
  match digits s2 with
  | EmptyString => None
  | d => Some (if negative then - Z.of_N (digits_value d) else Z.of_N (digits_value d))
  end.

(** [n.toString()] for a safe integer: its decimal digits. *)
Definition toString (n : Z) : string :=
  if (n <? 0)%Z then "-" ++ NilEmpty.string_of_uint (N.to_uint (Z.to_N (- n)))
  else NilEmpty.string_of_uint (N.to_uint (Z.to_N n)).

(** [a < b] and [a >= b], both false when [b] is [NaN]. *)
Definition less (a : Z) (b : option Z) : bool :=
  match b with Some b => (a <? b)%Z | None => false end.

Definition at_least (a : Z) (b : option Z) : bool :=
  match b with Some b => (b <=? a)%Z | None => false end.

Definition clear (storage : gmap string string) : gmap string string :=
  delete userKey (delete tokenExpiryKey (delete tokenKey storage)).

(** The state a component starts with. *)
Definition initial {J : Json} (storage : gmap string string) : State J :=
  {| localStorage := storage; isAuthenticated := false; user := None; isLoading := true |}.

(** The effect run on mount. A saved user that parses without an exception
    is taken as a user, whatever it parses to. *)
Definition mount {J : Json} (now : Z) (st : State J) : State J :=
  let token := localStorage st !! tokenKey in
  let expiry := localStorage st !! tokenExpiryKey in
  let savedUser := localStorage st !! userKey in
  if truthy token && truthy expiry && less now (parseInt (default EmptyString expiry))
  then
    {| localStorage := localStorage st;
       isAuthenticated := true;
       user := if truthy savedUser
               then Some (default (user_named J "User")
                            (parse J (default EmptyString savedUser)))
               else user st;
       isLoading := false |}
  else
    {| localStorage := clear (localStorage st);
       isAuthenticated := isAuthenticated st;
       user := user st;
       isLoading := false |}.

(** [login]: the message of the error it throws, or the state it leaves.
    The expiry is computed on integers, as the code does on safe ones. *)
Definition login {J : Json} (now : Z) (username : string) (answer : LoginAnswer)
    (st : State J) : string + State J :=
  match answer with
  | NotOk detail =>
      inl (if truthy detail then default EmptyString detail else "Login failed")
  | Ok data =>
      let expiryTime := (now + expires_in data * 1000)%Z in
      let userInfo := user_named J username in
      inr {| localStorage :=
               <[userKey := stringify J userInfo]>
                 (<[tokenExpiryKey := toString expiryTime]>
                    (<[tokenKey := access_token data]> (localStorage st)));
             isAuthenticated := true;
             user := Some userInfo;
             isLoading := isLoading st |}
  end.

Definition logout {J : Json} (st : State J) : State J :=
  {| localStorage := clear (localStorage st);
     isAuthenticated := false;
     user := None;
     isLoading := isLoading st |}.

Definition getAccessToken {J : Json} (now : Z) (st : State J) : option string * State J :=
  let token := localStorage st !! tokenKey in
  let expiry := localStorage st !! tokenExpiryKey in
  if negb (truthy token) || negb (truthy expiry) then (None, st)
  else if at_least now (parseInt (default EmptyString expiry)) then (None, logout st)
  else (token, st).

(** The integers a JavaScript number holds exactly. *)
Definition safe_integer (n : Z) : Prop := (- 2 ^ 53 < n < 2 ^ 53)%Z.

(** The stored expiry, when it reads as a number, reads as a safe integer. *)
Definition safe_expiry {J : Json} (st : State J) : Prop :=
  forall expiry t,
    localStorage st !! tokenExpiryKey = Some expiry ->
    parseInt expiry = Some t -> safe_integer t.

(** A codec to run the hook with: a value is a user's name, written after
    [name=]; any other text makes [parse] throw. *)
Definition names : Json :=
  {| Value := string;
     parse := Grammar.strip_prefix "name=";
     stringify := fun v => "name=" ++ v;
     user_named := fun name => name |}.

End Auth.

(** ** The gateway *)

Section Gateway.

(** [Convert.FromBase64String]; [None] is its [FormatException]. *)
Variable FromBase64String : string -> option (list Byte.byte).

(** The text of [Length / (1024.0 * 1024.0)] under the [F1] format, from
    [Length]. *)
Variable FormatF1 : Z -> string.

Variable provider : Provider.

(** *** ValidateImageDataUris *)

(** An entry of the error list; [image] is the loop index [i]. The string
    the code adds is [error_message]. *)
Inductive ValidationError : Type :=
| TooManyImages (count : nat)
| InvalidDataUriFormat (image : nat)
| MalformedStructure (image : nat)
| UnsupportedMimeType (image : nat) (mediaType : string)
| SizeExceeded (image : nat) (size : Z)
| InvalidBase64 (image : nat).

Definition error_message (e : ValidationError) : string :=
  match e with
  | TooManyImages n =>
      "Too many images: " ++ Str.of_nat n ++ " provided, maximum 5 allowed"
  | InvalidDataUriFormat i =>
      "Image " ++ Str.of_nat (i + 1) ++ ": Invalid data URI format (must start with 'data:')"
  | MalformedStructure i =>
      "Image " ++ Str.of_nat (i + 1) ++ ": Malformed data URI structure"
  | UnsupportedMimeType i mediaType =>
      "Image " ++ Str.of_nat (i + 1) ++ ": Unsupported MIME type '" ++ mediaType
      ++ "' (allowed: PNG, JPEG, GIF, WebP)"
  | SizeExceeded i size =>
      "Image " ++ Str.of_nat (i + 1) ++ ": Size " ++ FormatF1 size ++ "MB exceeds maximum 5MB"
  | InvalidBase64 i =>
      "Image " ++ Str.of_nat (i + 1) ++ ": Invalid base64 encoding"
  end.

Definition allowedMimeTypes : list string :=
  ["image/png"; "image/jpeg"; "image/jpg"; "image/gif"; "image/webp"].

Definition maxSizeBytes : Z := 5 * 1024 * 1024.

Definition Contains (items : list string) (x : string) : bool :=
  existsb (String.eqb x) items.

(** The body of the [for] loop: what one entry adds to [errors]. *)
Definition validate_entry (i : nat) (dataUri : string) : list ValidationError :=
  if negb (Str.StartsWith "data:" dataUri) then [InvalidDataUriFormat i]
  else
    let semiIndex := Str.IndexOf ";" dataUri in
    let commaIndex := Str.IndexOf "," dataUri in
    if ((semiIndex <? 0) || (commaIndex <? 0) || (commaIndex <? semiIndex))%Z
    then [MalformedStructure i]
    else
      let mediaType := Str.ToLowerInvariant (Str.Range dataUri (Str.Length "data:") semiIndex) in
      if negb (Contains allowedMimeTypes mediaType) then [UnsupportedMimeType i mediaType]
      else
        let base64Data := Str.RangeFrom dataUri (commaIndex + 1) in
        match FromBase64String base64Data with
        | Some imageBytes =>
            if (Z.of_nat (List.length imageBytes) >? maxSizeBytes)%Z
            then [SizeExceeded i (Z.of_nat (List.length imageBytes))]
            else []
        | None => [InvalidBase64 i]
        end.

Fixpoint validate_loop (i : nat) (imageDataUris : list string) : list ValidationError :=
  match imageDataUris with
  | [] => []
  | dataUri :: rest => validate_entry i dataUri ++ validate_loop (S i) rest
  end.

Definition ValidateImageDataUris (imageDataUris : option (list string))
  : list ValidationError :=
  match imageDataUris with
  | None => []
  | Some uris =>
      if (List.length uris =? 0)%nat then []
      else if (5 <? List.length uris)%nat then [TooManyImages (List.length uris)]
      else validate_loop 0 uris
  end.

(** *** The reference definition of attachment validation *)

Inductive Verdict : Type :=
| TooMany
| Rejected (position : nat).

Definition verdict_of (e : ValidationError) : Verdict :=
  match e with
  | TooManyImages _ => TooMany
  | InvalidDataUriFormat i | MalformedStructure i | UnsupportedMimeType i _
  | SizeExceeded i _ | InvalidBase64 i => Rejected i
  end.

(** The image types the specification allows; mime types compare without
    regard to case. *)
Definition image_types : list string := ["png"; "jpeg"; "jpg"; "gif"; "webp"].

Definition mime_allowed (m : string) : bool :=
  existsb (fun t => String.eqb (Str.ToLowerInvariant m) ("image/" ++ t)) image_types.

Definition attachment_valid (u : string) : bool :=
  match Grammar.parse_data_uri u with
  | None => false
  | Some d =>
      mime_allowed (Grammar.mime d) &&
      match FromBase64String (Grammar.payload d) with
      | None => false
      | Some bytes => (Z.of_nat (List.length bytes) <=? 5 * 1024 * 1024)%Z
      end
  end.

Fixpoint rejected_from (i : nat) (uris : list string) : list Verdict :=
  match uris with
  | [] => []
  | u :: rest =>
      (if attachment_valid u then [] else [Rejected i]) ++ rejected_from (S i) rest
  end.

Definition validateAttachments (attachments : option (list string)) : list Verdict :=
  match attachments with
  | None => []
  | Some uris =>
      if (5 <? List.length uris)%nat then [TooMany] else rejected_from 0 uris
  end.

(** *** BuildUserMessage *)

Fixpoint image_parts (imageDataUris : list string) : Exception + list ResponseContentPart :=
  match imageDataUris with
  | [] => inr []
  | imageDataUri :: rest =>
      let part :=
        if Str.StartsWith "data:" imageDataUri then
          let mediaType :=
            Str.Range imageDataUri (Str.Length "data:") (Str.IndexOf ";" imageDataUri) in
          match FromBase64String
                  (Str.RangeFrom imageDataUri (Str.IndexOf "," imageDataUri + 1)) with
          | Some imageBytes => inr (InputImagePart imageBytes mediaType)
          | None => inl FormatException
          end
        else inr (InputImageUriPart imageDataUri) in
      match part with
      | inl e => inl e
      | inr p =>
          match image_parts rest with
          | inl e => inl e
          | inr ps => inr (p :: ps)
          end
      end
  end.

Definition BuildUserMessage (message : string) (imageDataUris : option (list string))
  : Exception + ResponseItem :=
  let validationErrors := ValidateImageDataUris imageDataUris in
  if (0 <? List.length validationErrors)%nat then
    inl (ArgumentException
           ("Invalid image attachments: "
            ++ Str.Join ", " (List.map error_message validationErrors)) None)
  else
    match image_parts (default [] imageDataUris) with
    | inl e => inl e
    | inr parts => inr (UserMessageItem (InputTextPart message :: parts))
    end.

(** *** Calls to the provider *)

Definition call_GetAgent (agentId : string) : Task AgentRecord :=
  fun w =>
    let w' := log_call (Agents_GetAgentAsync agentId) w in
    match answer_GetAgent provider (calls w) agentId with
    | inl e => (Threw e, w')
    | inr agentRecord => (Returned agentRecord, w')
    end.

Definition call_CreateConversation (options : ProjectConversationCreationOptions)
  : Task string :=
  fun w =>
    let w' := log_call (CreateProjectConversationAsync options) w in
    match answer_CreateConversation provider (calls w) options with
    | inl e => (Threw e, w')
    | inr conversationId => (Returned conversationId, w')
    end.

Definition call_CreateResponseStreaming (agent : AgentVersion) (conversationId : string)
    (inputItems : list ResponseItem) : Task ResponseStream :=
  fun w =>
    (Returned (answer_CreateResponseStreaming provider (calls w) agent conversationId inputItems),
     log_call (CreateResponseStreamingAsync agent conversationId inputItems) w).

(** *** GetAgentAsync *)

Definition GetAgentAsync : Task AgentVersion :=
  do! ThrowIfDisposed in
  let! s := get_service in
  match _latestAgentVersion s with
  | Some cached => ret cached
  | None =>
      do! WaitAsync in
      try_finally
        (let! s := get_service in
         match _latestAgentVersion s with
         | Some cached => ret cached
         | None =>
             let! agentRecord := call_GetAgent (_agentId s) in
             do! update_service (set_latestAgentVersion (Some (Versions_Latest agentRecord))) in
             ret (Versions_Latest agentRecord)
         end)
        Release
  end.

(** *** CreateConversationAsync *)

Definition conversation_title (firstMessage : string) : string :=
  if (Str.Length firstMessage >? 50)%Z
  then Str.Range firstMessage 0 50 ++ "..."
  else firstMessage.

Definition conversation_options (firstMessage : option string)
  : ProjectConversationCreationOptions :=
  match firstMessage with
  | Some m =>
      if negb (Str.IsNullOrEmpty firstMessage)
      then {| Metadata := <["title" := conversation_title m]> ∅ |}
      else {| Metadata := ∅ |}
  | None => {| Metadata := ∅ |}
  end.

Definition CreateConversationAsync (firstMessage : option string) : Task string :=
  do! ThrowIfDisposed in
  call_CreateConversation (conversation_options firstMessage).

(** *** StreamMessageAsync *)

Definition ExtractUsageInfo (usage : ResponseTokenUsage) : UsageInfo :=
  {| PromptTokens := InputTokenCount usage;
     CompletionTokens := OutputTokenCount usage;
     TotalTokens := TotalTokenCount usage |}.

(** An async iterator run to its end: the items it yielded, how it ended,
    and the world it left. *)
Definition AsyncEnumerable (A : Type) : Type := World -> list A * Outcome unit * World.

(** The body of the [await foreach]: the deltas yielded, and the usage stored
    on the way. *)
Fixpoint foreach_update (us : list StreamingResponseUpdate) (w : World) : list string * World :=
  match us with
  | [] => ([], w)
  | update :: rest =>
      let yielded :=
        match update with
        | StreamingResponseOutputTextDeltaUpdate delta => [delta]
        | _ => []
        end in
      let w1 :=
        match update with
        | StreamingResponseCompletedUpdate usage =>
            with_service (set_lastRunUsage (Some (ExtractUsageInfo usage))) w
        | _ => w
        end in
      let '(more, w2) := foreach_update rest w1 in
      ((yielded ++ more)%list, w2)
  end.

(** What runs before the first update is awaited. *)
Definition open_stream (conversationId message : string)
    (imageDataUris : option (list string)) : Task ResponseStream :=
  do! ThrowIfDisposed in
  let! agent := GetAgentAsync in
  if Str.IsNullOrWhiteSpace (Some message)
  then throw (ArgumentException "Message cannot be null or whitespace" (Some "message"))
  else
    match BuildUserMessage message imageDataUris with
    | inl e => throw e
    | inr userMessage => call_CreateResponseStreaming agent conversationId [userMessage]
    end.

Definition StreamMessageAsync (conversationId message : string)
    (imageDataUris : option (list string)) : AsyncEnumerable string :=
  fun w =>
    match open_stream conversationId message imageDataUris w with
    | (Returned stream, w1) =>
        let '(deltas, w2) := foreach_update (updates stream) w1 in
        (deltas,
         match failure stream with Some e => Threw e | None => Returned tt end,
         w2)
    | (Threw e, w1) => ([], Threw e, w1)
    | (Pending, w1) => ([], Pending, w1)
    end.

(** *** GetLastRunUsageAsync and Dispose *)

Definition GetLastRunUsageAsync : Task (option UsageInfo) :=
  do! ThrowIfDisposed in
  let! s := get_service in
  ret (_lastRunUsage s).

Definition Dispose (w : World) : World :=
  if negb (_disposed (service w)) then with_service (set_disposed true) w else w.

(** *** The streaming endpoint *)

Record ChatRequest : Type := mkChatRequest {
  Message : string;
  ConversationId : option string;
  ImageDataUris : option (list string)
}.

(** The request's conversation: the one it names, or a new one created with
    the message as first message ([request.ConversationId ?? await
    agentService.CreateConversationAsync(request.Message, ...)]). *)
Definition conversation_for (request : ChatRequest) : Task string :=
  match ConversationId request with
  | Some conversationId => ret conversationId
  | None => CreateConversationAsync (Some (Message request))
  end.

(** **** The endpoint pattern of the backend guide

    The handler as the guide prints it, abridged: it writes no usage frame
    and catches nothing. What it writes to the response body is text. *)

(** [JsonSerializer.Serialize(new { type = "chunk", content = chunk })] *)
Variable Serialize_chunk : string -> string.

(** The first write. The id is put between the quotes as it is: it is not
    serialized, so nothing in it is escaped. *)
Definition conversationId_frame (conversationId : string) : string :=
  "data: {" ++ Str.quote ++ "type" ++ Str.quote ++ ":"
  ++ Str.quote ++ "conversationId" ++ Str.quote ++ ","
  ++ Str.quote ++ "conversationId" ++ Str.quote ++ ":"
  ++ Str.quote ++ conversationId ++ Str.quote ++ "}" ++ Str.LF ++ Str.LF.

Definition chunk_frame (chunk : string) : string :=
  "data: " ++ Serialize_chunk chunk ++ Str.LF ++ Str.LF.

Definition done_frame : string :=
  "data: {" ++ Str.quote ++ "type" ++ Str.quote ++ ":"
  ++ Str.quote ++ "done" ++ Str.quote ++ "}" ++ Str.LF ++ Str.LF.

(** The texts written to the response, how the handler ended, and the
    world it left. *)
Definition StreamChatMessage (request : ChatRequest)
  : World -> list string * Outcome unit * World :=
  fun w =>
    match conversation_for request w with
    | (Returned conversationId, w1) =>
        let '(chunks, ended, w2) :=
          StreamMessageAsync conversationId (Message request) (ImageDataUris request) w1 in
        ((conversationId_frame conversationId :: List.map chunk_frame chunks
            ++ match ended with Returned _ => [done_frame] | _ => [] end)%list,
         ended, w2)
    | (Threw e, w1) => ([], Threw e, w1)
    | (Pending, w1) => ([], Pending, w1)
    end.

(** **** The encoder of the streaming endpoint *)

(** The frames of the response body, by the [type] field of their JSON. *)
Inductive StreamEvent : Type :=
| ConversationIdEvent (conversationId : string)
| ChunkEvent (content : string)
| UsageEvent (usage : UsageInfo)
| DoneEvent
| ErrorEvent (message : string).

(** The message shown to the user for an exception; the specification asks
    for a user-safe one and does not give its text. *)
Variable user_safe_message : Exception -> string.

(** Modelled from the spec: the encoder of the streaming endpoint. The
    handler itself is not among the sources, which have only the abridged
    pattern above. After the specification's section on the StreamEncoder:
    emit ConversationId immediately, creating the conversation first if
    none was supplied by the caller; emit one Chunk event per delta; on
    normal provider completion, emit Usage (if captured) then Done; on any
    exception raised during iteration, emit a single Error event carrying a
    user-safe message and do not emit Done. The captured usage is read
    through the gateway's accessor. When no conversation can be had there
    is nothing to emit first, and the request fails without a stream. The
    gateway operations are the source's.

    The result is the frames emitted, how the handler ended, and the world
    it left. *)
Definition StreamEncoder (request : ChatRequest)
  : World -> list StreamEvent * Outcome unit * World :=
  fun w =>
    match conversation_for request w with
    | (Returned conversationId, w1) =>
        let '(deltas, iteration, w2) :=
          StreamMessageAsync conversationId (Message request) (ImageDataUris request) w1 in
        let emitted := ConversationIdEvent conversationId :: List.map ChunkEvent deltas in
        match iteration with
        | Returned _ =>
            match GetLastRunUsageAsync w2 with
            | (Returned captured, w3) =>
                ((emitted
                  ++ match captured with Some usage => [UsageEvent usage] | None => [] end
                  ++ [DoneEvent])%list,
                 Returned tt, w3)
            | (Threw e, w3) =>
                ((emitted ++ [ErrorEvent (user_safe_message e)])%list, Returned tt, w3)
            | (Pending, w3) => (emitted, Pending, w3)
            end
        | Threw e =>
            ((emitted ++ [ErrorEvent (user_safe_message e)])%list, Returned tt, w2)
        | Pending => (emitted, Pending, w2)
        end
    | (Threw e, w1) => ([], Threw e, w1)
    | (Pending, w1) => ([], Pending, w1)
    end.

(** *** The wire protocol, as the specification words it *)

Definition is_terminal (e : StreamEvent) : bool :=
  match e with DoneEvent | ErrorEvent _ => true | _ => false end.

Definition is_conversationId (e : StreamEvent) : bool :=
  match e with ConversationIdEvent _ => true | _ => false end.

Definition is_usage (e : StreamEvent) : bool :=
  match e with UsageEvent _ => true | _ => false end.

Definition is_error (e : StreamEvent) : bool :=
  match e with ErrorEvent _ => true | _ => false end.

Definition is_done (e : StreamEvent) : bool :=
  match e with DoneEvent => true | _ => false end.

Definition starts_with_conversationId (frames : list StreamEvent) : bool :=
  match frames with ConversationIdEvent _ :: _ => true | _ => false end.

Definition ends_with_terminal (success : bool) (frames : list StreamEvent) : bool :=
  match List.last (List.map Some frames) None with
  | Some DoneEvent => success
  | Some (ErrorEvent _) => negb success
  | _ => false
  end.

Definition count (p : StreamEvent -> bool) (frames : list StreamEvent) : nat :=
  List.length (List.filter p frames).

(** [conversationId] first; at most one [usage]; exactly one terminal frame,
    the last one: [done] on success, [error] on failure. *)
Definition wire_protocol (success : bool) (frames : list StreamEvent) : bool :=
  starts_with_conversationId frames
  && (count is_usage frames <=? 1)%nat
  && (count is_terminal frames =? 1)%nat
  && ends_with_terminal success frames.

Definition succeeded {A} (o : Outcome A) : bool :=
  match o with Returned _ => true | _ => false end.

(** *** Concurrent callers of GetAgentAsync

    Each caller is at one of the points of [GetAgentAsync] where it reads or
    writes a field, takes or returns the permit, or calls the provider; a
    step of the pool is a step of one caller. The callers pass the default
    cancellation token, and nobody disposes the service meanwhile. *)

Inductive Caller : Type :=
| AtEntry
| AtFastCheck
| AtWait
| AtLockedCheck
| AtProviderCall
| AtProviderAnswer (answer : Exception + AgentRecord)
| AtRelease (result : Exception + AgentVersion)
| Finished (result : Exception + AgentVersion).

Definition caller_step (c : Caller) (w : World) : option (Caller * World) :=
  match c with
  | AtEntry =>
      Some (if _disposed (service w) then Finished (inl ObjectDisposedException)
            else AtFastCheck, w)
  | AtFastCheck =>
      Some (match _latestAgentVersion (service w) with
            | Some cached => Finished (inr cached)
            | None => AtWait
            end, w)
  | AtWait =>
      match _agentLock (service w) with
      | O => None
      | S n => Some (AtLockedCheck, with_service (set_agentLock n) w)
      end
  | AtLockedCheck =>
      Some (match _latestAgentVersion (service w) with
            | Some cached => AtRelease (inr cached)
            | None => AtProviderCall
            end, w)
  | AtProviderCall =>
      Some (AtProviderAnswer (answer_GetAgent provider (calls w) (_agentId (service w))),
            log_call (Agents_GetAgentAsync (_agentId (service w))) w)
  | AtProviderAnswer (inl e) => Some (AtRelease (inl e), w)
  | AtProviderAnswer (inr agentRecord) =>
      Some (AtRelease (inr (Versions_Latest agentRecord)),
            with_service (set_latestAgentVersion (Some (Versions_Latest agentRecord))) w)
  | AtRelease result => Some (Finished result, Release w)
  | Finished _ => None
  end.

Record Pool : Type := mkPool {
  callers : list Caller;
  world : World
}.

(** Caller [i] takes a step, when it can. *)
Definition pool_step (i : nat) (p : Pool) : option Pool :=
  match callers p !! i with
  | None => None
  | Some c =>
      match caller_step c (world p) with
      | None => None
      | Some (c', w') => Some {| callers := <[i := c']> (callers p); world := w' |}
      end
  end.

(** A schedule names the caller to run at each turn; a turn given to a
    caller that cannot move is lost. *)
Fixpoint run (schedule : list nat) (p : Pool) : Pool :=
  match schedule with
  | [] => p
  | i :: rest => run rest (default p (pool_step i p))
  end.

(** [n] callers arriving at a service fresh from its constructor. *)
Definition first_time (agentId : string) (n : nat) : Pool :=
  {| callers := replicate n AtEntry;
     world := {| service := new_service agentId; calls := [] |} |}.

Definition is_finished (c : Caller) : bool :=
  match c with Finished _ => true | _ => false end.

Definition all_finished (p : Pool) : bool := forallb is_finished (callers p).

(** Steps a caller still has before it, at most. *)
Definition remaining (c : Caller) : nat :=
  match c with
  | AtEntry => 7
  | AtFastCheck => 6
  | AtWait => 5
  | AtLockedCheck => 4
  | AtProviderCall => 3
  | AtProviderAnswer _ => 2
  | AtRelease _ => 1
  | Finished _ => 0
  end.

Definition pool_remaining (p : Pool) : nat := list_sum (List.map remaining (callers p)).

(** The callers between [WaitAsync] and [Release]. *)
Definition holds_permit (c : Caller) : bool :=
  match c with
  | AtLockedCheck | AtProviderCall | AtProviderAnswer _ | AtRelease _ => true
  | _ => false
  end.

(** *** Specification-side definitions *)

Definition inline_part (u : string) (p : ResponseContentPart) : Prop :=
  Str.StartsWith "data:" u = true /\
  exists imageBytes,
    FromBase64String (Str.RangeFrom u (Str.IndexOf "," u + 1)) = Some imageBytes /\
    p = InputImagePart imageBytes (Str.Range u (Str.Length "data:") (Str.IndexOf ";" u)).

Definition is_uri_part (p : ResponseContentPart) : bool :=
  match p with InputImageUriPart _ => true | _ => false end.

(** The first [n] characters of a string. *)
Fixpoint first_chars (n : nat) (s : string) : string :=
  match n, s with
  | S n', String a s' => String a (first_chars n' s')
  | _, _ => EmptyString
  end.

(** The title the specification gives a conversation. *)
Definition expected_title (firstMessage : option string) : option string :=
  match firstMessage with
  | None => None
  | Some m =>
      if (String.length m =? 0)%nat then None
      else if (String.length m <=? 50)%nat then Some m
      else Some (first_chars 50 m ++ "...")
  end.

Definition blank (message : string) : Prop :=
  Forall (fun c => Str.IsWhiteSpace c = true) (list_ascii_of_string message).

(** The usage of the last completion update of a stream, if it has one. *)
Fixpoint captured (us : list StreamingResponseUpdate) : option UsageInfo :=
  match us with
  | [] => None
  | StreamingResponseCompletedUpdate usage :: rest =>
      match captured rest with
      | Some later => Some later
      | None => Some (ExtractUsageInfo usage)
      end
  | _ :: rest => captured rest
  end.

Definition deltas_of (us : list StreamingResponseUpdate) : list string :=
  flat_map (fun u => match u with
                     | StreamingResponseOutputTextDeltaUpdate delta => [delta]
                     | _ => []
                     end) us.

(** *** Invariants of the pool of callers *)

(** The permit is with the semaphore or with exactly one caller. *)
Definition permit_inv (cs : list Caller) (lock : nat) : Prop :=
  (lock = 1%nat /\ forall j c, cs !! j = Some c -> holds_permit c = false) \/
  (lock = 0%nat /\
   exists i c, cs !! i = Some c /\ holds_permit c = true /\
               forall j c', cs !! j = Some c' -> j <> i -> holds_permit c' = false).

(** What a caller at its point knows of the cache and of the log, when the
    first load is answered with [agentRecord]. *)
Definition caller_ok (agentId : string) (agentRecord : AgentRecord) (w : World)
    (c : Caller) : Prop :=
  match c with
  | AtProviderCall =>
      _latestAgentVersion (service w) = None /\ calls w = []
  | AtProviderAnswer answer =>
      answer = inr agentRecord /\ _latestAgentVersion (service w) = None /\
      calls w = [Agents_GetAgentAsync agentId]
  | AtRelease result | Finished result =>
      result = inr (Versions_Latest agentRecord) /\
      _latestAgentVersion (service w) = Some (Versions_Latest agentRecord)
  | _ => True
  end.

(** Nothing loaded and nothing asked; or the one load asked and its answer
    on the way to a caller; or the handle cached. *)
Definition load_phase (agentId : string) (agentRecord : AgentRecord)
    (cs : list Caller) (w : World) : Prop :=
  (_latestAgentVersion (service w) = None /\ calls w = []) \/
  (_latestAgentVersion (service w) = None /\
   calls w = [Agents_GetAgentAsync agentId] /\
   exists j answer, cs !! j = Some (AtProviderAnswer answer)) \/
  (_latestAgentVersion (service w) = Some (Versions_Latest agentRecord) /\
   calls w = [Agents_GetAgentAsync agentId]).

Record pool_inv (agentId : string) (agentRecord : AgentRecord) (p : Pool) : Prop := {
  inv_live : _disposed (service (world p)) = false;
  inv_id : _agentId (service (world p)) = agentId;
  inv_permit : permit_inv (callers p) (_agentLock (service (world p)));
  inv_phase : load_phase agentId agentRecord (callers p) (world p);
  inv_callers : forall j c, callers p !! j = Some c -> caller_ok agentId agentRecord (world p) c
}.

(** *** Readings of the specification that the code does not meet *)

(** The specification's reading of a call rejected for its attachments: it
    ends with the exception that lists the validation errors, the provider
    has not been called, and nothing was yielded. *)
Definition rejected_before_any_provider_call (conversationId message : string)
    (imageDataUris : option (list string)) (w : World) : Prop :=
  let '(deltas, ended, w') :=
    StreamMessageAsync conversationId message imageDataUris w in
  ended = Threw (ArgumentException
                   ("Invalid image attachments: "
                    ++ Str.Join ", "
                         (List.map error_message (ValidateImageDataUris imageDataUris)))
                   None) /\
  calls w' = calls w /\
  deltas = [].

(** The specification's reading of calls that share no state: what the
    usage accessor returns after a first call is what it returns after a
    second one. *)
Definition usage_unaltered_by
    (first second : AsyncEnumerable string) (w : World) : Prop :=
  let '(_, _, w1) := first w in
  let '(_, _, w2) := second w1 in
  fst (GetLastRunUsageAsync w2) = fst (GetLastRunUsageAsync w1).

(** *** GetAgentInfoAsync and GetAgentMetadataAsync *)

(** [AgentVersion.ToString()]; [None] is a null string. *)
Variable AgentVersion_ToString : AgentVersion -> option string.

Definition GetAgentInfoAsync : Task string :=
  do! ThrowIfDisposed in
  let! agent := GetAgentAsync in
  ret (default "AI Assistant" (AgentVersion_ToString agent)).

Variable properties : AgentVersion -> AgentProperties.

Record AgentMetadataResponse : Type := mkAgentMetadataResponse {
  response_Id : string;
  response_Object : string;
  response_CreatedAt : Z;
  response_Name : string;
  response_Description : option string;
  response_Model : string;
  response_Instructions : option string;
  response_Metadata : option (gmap string string)
}.

(** The service with its metadata cache, the field [_cachedMetadata]. *)
Record Host : Type := mkHost {
  host_world : World;
  _cachedMetadata : option AgentMetadataResponse
}.

Definition metadata_of (agent : AgentVersion) : AgentMetadataResponse :=
  let promptAgentDefinition :=
    match Definition_ (properties agent) with
    | PromptAgentDefinition m i => Some (m, i)
    | OtherAgentDefinition => None
    end in
  {| response_Id := agent_Id agent;
     response_Object := "agent";
     response_CreatedAt := CreatedAt (properties agent);
     response_Name := default "AI Assistant" (Name (properties agent));
     response_Description := Description (properties agent);
     response_Model :=
       default EmptyString (match promptAgentDefinition with
                            | Some (m, _) => m
                            | None => None
                            end);
     response_Instructions :=
       Some (default EmptyString (match promptAgentDefinition with
                                  | Some (_, i) => i
                                  | None => None
                                  end));
     response_Metadata := AgentMetadata (properties agent) |}.

Definition GetAgentMetadataAsync (h : Host) : Outcome AgentMetadataResponse * Host :=
  if _disposed (service (host_world h)) then (Threw ObjectDisposedException, h)
  else
    match _cachedMetadata h with
    | Some cached => (Returned cached, h)
    | None =>
        match GetAgentAsync (host_world h) with
        | (Returned agent, w) =>
            (Returned (metadata_of agent),
             {| host_world := w; _cachedMetadata := Some (metadata_of agent) |})
        | (Threw e, w) => (Threw e, {| host_world := w; _cachedMetadata := None |})
        | (Pending, w) => (Pending, {| host_world := w; _cachedMetadata := None |})
        end
    end.

(** *** The public operations, one after the other *)

Inductive Operation : Type :=
| CallGetAgentInfo
| CallGetAgentMetadata
| CallCreateConversation (firstMessage : option string)
| CallStreamMessage (conversationId message : string) (imageDataUris : option (list string))
| CallGetLastRunUsage
| CallDispose.

(** How an operation ended, its value left aside. *)
Definition ending {A} (o : Outcome A) : Outcome unit :=
  match o with
  | Returned _ => Returned tt
  | Threw e => Threw e
  | Pending => Pending
  end.

Definition on_world {A} (t : Task A) (h : Host) : Outcome unit * Host :=
  let '(o, w) := t (host_world h) in
  (ending o, {| host_world := w; _cachedMetadata := _cachedMetadata h |}).

Definition perform (op : Operation) (h : Host) : Outcome unit * Host :=
  match op with
  | CallGetAgentInfo => on_world GetAgentInfoAsync h
  | CallGetAgentMetadata =>
      let '(o, h') := GetAgentMetadataAsync h in (ending o, h')
  | CallCreateConversation firstMessage => on_world (CreateConversationAsync firstMessage) h
  | CallStreamMessage conversationId message imageDataUris =>
      let '(_, ended, w) :=
        StreamMessageAsync conversationId message imageDataUris (host_world h) in
      (ended, {| host_world := w; _cachedMetadata := _cachedMetadata h |})
  | CallGetLastRunUsage => on_world GetLastRunUsageAsync h
  | CallDispose =>
      (Returned tt, {| host_world := Dispose (host_world h);
                       _cachedMetadata := _cachedMetadata h |})
  end.

Fixpoint perform_all (ops : list Operation) (h : Host) : Host :=
  match ops with
  | [] => h
  | op :: rest => perform_all rest (snd (perform op h))
  end.

Definition is_CreateConversation (c : ProviderCall) : bool :=
  match c with CreateProjectConversationAsync _ => true | _ => false end.

Definition count_creates (log : list ProviderCall) : nat :=
  List.length (List.filter is_CreateConversation log).

(** *** Callers arriving at any service *)

(** [n] callers arriving together at a service in the state [w]. *)
Definition arrivals (w : World) (n : nat) : Pool :=
  {| callers := replicate n AtEntry; world := w |}.

(** Whether a caller may still ask the provider for the agent. *)
Definition loads_left (c : Caller) : nat :=
  match c with
  | AtEntry | AtFastCheck | AtWait | AtLockedCheck | AtProviderCall => 1
  | _ => 0
  end.

Definition failed (result : Exception + AgentVersion) : bool :=
  match result with inl _ => true | inr _ => false end.

(** What callers know while every load fails. *)
Definition failing_ok (c : Caller) : Prop :=
  match c with
  | AtProviderAnswer answer => exists e, answer = inl e
  | AtRelease result | Finished result => failed result = true
  | _ => True
  end.

(** ** Facts about strings *)

Lemma append_cons a (l r : string) : String a l ++ r = String a (l ++ r).
Proof. reflexivity. Qed.

Lemma append_nil (r : string) : EmptyString ++ r = r.
Proof. reflexivity. Qed.

Lemma strip_prefix_app p s r : Grammar.strip_prefix p s = Some r -> s = p ++ r.
Proof.
  revert s. induction p as [|a p IH]; intros s; simpl.
  - now intros [= ->].
  - destruct s as [|b s]; [congruence|].
    destruct (Ascii.eqb_spec a b) as [->|]; [|congruence].
    intros H. now rewrite append_cons, (IH _ H).
Qed.

Lemma StartsWith_strip p s :
  Str.StartsWith p s = true -> exists r, Grammar.strip_prefix p s = Some r.
Proof.
  revert s. induction p as [|a p IH]; intros s; simpl; [eauto|].
  destruct s as [|b s]; [congruence|].
  destruct (Ascii.eqb a b); [apply IH|congruence].
Qed.

Lemma StartsWith_false_strip p s :
  Str.StartsWith p s = false -> Grammar.strip_prefix p s = None.
Proof.
  revert s. induction p as [|a p IH]; intros s; simpl; [congruence|].
  destruct s as [|b s]; [reflexivity|].
  destruct (Ascii.eqb a b); [apply IH|reflexivity].
Qed.

Lemma Length_cons a s : Str.Length (String a s) = Str.Length s + 1.
Proof. unfold Str.Length. simpl String.length. lia. Qed.

Lemma Length_nonneg s : 0 <= Str.Length s.
Proof. unfold Str.Length. lia. Qed.

Lemma index_from_none c s k :
  Grammar.split_at_first c s = None -> Str.index_from c s k = -1.
Proof.
  revert k. induction s as [|a s IH]; intros k; simpl; [reflexivity|].
  destruct (Ascii.eqb a c); [congruence|].
  destruct (Grammar.split_at_first c s) as [[l r]|]; [congruence|].
  intros _. now apply IH.
Qed.

Lemma index_from_some c s k l r :
  Grammar.split_at_first c s = Some (l, r) ->
  Str.index_from c s k = k + Str.Length l /\ s = l ++ String c r.
Proof.
  revert k l. induction s as [|a s IH]; intros k l; simpl; [congruence|].
  destruct (Ascii.eqb_spec a c) as [->|Hne].
  - intros [= <- <-]. split; [unfold Str.Length; simpl; lia|reflexivity].
  - destruct (Grammar.split_at_first c s) as [[l' r']|] eqn:E; [|congruence].
    intros [= <- <-]. destruct (IH (k + 1) l' eq_refl) as [H1 H2].
    rewrite H1, Length_cons. split; [lia|]. rewrite append_cons. now f_equal.
Qed.

(** Past a prefix without [c], the search goes on in the rest. *)
Lemma index_from_app c l s k :
  Grammar.split_at_first c l = None ->
  Str.index_from c (l ++ s) k = Str.index_from c s (k + Str.Length l).
Proof.
  revert k. induction l as [|a l IH]; intros k.
  - intros _. rewrite append_nil. f_equal. unfold Str.Length. simpl. lia.
  - rewrite append_cons. simpl. destruct (Ascii.eqb a c); [congruence|].
    destruct (Grammar.split_at_first c l) as [[l' r']|]; [congruence|].
    intros _. rewrite IH by reflexivity. f_equal. rewrite Length_cons. lia.
Qed.

Lemma substring_all s : substring 0 (String.length s) s = s.
Proof. induction s as [|a s IH]; simpl; [reflexivity|now rewrite IH]. Qed.

Lemma substring_head l r : substring 0 (String.length l) (l ++ r) = l.
Proof.
  induction l as [|a l IH].
  - rewrite append_nil. now destruct r.
  - rewrite append_cons. simpl. now rewrite IH.
Qed.

Lemma substring_skip p s n m :
  substring (String.length p + n) m (p ++ s) = substring n m s.
Proof.
  induction p as [|a p IH]; [reflexivity|].
  rewrite append_cons. simpl. apply IH.
Qed.

Lemma length_app_string (a b : string) :
  String.length (a ++ b) = (String.length a + String.length b)%nat.
Proof.
  induction a as [|x a IH]; [reflexivity|].
  rewrite append_cons. simpl. now rewrite IH.
Qed.

Lemma Range_middle p l r :
  Str.Range (p ++ l ++ r) (Str.Length p) (Str.Length p + Str.Length l) = l.
Proof.
  unfold Str.Range, Str.Length.
  replace (Z.to_nat (Z.of_nat (String.length p))) with (String.length p + 0)%nat by lia.
  replace (Z.to_nat _) with (String.length l) by lia.
  rewrite substring_skip. apply substring_head.
Qed.

Lemma RangeFrom_tail p r : Str.RangeFrom (p ++ r) (Str.Length p) = r.
Proof.
  unfold Str.RangeFrom, Str.Length. rewrite length_app_string.
  replace (Z.to_nat (Z.of_nat (String.length p))) with (String.length p + 0)%nat by lia.
  rewrite substring_skip.
  replace (_ - _)%nat with (String.length r) by lia.
  apply substring_all.
Qed.

Lemma append_assoc_string (a b c : string) : (a ++ b) ++ c = a ++ (b ++ c).
Proof.
  induction a as [|x a IH]; [reflexivity|].
  rewrite !append_cons. now rewrite IH.
Qed.

Lemma Length_app a b : Str.Length (a ++ b) = Str.Length a + Str.Length b.
Proof. unfold Str.Length. rewrite length_app_string. lia. Qed.

Lemma lower_char_comma a : Ascii.eqb (Str.lower_char a) "," = Ascii.eqb a ",".
Proof. destruct a as [[] [] [] [] [] [] [] []]; reflexivity. Qed.

Lemma no_comma_lower m :
  Grammar.split_at_first "," (Str.ToLowerInvariant m) = None ->
  Grammar.split_at_first "," m = None.
Proof.
  induction m as [|a m IH]; simpl; [reflexivity|].
  rewrite lower_char_comma. destruct (Ascii.eqb a ","); [congruence|].
  destruct (Grammar.split_at_first "," (Str.ToLowerInvariant m)) as [[? ?]|];
    [congruence|].
  intros _. now rewrite IH.
Qed.

(** The image types of the specification are the mime types of the code. *)
Lemma mime_allowed_Contains m :
  mime_allowed m = Contains allowedMimeTypes (Str.ToLowerInvariant m).
Proof. reflexivity. Qed.

(** No allowed mime type has a comma in it. *)
Lemma mime_allowed_no_comma m :
  mime_allowed m = true -> Grammar.split_at_first "," m = None.
Proof.
  rewrite mime_allowed_Contains. unfold Contains, allowedMimeTypes. intros H.
  apply no_comma_lower. simpl in H.
  repeat (apply orb_prop in H; destruct H as [H|H];
          [apply String.eqb_eq in H; rewrite H; reflexivity|]).
  discriminate.
Qed.

(** Where the code's indices fall in a URI that the grammar splits. *)
Lemma data_uri_indices body m rest e p :
  Grammar.split_at_first ";" body = Some (m, rest) ->
  Grammar.split_at_first "," m = None ->
  Grammar.split_at_first "," rest = Some (e, p) ->
  let u := "data:" ++ body in
  Str.IndexOf ";" u = 5 + Str.Length m /\
  Str.IndexOf "," u = 5 + Str.Length m + 1 + Str.Length e /\
  Str.Range u (Str.Length "data:") (5 + Str.Length m) = m /\
  Str.RangeFrom u (5 + Str.Length m + 1 + Str.Length e + 1) = p.
Proof.
  intros Hsemi Hm Hcomma u. subst u.
  destruct (index_from_some ";" body 5 _ _ Hsemi) as [Isemi Ebody].
  destruct (index_from_some "," rest (5 + Str.Length m + 1) _ _ Hcomma) as [Icomma Erest].
  assert (Hi : forall c, Grammar.split_at_first c "data:" = None ->
            Str.IndexOf c ("data:" ++ body) = Str.index_from c body 5).
  { intros c Hc. unfold Str.IndexOf. now rewrite index_from_app. }
  repeat split.
  - now rewrite Hi.
  - rewrite Hi by reflexivity. rewrite Ebody.
    rewrite index_from_app by assumption. simpl.
    rewrite Icomma. reflexivity.
  - rewrite Ebody. apply (Range_middle "data:" m (String ";" rest)).
  - rewrite Ebody, Erest.
    replace ("data:" ++ m ++ String ";" (e ++ String "," p))
      with (("data:" ++ m ++ String ";" e ++ ",") ++ p).
    + replace (5 + Str.Length m + 1 + Str.Length e + 1)
        with (Str.Length ("data:" ++ m ++ String ";" e ++ ",")).
      * apply RangeFrom_tail.
      * rewrite !Length_app, !Length_cons. unfold Str.Length. simpl. lia.
    + rewrite !append_assoc_string. reflexivity.
Qed.

(** The indices the slices are taken at are within the string. *)
Lemma media_range_ok u :
  Str.StartsWith "data:" u = true ->
  0 <= Str.IndexOf ";" u ->
  Str.Length "data:" <= Str.IndexOf ";" u <= Str.Length u.
Proof.
  intros Hs Hi. destruct (StartsWith_strip _ _ Hs) as [body Hb].
  apply strip_prefix_app in Hb. subst u.
  unfold Str.IndexOf in *. rewrite index_from_app in * by reflexivity.
  destruct (Grammar.split_at_first ";" body) as [[m rest]|] eqn:E.
  - destruct (index_from_some ";" body (0 + Str.Length "data:") _ _ E) as [-> ->].
    rewrite !Length_app, (Length_cons ";" rest).
    pose proof (Length_nonneg m). pose proof (Length_nonneg rest). lia.
  - rewrite (index_from_none _ _ _ E) in Hi. lia.
Qed.

Lemma index_from_app_found c l s k l' r' :
  Grammar.split_at_first c l = Some (l', r') ->
  Str.index_from c (l ++ s) k = k + Str.Length l' /\ Str.Length l' < Str.Length l.
Proof.
  revert k l'. induction l as [|a l IH]; intros k l'; [discriminate|].
  rewrite append_cons. simpl. destruct (Ascii.eqb a c).
  - intros [= <- <-]. rewrite Length_cons. pose proof (Length_nonneg l).
    unfold Str.Length at 1 2. simpl. lia.
  - destruct (Grammar.split_at_first c l) as [[l1 r1]|]; [|discriminate].
    intros [= <- <-]. destruct (IH (k + 1) l1 eq_refl) as [-> H].
    rewrite !Length_cons. lia.
Qed.

(** *** One entry: the loop body against the reference *)

Lemma validate_entry_verdict i u :
  List.map verdict_of (validate_entry i u)
  = if attachment_valid u then [] else [Rejected i].
Proof.
  unfold validate_entry, attachment_valid, Grammar.parse_data_uri.
  destruct (Str.StartsWith "data:" u) eqn:Hs; cbn [negb]; cbv iota.
  2:{ now rewrite (StartsWith_false_strip _ _ Hs). }
  destruct (StartsWith_strip _ _ Hs) as [body Hb]. rewrite Hb.
  apply strip_prefix_app in Hb. subst u.
  assert (Hi : forall c, Grammar.split_at_first c "data:" = None ->
            Str.IndexOf c ("data:" ++ body) = Str.index_from c body 5).
  { intros c Hc. unfold Str.IndexOf. now rewrite index_from_app. }
  destruct (Grammar.split_at_first ";" body) as [[m rest]|] eqn:Esemi.
  2:{ rewrite (Hi ";"%char) by reflexivity. rewrite (index_from_none _ _ _ Esemi).
      reflexivity. }
  destruct (index_from_some ";" body 5 _ _ Esemi) as [Isemi Ebody].
  pose proof (Length_nonneg m) as Hm0.
  destruct (Grammar.split_at_first "," m) as [[l' r']|] eqn:Em.
  { (* a comma before the semicolon *)
    rewrite !Hi by reflexivity. rewrite Isemi. rewrite Ebody.
    destruct (index_from_app_found "," m (String ";" rest) 5 _ _ Em) as [-> Hlt].
    pose proof (Length_nonneg l').
    replace (5 + Str.Length m <? 0)%Z with false by (symmetry; apply Z.ltb_ge; lia).
    replace (5 + Str.Length l' <? 0)%Z with false by (symmetry; apply Z.ltb_ge; lia).
    replace (5 + Str.Length l' <? 5 + Str.Length m)%Z with true
      by (symmetry; apply Z.ltb_lt; lia).
    simpl. destruct (Grammar.split_at_first "," rest) as [[e p]|]; [|reflexivity].
    simpl. destruct (mime_allowed m) eqn:Ha; [|reflexivity].
    apply mime_allowed_no_comma in Ha. congruence. }
  destruct (Grammar.split_at_first "," rest) as [[e p]|] eqn:Ecomma.
  2:{ rewrite !Hi by reflexivity. rewrite Isemi, Ebody.
      rewrite index_from_app by assumption. simpl.
      rewrite (index_from_none _ _ _ Ecomma).
      replace (5 + Str.Length m <? 0)%Z with false by (symmetry; apply Z.ltb_ge; lia).
      reflexivity. }
  destruct (data_uri_indices body m rest e p Esemi Em Ecomma) as (-> & -> & HR & HF).
  pose proof (Length_nonneg e).
  replace (5 + Str.Length m <? 0)%Z with false by (symmetry; apply Z.ltb_ge; lia).
  replace (5 + Str.Length m + 1 + Str.Length e <? 0)%Z with false
    by (symmetry; apply Z.ltb_ge; lia).
  replace (5 + Str.Length m + 1 + Str.Length e <? 5 + Str.Length m)%Z with false
    by (symmetry; apply Z.ltb_ge; lia).
  cbn [orb]. cbv iota. rewrite HR, HF. cbv zeta.
  cbn [Grammar.mime Grammar.payload].
  rewrite mime_allowed_Contains.
  destruct (Contains allowedMimeTypes (Str.ToLowerInvariant m)); [|reflexivity].
  simpl. destruct (FromBase64String p) as [bytes|]; [|reflexivity].
  unfold maxSizeBytes. rewrite Z.gtb_ltb, Z.ltb_antisym.
  now destruct (Z.of_nat (List.length bytes) <=? 5 * 1024 * 1024)%Z.
Qed.

Lemma validate_loop_verdict uris : forall i,
  List.map verdict_of (validate_loop i uris) = rejected_from i uris.
Proof.
  induction uris as [|u rest IH]; intros i; [reflexivity|].
  simpl. rewrite List.map_app, validate_entry_verdict, IH. reflexivity.
Qed.

Lemma validation_verdicts (imageDataUris : option (list string)) :
  List.map verdict_of (ValidateImageDataUris imageDataUris)
  = validateAttachments imageDataUris.
Proof.
  destruct imageDataUris as [uris|]; [|reflexivity].
  unfold ValidateImageDataUris, validateAttachments.
  destruct uris as [|u rest]; [reflexivity|].
  change (List.length (u :: rest) =? 0)%nat with false. cbv iota.
  destruct (5 <? List.length (u :: rest))%nat; [reflexivity|].
  apply validate_loop_verdict.
Qed.

(** C5. [ValidateImageDataUris] against the reference definition: no error
    for a null or an empty list; one aggregated error and nothing else for
    more than five entries; otherwise one error for each entry that fails
    the grammar, the mime check, the base64 decoding or the 5MB limit, in
    order, and none for the others. *)
Theorem ValidateImageDataUris_refines_reference (imageDataUris : option (list string)) :
  List.map verdict_of (ValidateImageDataUris imageDataUris)
  = validateAttachments imageDataUris.
Proof. apply validation_verdicts. Qed.

Lemma rejected_from_app xs : forall i ys,
  rejected_from i (xs ++ ys)%list
  = (rejected_from i xs ++ rejected_from (i + List.length xs) ys)%list.
Proof.
  induction xs as [|x xs IH]; intros i ys.
  - cbn. now rewrite Nat.add_0_r.
  - cbn [rejected_from List.app List.length]. rewrite IH, <- List.app_assoc.
    now rewrite Nat.add_succ_comm.
Qed.

Lemma rejected_from_valid xs : forall i,
  Forall (fun u => attachment_valid u = true) xs -> rejected_from i xs = [].
Proof.
  induction xs as [|x xs IH]; intros i H; [reflexivity|].
  inversion H as [|? ? Hx Hxs]; subst. cbn [rejected_from]. rewrite Hx. now apply IH.
Qed.

(** An attachment that decodes to more than 5MB is flagged, and it alone
    when the others are valid. *)
Lemma oversized_attachment_alone before u after d bytes :
  (List.length (before ++ u :: after)%list <= 5)%nat ->
  Forall (fun x => attachment_valid x = true) before ->
  Forall (fun x => attachment_valid x = true) after ->
  Grammar.parse_data_uri u = Some d ->
  FromBase64String (Grammar.payload d) = Some bytes ->
  5 * 1024 * 1024 < Z.of_nat (List.length bytes) ->
  List.map verdict_of (ValidateImageDataUris (Some (before ++ u :: after)%list))
  = [Rejected (List.length before)].
Proof.
  intros Hlen Hb Ha Hp Hd Hsize.
  rewrite validation_verdicts. unfold validateAttachments.
  replace (5 <? List.length (before ++ u :: after)%list)%nat with false
    by (symmetry; apply Nat.ltb_ge; lia).
  rewrite rejected_from_app, (rejected_from_valid before) by assumption.
  cbn [rejected_from List.app]. rewrite (rejected_from_valid after) by assumption.
  unfold attachment_valid. rewrite Hp, Hd.
  replace (Z.of_nat (List.length bytes) <=? 5 * 1024 * 1024)%Z with false
    by (symmetry; apply Z.leb_gt; lia).
  now rewrite andb_false_r.
Qed.

(** *** BuildUserMessage after validation *)

Lemma validate_entry_passed i u :
  validate_entry i u = [] ->
  Str.StartsWith "data:" u = true /\
  exists imageBytes,
    FromBase64String (Str.RangeFrom u (Str.IndexOf "," u + 1)) = Some imageBytes.
Proof.
  unfold validate_entry.
  destruct (Str.StartsWith "data:" u); cbn [negb]; [|discriminate].
  destruct (_ || _ || _); [discriminate|].
  destruct (negb _); [discriminate|].
  destruct (FromBase64String _) as [bytes|]; [|discriminate].
  eauto.
Qed.

Lemma image_parts_passed uris : forall i,
  validate_loop i uris = [] ->
  exists parts, image_parts uris = inr parts /\ Forall2 inline_part uris parts.
Proof.
  induction uris as [|u rest IH]; intros i H.
  - exists []. split; [reflexivity|constructor].
  - simpl in H. apply List.app_eq_nil in H. destruct H as [Hu Hrest].
    destruct (validate_entry_passed _ _ Hu) as [Hs [bytes Hb]].
    destruct (IH _ Hrest) as [parts [Hp HF]].
    eexists. cbn [image_parts]. rewrite Hs, Hb, Hp. split; [reflexivity|].
    constructor; [|assumption]. split; [assumption|]. eauto.
Qed.

Lemma inline_parts_no_uri uris parts :
  Forall2 inline_part uris parts -> Forall (fun p => is_uri_part p = false) parts.
Proof.
  induction 1 as [|u p uris parts [_ [b [_ ->]]] _ IH]; constructor; auto.
Qed.

(** The parts of a message whose attachments pass validation. *)
Lemma BuildUserMessage_inline_parts (message : string)
    (imageDataUris : option (list string)) :
  ValidateImageDataUris imageDataUris = [] ->
  exists parts,
    BuildUserMessage message imageDataUris
      = inr (UserMessageItem (InputTextPart message :: parts)) /\
    Forall2 inline_part (default [] imageDataUris) parts /\
    Forall (fun p => is_uri_part p = false) parts.
Proof.
  intros Hv. unfold BuildUserMessage. rewrite Hv. simpl.
  assert (Hl : validate_loop 0 (default [] imageDataUris) = []).
  { destruct imageDataUris as [uris|]; [|reflexivity].
    unfold ValidateImageDataUris in Hv. simpl.
    destruct uris as [|u rest]; [reflexivity|].
    change (List.length (u :: rest) =? 0)%nat with false in Hv. cbv iota in Hv.
    destruct (5 <? List.length (u :: rest))%nat; [discriminate|assumption]. }
  destruct (image_parts_passed _ _ Hl) as [parts [-> HF]].
  exists parts. repeat split; [assumption|].
  eapply inline_parts_no_uri; eassumption.
Qed.

(** C10. When the attachments pass validation, [BuildUserMessage] returns
    the text part followed by one part per attachment, each holding the
    bytes decoded from that attachment; every attachment starts with
    [data:], so the branch that builds a part from a remote URI is never
    taken and no such part is in the message. *)
Theorem BuildUserMessage_parts_are_inline (message : string)
    (imageDataUris : option (list string)) :
  ValidateImageDataUris imageDataUris = [] ->
  exists parts,
    BuildUserMessage message imageDataUris
      = inr (UserMessageItem (InputTextPart message :: parts)) /\
    Forall2 inline_part (default [] imageDataUris) parts /\
    Forall (fun p => is_uri_part p = false) parts.
Proof.
  intros Hv. unfold BuildUserMessage. rewrite Hv. simpl.
  assert (Hl : validate_loop 0 (default [] imageDataUris) = []).
  { destruct imageDataUris as [uris|]; [|reflexivity].
    unfold ValidateImageDataUris in Hv. simpl.
    destruct uris as [|u rest]; [reflexivity|].
    change (List.length (u :: rest) =? 0)%nat with false in Hv. cbv iota in Hv.
    destruct (5 <? List.length (u :: rest))%nat; [discriminate|assumption]. }
  destruct (image_parts_passed _ _ Hl) as [parts [-> HF]].
  exists parts. repeat split; [assumption|].
  eapply inline_parts_no_uri; eassumption.
Qed.

(** A message that fails validation is never built. *)
Lemma BuildUserMessage_rejects message imageDataUris :
  ValidateImageDataUris imageDataUris <> [] ->
  BuildUserMessage message imageDataUris
  = inl (ArgumentException
           ("Invalid image attachments: "
            ++ Str.Join ", " (List.map error_message (ValidateImageDataUris imageDataUris)))
           None).
Proof.
  intros H. unfold BuildUserMessage.
  destruct (ValidateImageDataUris imageDataUris); [congruence|reflexivity].
Qed.

(** ** The gateway, one caller at a time *)

Ltac task_unfold :=
  unfold GetAgentAsync, CreateConversationAsync, GetLastRunUsageAsync, open_stream,
    call_GetAgent, call_CreateConversation, call_CreateResponseStreaming,
    try_finally, bind, ret, throw, get_service, update_service,
    ThrowIfDisposed, WaitAsync, Release, with_service, log_call in *;
  cbn [service calls _agentId _latestAgentVersion _agentLock _lastRunUsage _disposed
       set_latestAgentVersion set_agentLock set_lastRunUsage set_disposed fst snd] in *.

Lemma count_streams_app log c :
  count_streams (log ++ [c])
  = (count_streams log + if is_CreateResponseStreaming c then 1 else 0)%nat.
Proof.
  unfold count_streams. rewrite List.filter_app, List.length_app. simpl.
  now destruct (is_CreateResponseStreaming c).
Qed.

(** What a call of [GetAgentAsync] can change: the cache, and the log by at
    most one agent load. A caller that finds a permit is not kept waiting and
    leaves the permit where it found it. *)
Lemma GetAgentAsync_effect w o w' :
  GetAgentAsync w = (o, w') ->
  _lastRunUsage (service w') = _lastRunUsage (service w) /\
  _disposed (service w') = _disposed (service w) /\
  _agentId (service w') = _agentId (service w) /\
  (calls w' = calls w \/
   calls w' = (calls w ++ [Agents_GetAgentAsync (_agentId (service w))])%list) /\
  (o <> Pending -> _agentLock (service w') = _agentLock (service w)) /\
  ((0 < _agentLock (service w))%nat -> o <> Pending) /\
  (forall a, o = Returned a -> _latestAgentVersion (service w') = Some a).
Proof.
  destruct w as [[id cache lock usage disposed] log]. task_unfold.
  destruct disposed; cbn.
  { intros [= <- <-]. cbn. repeat split; auto; try congruence. }
  destruct cache as [a|]; cbn.
  { intros [= <- <-]. cbn. repeat split; auto; congruence. }
  destruct lock as [|n]; cbn.
  { intros [= <- <-]. cbn. repeat split; auto; try congruence; lia. }
  destruct (answer_GetAgent provider log id) as [e|r]; cbn;
    intros [= <- <-]; cbn; repeat split; auto; congruence.
Qed.

Lemma GetAgentAsync_cached w a :
  _disposed (service w) = false ->
  _latestAgentVersion (service w) = Some a ->
  GetAgentAsync w = (Returned a, w).
Proof.
  destruct w as [[id cache lock usage disposed] log]. cbn. intros -> ->.
  reflexivity.
Qed.

(** C4. For a live service with its permit free: a call that returns has
    cached the handle it returns, and from then on every call returns that
    handle and leaves the world as it is, so without a call to the provider;
    a call that fails has made a load, leaves the cache empty and the permit
    free, and the next call asks the provider again and ends as that answer
    says. *)
Theorem GetAgentAsync_caches_success_only (w : World) :
  _disposed (service w) = false ->
  _agentLock (service w) = 1%nat ->
  match GetAgentAsync w with
  | (Returned a, w1) =>
      _latestAgentVersion (service w1) = Some a /\
      GetAgentAsync w1 = (Returned a, w1) /\
      (forall w2, _disposed (service w2) = false ->
                  _latestAgentVersion (service w2) = Some a ->
                  GetAgentAsync w2 = (Returned a, w2))
  | (Threw e, w1) =>
      calls w1 = (calls w ++ [Agents_GetAgentAsync (_agentId (service w))])%list /\
      _latestAgentVersion (service w1) = None /\
      _agentLock (service w1) = 1%nat /\
      calls (snd (GetAgentAsync w1))
        = (calls w1 ++ [Agents_GetAgentAsync (_agentId (service w))])%list /\
      fst (GetAgentAsync w1)
        = match answer_GetAgent provider (calls w1) (_agentId (service w)) with
          | inl e' => Threw e'
          | inr agentRecord => Returned (Versions_Latest agentRecord)
          end
  | (Pending, _) => False
  end.
Proof.
  destruct w as [[id cache lock usage disposed] log]. cbn. intros -> ->.
  task_unfold. cbn.
  destruct cache as [a|]; cbn.
  { repeat split. intros w2 Hd Hc. now apply GetAgentAsync_cached. }
  destruct (answer_GetAgent provider log id) as [e|r] eqn:E; cbn.
  - repeat split.
    + destruct (answer_GetAgent provider (log ++ _) id); reflexivity.
    + destruct (answer_GetAgent provider (log ++ _) id); reflexivity.
  - repeat split. intros w2 Hd Hc. now apply GetAgentAsync_cached.
Qed.

(** *** CreateConversationAsync *)

Lemma substring_first_chars n s : substring 0 n s = first_chars n s.
Proof.
  revert s. induction n as [|n IH]; intros [|a s]; simpl; try reflexivity.
  now rewrite IH.
Qed.

Lemma conversation_title_expected m :
  m <> EmptyString -> expected_title (Some m) = Some (conversation_title m).
Proof.
  intros Hm. unfold expected_title, conversation_title, Str.Length, Str.Range.
  destruct m as [|a m]; [congruence|].
  change (String.length (String a m) =? 0)%nat with false. cbv iota.
  rewrite Z.gtb_ltb.
  destruct (Nat.leb_spec (String.length (String a m)) 50) as [H|H].
  - replace (50 <? _)%Z with false by (symmetry; apply Z.ltb_ge; lia). reflexivity.
  - replace (50 <? _)%Z with true by (symmetry; apply Z.ltb_lt; lia).
    change (Z.to_nat 0) with 0%nat. change (Z.to_nat (50 - 0)) with 50%nat.
    now rewrite substring_first_chars.
Qed.

(** C9. On a live service [CreateConversationAsync] asks the provider for a
    conversation whose metadata holds, under [title]: the first message
    itself when it has between 1 and 50 characters; its first 50 characters
    followed by three dots when it has more; and no title when there is no
    first message or an empty one. *)
Theorem CreateConversationAsync_title (w : World) (firstMessage : option string) :
  _disposed (service w) = false ->
  exists options,
    calls (snd (CreateConversationAsync firstMessage w))
      = (calls w ++ [CreateProjectConversationAsync options])%list /\
    Metadata options !! "title" = expected_title firstMessage.
Proof.
  intros Hd. exists (conversation_options firstMessage). split.
  - task_unfold. rewrite Hd.
    now destruct (answer_CreateConversation provider _ _).
  - destruct firstMessage as [m|]; [|reflexivity].
    destruct m as [|a m]; [reflexivity|].
    rewrite conversation_title_expected by discriminate.
    cbn [conversation_options Str.IsNullOrEmpty negb Metadata].
    apply lookup_insert_eq.
Qed.

(** *** StreamMessageAsync *)

Lemma all_white_blank message : blank message <-> Str.all_white message = true.
Proof.
  unfold blank. induction message as [|a m IH]; simpl.
  - split; [reflexivity|constructor].
  - rewrite andb_true_iff, <- IH. split.
    + intros H. inversion H; subst. auto.
    + intros [H1 H2]. constructor; auto.
Qed.

(** The disposal guard of [StreamMessageAsync] is followed by the one of
    [GetAgentAsync], which decides alike. *)
Lemma open_stream_unfold conversationId message imageDataUris w :
  open_stream conversationId message imageDataUris w =
  match GetAgentAsync w with
  | (Returned agent, w1) =>
      if Str.all_white message
      then (Threw (ArgumentException "Message cannot be null or whitespace" (Some "message")),
            w1)
      else match BuildUserMessage message imageDataUris with
           | inl e => (Threw e, w1)
           | inr userMessage =>
               call_CreateResponseStreaming agent conversationId [userMessage] w1
           end
  | (Threw e, w1) => (Threw e, w1)
  | (Pending, w1) => (Pending, w1)
  end.
Proof.
  unfold open_stream. unfold bind at 1. unfold ThrowIfDisposed at 1.
  destruct (_disposed (service w)) eqn:Hd.
  - unfold GetAgentAsync, bind, ThrowIfDisposed. now rewrite Hd.
  - unfold bind. destruct (GetAgentAsync w) as [[agent|e|] w1]; try reflexivity.
    cbn [Str.IsNullOrWhiteSpace]. destruct (Str.all_white message); [reflexivity|].
    now destruct (BuildUserMessage message imageDataUris).
Qed.

Lemma foreach_update_effect us : forall w,
  fst (foreach_update us w) = deltas_of us /\
  calls (snd (foreach_update us w)) = calls w /\
  _lastRunUsage (service (snd (foreach_update us w)))
    = match captured us with
      | Some usage => Some usage
      | None => _lastRunUsage (service w)
      end /\
  _latestAgentVersion (service (snd (foreach_update us w)))
    = _latestAgentVersion (service w) /\
  _disposed (service (snd (foreach_update us w))) = _disposed (service w).
Proof.
  induction us as [|u rest IH]; intros w; [cbn; auto|].
  cbn [foreach_update captured deltas_of flat_map].
  set (w1 := match u with
             | StreamingResponseCompletedUpdate usage =>
                 with_service (set_lastRunUsage (Some (ExtractUsageInfo usage))) w
             | _ => w
             end).
  specialize (IH w1). destruct (foreach_update rest w1) as [more w2].
  cbn [fst snd] in *. destruct IH as (-> & -> & -> & -> & ->).
  fold (deltas_of rest).
  destruct u as [delta|usage|]; subst w1; cbn; repeat split; try reflexivity.
  now destruct (captured rest).
Qed.

(** C7. A call with an empty or all-whitespace message, made while the
    permit is free, ends with an exception, yields no text delta, and asks
    the provider for no stream. *)
Theorem StreamMessageAsync_rejects_blank_message (w : World)
    (conversationId message : string) (imageDataUris : option (list string)) :
  blank message ->
  (0 < _agentLock (service w))%nat ->
  let '(deltas, ended, w') :=
    StreamMessageAsync conversationId message imageDataUris w in
  deltas = [] /\
  (exists e, ended = Threw e) /\
  count_streams (calls w') = count_streams (calls w).
Proof.
  intros Hb Hl. apply all_white_blank in Hb.
  unfold StreamMessageAsync. rewrite open_stream_unfold, Hb.
  destruct (GetAgentAsync w) as [[agent|e|] w1] eqn:E;
    destruct (GetAgentAsync_effect _ _ _ E) as (_ & _ & _ & Hc & _ & Hp & _).
  - split; [reflexivity|]. split; [eauto|].
    destruct Hc as [->| ->]; [reflexivity|]. rewrite count_streams_app. simpl. lia.
  - split; [reflexivity|]. split; [eauto|].
    destruct Hc as [->| ->]; [reflexivity|]. rewrite count_streams_app. simpl. lia.
  - now destruct (Hp Hl).
Qed.

(** C6, as the code has it. A call whose attachments fail validation yields
    no text delta, does not complete, and asks the provider for no stream;
    the one call it may make to the provider is the agent load, which comes
    before the validation. What it ends with is decided in the order of the
    code: [ObjectDisposedException] on a disposed service; the exception of
    the agent load when that fails; the exception for a blank message when
    the message is blank; and otherwise the exception whose message lists
    every validation error. With the permit free it ends with one of these;
    it waits only where the agent load waits for the permit. *)
Theorem StreamMessageAsync_rejects_invalid_attachments (w : World)
    (conversationId message : string) (imageDataUris : option (list string)) :
  ValidateImageDataUris imageDataUris <> [] ->
  let '(deltas, ended, w') :=
    StreamMessageAsync conversationId message imageDataUris w in
  deltas = [] /\
  succeeded ended = false /\
  count_streams (calls w') = count_streams (calls w) /\
  (calls w' = calls w \/
   calls w' = (calls w ++ [Agents_GetAgentAsync (_agentId (service w))])%list) /\
  (forall agent w1,
     GetAgentAsync w = (Returned agent, w1) ->
     ~ blank message ->
     ended = Threw (ArgumentException
                      ("Invalid image attachments: "
                       ++ Str.Join ", "
                            (List.map error_message (ValidateImageDataUris imageDataUris)))
                      None)) /\
  (forall agent w1,
     GetAgentAsync w = (Returned agent, w1) ->
     blank message ->
     ended = Threw (ArgumentException "Message cannot be null or whitespace"
                      (Some "message"))) /\
  (forall e w1, GetAgentAsync w = (Threw e, w1) -> ended = Threw e) /\
  (_disposed (service w) = true -> ended = Threw ObjectDisposedException) /\
  (forall w1, GetAgentAsync w = (Pending, w1) -> ended = Pending) /\
  ((0 < _agentLock (service w))%nat -> exists e, ended = Threw e).
Proof.
  intros Hv. unfold StreamMessageAsync. rewrite open_stream_unfold.
  rewrite (BuildUserMessage_rejects message _ Hv).
  assert (Hcount : forall w1,
            calls w1 = calls w \/
            calls w1 = (calls w ++ [Agents_GetAgentAsync (_agentId (service w))])%list ->
            count_streams (calls w1) = count_streams (calls w)).
  { intros w1 [->| ->]; [reflexivity|]. rewrite count_streams_app. simpl. lia. }
  assert (Hdisposed : _disposed (service w) = true ->
            GetAgentAsync w = (Threw ObjectDisposedException, w)).
  { intros Hd. destruct w as [[id cache lock usage disposed] log]. cbn in Hd. subst disposed.
    reflexivity. }
  destruct (GetAgentAsync w) as [[agent|e|] w1] eqn:E;
    destruct (GetAgentAsync_effect _ _ _ E) as (_ & _ & _ & Hc & _ & Hp & _).
  - destruct (Str.all_white message) eqn:Hw.
    + repeat split; auto; try discriminate; eauto.
      * intros ? ? _ Hnb. destruct Hnb. now apply all_white_blank.
      * intros Hd. specialize (Hdisposed Hd). discriminate.
    + repeat split; auto; try discriminate; eauto.
      * intros ? ? _ Hb. apply all_white_blank in Hb. congruence.
      * intros Hd. specialize (Hdisposed Hd). discriminate.
  - repeat split; auto; try discriminate; eauto.
    + intros ? ? [= <- <-]. reflexivity.
    + intros Hd. specialize (Hdisposed Hd). congruence.
  - repeat split; auto; try discriminate.
    + intros Hd. specialize (Hdisposed Hd). discriminate.
    + intros Hl. now destruct (Hp Hl).
Qed.

(** C8, as the code has it. A call that gets as far as the provider asks it
    for one stream of its own; the usage it captures goes to the one
    [_lastRunUsage] field of the service, which every call writes: after the
    call the field holds the usage of the last completion update of this
    call's stream, and what it held before the call when the stream brought
    none or was never opened. [GetLastRunUsageAsync] returns the field. *)
Theorem StreamMessageAsync_usage_slot (w : World)
    (conversationId message : string) (imageDataUris : option (list string)) :
  let '(deltas, ended, w') :=
    StreamMessageAsync conversationId message imageDataUris w in
  ((deltas = [] /\
    count_streams (calls w') = count_streams (calls w) /\
    _lastRunUsage (service w') = _lastRunUsage (service w))
   \/
   (exists agent userMessage w1,
      let opened := CreateResponseStreamingAsync agent conversationId [userMessage] in
      let stream :=
        answer_CreateResponseStreaming provider (calls w1) agent conversationId [userMessage] in
      GetAgentAsync w = (Returned agent, w1) /\
      BuildUserMessage message imageDataUris = inr userMessage /\
      calls w' = (calls w1 ++ [opened])%list /\
      count_streams (calls w') = S (count_streams (calls w)) /\
      deltas = deltas_of (updates stream) /\
      _lastRunUsage (service w')
        = match captured (updates stream) with
          | Some usage => Some usage
          | None => _lastRunUsage (service w)
          end))
  /\ (_disposed (service w') = false ->
      GetLastRunUsageAsync w' = (Returned (_lastRunUsage (service w')), w')).
Proof.
  unfold StreamMessageAsync. rewrite open_stream_unfold.
  assert (Hcount : forall w1,
            calls w1 = calls w \/
            calls w1 = (calls w ++ [Agents_GetAgentAsync (_agentId (service w))])%list ->
            count_streams (calls w1) = count_streams (calls w)).
  { intros w1 [->| ->]; [reflexivity|]. rewrite count_streams_app. simpl. lia. }
  assert (Hget : forall w', _disposed (service w') = false ->
            GetLastRunUsageAsync w' = (Returned (_lastRunUsage (service w')), w')).
  { intros w' Hd. unfold GetLastRunUsageAsync, bind, ThrowIfDisposed, get_service, ret.
    now rewrite Hd. }
  destruct (GetAgentAsync w) as [[agent|e|] w1] eqn:E;
    destruct (GetAgentAsync_effect _ _ _ E) as (Hu & _ & _ & Hc & _).
  2,3: split; [left; auto|apply Hget].
  destruct (Str.all_white message); [split; [left; auto|apply Hget]|].
  destruct (BuildUserMessage message imageDataUris) as [e|userMessage] eqn:Eb;
    [split; [left; auto|apply Hget]|].
  unfold call_CreateResponseStreaming.
  set (stream := answer_CreateResponseStreaming provider (calls w1) agent conversationId
                   [userMessage]).
  set (w2 := log_call _ w1).
  pose proof (foreach_update_effect (updates stream) w2) as (Hd & Hcalls & Husage & _).
  destruct (foreach_update (updates stream) w2) as [deltas w3]. cbn [fst snd] in *.
  split; [|apply Hget]. right. exists agent, userMessage, w1. cbv zeta.
  fold stream. subst w2. cbn [log_call calls service] in *.
  rewrite Hcalls, Husage, Hu, Hd. repeat split.
  rewrite count_streams_app. cbn. rewrite (Hcount _ Hc). lia.
Qed.

(** *** The streaming endpoint *)

Lemma count_app p (xs ys : list StreamEvent) :
  count p (xs ++ ys) = (count p xs + count p ys)%nat.
Proof. unfold count. now rewrite List.filter_app, List.length_app. Qed.

Lemma count_chunks p deltas :
  (forall d, p (ChunkEvent d) = false) -> count p (List.map ChunkEvent deltas) = 0%nat.
Proof.
  intros Hp. unfold count. induction deltas as [|d ds IH]; [reflexivity|].
  simpl. now rewrite Hp.
Qed.

Lemma last_snoc {A} (xs : list A) (x d : A) : List.last (xs ++ [x]) d = x.
Proof. apply List.last_last. Qed.

(** ** Concurrent callers *)

Lemma lookup_insert_cases (cs : list Caller) i j c c' x :
  cs !! i = Some c -> <[i := c']> cs !! j = Some x ->
  (j = i /\ x = c') \/ (j <> i /\ cs !! j = Some x).
Proof.
  intros Hi Hj. destruct (decide (j = i)) as [->|Hne].
  - left. split; [reflexivity|].
    rewrite list_lookup_insert_eq in Hj by (eapply lookup_lt_Some; eassumption).
    congruence.
  - right. split; [assumption|]. now rewrite list_lookup_insert_ne in Hj by congruence.
Qed.

Lemma lookup_insert_here (cs : list Caller) i c c' :
  cs !! i = Some c -> <[i := c']> cs !! i = Some c'.
Proof. intros H. apply list_lookup_insert_eq. eapply lookup_lt_Some; eassumption. Qed.

Lemma permit_waiting cs lock i c c' :
  permit_inv cs lock -> cs !! i = Some c ->
  holds_permit c = false -> holds_permit c' = false ->
  permit_inv (<[i := c']> cs) lock.
Proof.
  intros [[Hl Hall]|[Hl (k & ck & Hk & Hck & Hothers)]] Hi Hc Hc'.
  - left. split; [assumption|]. intros j x Hj.
    destruct (lookup_insert_cases _ _ _ _ _ _ Hi Hj) as [[_ ->]|[_ Hj']]; eauto.
  - right. split; [assumption|].
    assert (k <> i) by (intros ->; congruence).
    exists k, ck. split; [now rewrite list_lookup_insert_ne by congruence|].
    split; [assumption|]. intros j x Hj Hjk.
    destruct (lookup_insert_cases _ _ _ _ _ _ Hi Hj) as [[_ ->]|[_ Hj']]; eauto.
Qed.

Lemma permit_acquire cs n i c c' :
  permit_inv cs (S n) -> cs !! i = Some c -> holds_permit c' = true ->
  n = 0%nat /\ permit_inv (<[i := c']> cs) n.
Proof.
  intros [[Hl Hall]|[Hl _]] Hi Hc'; [|discriminate].
  injection Hl as ->. split; [reflexivity|]. right. split; [reflexivity|].
  exists i, c'. split; [eapply lookup_insert_here; eassumption|].
  split; [assumption|]. intros j x Hj Hji.
  rewrite list_lookup_insert_ne in Hj by congruence. eauto.
Qed.

Lemma permit_holder cs lock i c :
  permit_inv cs lock -> cs !! i = Some c -> holds_permit c = true ->
  lock = 0%nat /\ forall j c', cs !! j = Some c' -> j <> i -> holds_permit c' = false.
Proof.
  intros [[Hl Hall]|[Hl (k & ck & Hk & Hck & Hothers)]] Hi Hc.
  - rewrite (Hall _ _ Hi) in Hc. discriminate.
  - split; [assumption|]. destruct (decide (i = k)) as [->|Hne]; [assumption|].
    rewrite (Hothers _ _ Hi Hne) in Hc. discriminate.
Qed.

Lemma permit_keep cs lock i c c' :
  permit_inv cs lock -> cs !! i = Some c ->
  holds_permit c = true -> holds_permit c' = true ->
  permit_inv (<[i := c']> cs) lock.
Proof.
  intros Hp Hi Hc Hc'. destruct (permit_holder _ _ _ _ Hp Hi Hc) as [-> Hothers].
  right. split; [reflexivity|]. exists i, c'.
  split; [eapply lookup_insert_here; eassumption|]. split; [assumption|].
  intros j x Hj Hji. rewrite list_lookup_insert_ne in Hj by congruence. eauto.
Qed.

Lemma permit_release cs lock i c c' :
  permit_inv cs lock -> cs !! i = Some c ->
  holds_permit c = true -> holds_permit c' = false ->
  permit_inv (<[i := c']> cs) (S lock).
Proof.
  intros Hp Hi Hc Hc'. destruct (permit_holder _ _ _ _ Hp Hi Hc) as [-> Hothers].
  left. split; [reflexivity|]. intros j x Hj.
  destruct (lookup_insert_cases _ _ _ _ _ _ Hi Hj) as [[_ ->]|[Hne Hj']]; eauto.
Qed.

(** A caller alone walks through [caller_step] to the outcome of
    [GetAgentAsync]; where [GetAgentAsync] is [Pending] it stays at
    [WaitAsync]. *)
Lemma lone_caller_is_GetAgentAsync (w : World) :
  run [0; 0; 0; 0; 0; 0; 0]%nat {| callers := [AtEntry]; world := w |}
  = match GetAgentAsync w with
    | (Returned a, w') => {| callers := [Finished (inr a)]; world := w' |}
    | (Threw e, w') => {| callers := [Finished (inl e)]; world := w' |}
    | (Pending, w') => {| callers := [AtWait]; world := w' |}
    end.
Proof.
  destruct w as [[id cache lock usage disposed] log]. task_unfold.
  destruct disposed; [reflexivity|].
  destruct cache as [a|]; [reflexivity|].
  destruct lock as [|n]; [reflexivity|].
  cbn. unfold pool_step. cbn.
  destruct (answer_GetAgent provider log id) as [e|r]; reflexivity.
Qed.

Section FirstLoad.

Variable agentId : string.
Variable agentRecord : AgentRecord.

(** The provider answers the first load with [agentRecord]. *)
Hypothesis first_answer : answer_GetAgent provider [] agentId = inr agentRecord.

Abbreviation ok := (caller_ok agentId agentRecord).
Abbreviation inv := (pool_inv agentId agentRecord).
Abbreviation phase := (load_phase agentId agentRecord).

Lemma caller_ok_outside w w' c :
  holds_permit c = false ->
  _latestAgentVersion (service w') = Some (Versions_Latest agentRecord) \/
  _latestAgentVersion (service w') = _latestAgentVersion (service w) ->
  ok w c -> ok w' c.
Proof.
  intros Hc H. destruct c; cbn in *; try discriminate; auto.
  intros [-> Hl]. split; [reflexivity|]. destruct H as [H|H]; congruence.
Qed.

Lemma callers_ok_insert (cs : list Caller) w w' i c c' :
  cs !! i = Some c ->
  (forall j x, cs !! j = Some x -> ok w x) ->
  ok w' c' ->
  (forall j x, cs !! j = Some x -> j <> i -> ok w x -> ok w' x) ->
  forall j x, <[i := c']> cs !! j = Some x -> ok w' x.
Proof.
  intros Hi Hall Hc' Hrest j x Hj.
  destruct (lookup_insert_cases _ _ _ _ _ _ Hi Hj) as [[_ ->]|[Hne Hj']]; eauto.
Qed.

Lemma phase_insert (cs : list Caller) w w' i c c' :
  cs !! i = Some c ->
  (forall answer, c <> AtProviderAnswer answer) ->
  _latestAgentVersion (service w') = _latestAgentVersion (service w) ->
  calls w' = calls w ->
  phase cs w -> phase (<[i := c']> cs) w'.
Proof.
  intros Hi Hc H1 H2 [[Hl Hg]|[(Hl & Hg & j & answer & Hj)|[Hl Hg]]].
  - left. split; congruence.
  - right; left. repeat split; try congruence. exists j, answer.
    rewrite list_lookup_insert_ne; [assumption|]. intros ->.
    rewrite Hi in Hj. injection Hj as ->. now apply (Hc answer).
  - right; right. split; congruence.
Qed.

(** A caller that holds the permit and finds the cache empty is the first
    to ask. *)
Lemma phase_holder_empty (cs : list Caller) w lock i c :
  permit_inv cs lock -> phase cs w -> cs !! i = Some c ->
  holds_permit c = true -> (forall answer, c <> AtProviderAnswer answer) ->
  _latestAgentVersion (service w) = None -> calls w = [].
Proof.
  intros Hp [[_ Hg]|[(_ & _ & j & answer & Hj)|[Hl _]]] Hi Hc Hna Hnone;
    [assumption| |congruence].
  destruct (permit_holder _ _ _ _ Hp Hi Hc) as [_ Hothers].
  destruct (decide (j = i)) as [->|Hne].
  - rewrite Hi in Hj. injection Hj as ->. now destruct (Hna answer).
  - specialize (Hothers _ _ Hj Hne). discriminate.
Qed.

Lemma phase_cached (cs : list Caller) w a :
  phase cs w -> _latestAgentVersion (service w) = Some a ->
  a = Versions_Latest agentRecord.
Proof. intros [[Hl _]|[(Hl & _)|[Hl _]]] H; congruence. Qed.

Lemma initial_inv n : inv (first_time agentId n).
Proof.
  constructor; cbn; auto.
  - left. split; [reflexivity|]. intros j c Hj.
    apply lookup_replicate in Hj as [-> _]. reflexivity.
  - left. auto.
  - intros j c Hj. apply lookup_replicate in Hj as [-> _]. exact I.
Qed.

Lemma pool_step_inv i p p' : inv p -> pool_step i p = Some p' -> inv p'.
Proof.
  intros [Hlive Hid Hpermit Hphase Hcallers]. unfold pool_step.
  destruct (callers p !! i) as [c|] eqn:Hi; [|discriminate].
  pose proof (Hcallers _ _ Hi) as Hc.
  destruct p as [cs [[id cache lock usage disposed] log]].
  cbn in Hlive, Hid, Hpermit, Hphase, Hcallers, Hc, Hi |- *. subst disposed id.
  destruct c as [| | | | |answer|result|result]; cbn in Hc |- *.
  - (* the disposal guard *)
    intros [= <-]. constructor; cbn; auto.
    + eapply permit_waiting; eauto.
    + eapply phase_insert; eauto; discriminate.
    + eapply callers_ok_insert; eauto; exact I.
  - (* the check before the semaphore *)
    intros [= <-]. constructor; cbn; auto.
    + eapply permit_waiting; eauto; now destruct cache.
    + eapply phase_insert; eauto; discriminate.
    + assert (ok {| service := mkService agentId cache lock usage false; calls := log |}
                (match cache with Some cached => Finished (inr cached) | None => AtWait end)).
      { destruct cache as [a|]; cbn; [|exact I].
        rewrite (phase_cached _ _ _ Hphase eq_refl). auto. }
      eapply callers_ok_insert; eauto.
  - (* WaitAsync *)
    destruct lock as [|n]; [discriminate|]. intros [= <-].
    destruct (permit_acquire cs n i AtWait AtLockedCheck Hpermit Hi eq_refl) as [-> Hp'].
    constructor; cbn; auto.
    + eapply phase_insert; eauto; discriminate.
    + eapply callers_ok_insert; eauto; try exact I.
  - (* the check under the semaphore *)
    intros [= <-]. constructor; cbn; auto.
    + eapply permit_keep; eauto; now destruct cache.
    + eapply phase_insert; eauto; discriminate.
    + assert (ok {| service := mkService agentId cache lock usage false; calls := log |}
                (match cache with
                 | Some cached => AtRelease (inr cached)
                 | None => AtProviderCall
                 end)).
      { destruct cache as [a|]; cbn.
        - rewrite (phase_cached _ _ _ Hphase eq_refl). auto.
        - split; [reflexivity|].
          change log with (calls {| service := mkService agentId None lock usage false;
                                    calls := log |}).
          eapply (phase_holder_empty cs _ _ i AtLockedCheck); eauto; discriminate. }
      eapply callers_ok_insert; eauto.
  - (* the call to the provider *)
    intros [= <-]. destruct Hc as [-> ->]. cbn in *.
    destruct (permit_holder _ _ _ _ Hpermit Hi eq_refl) as [-> Hothers].
    constructor; cbn; auto.
    + eapply permit_keep; eauto.
    + right; left. repeat split. eexists i, _.
      eapply lookup_insert_here; eassumption.
    + eapply (callers_ok_insert cs _ _ i AtProviderCall); eauto.
      * cbn. rewrite first_answer. auto.
      * intros j x Hj Hne. apply caller_ok_outside; eauto.
  - (* the answer, and the store *)
    destruct Hc as (-> & -> & ->). intros [= <-]. cbn in *.
    destruct (permit_holder _ _ _ _ Hpermit Hi eq_refl) as [-> Hothers].
    constructor; cbn; auto.
    + eapply permit_keep; eauto.
    + right; right. auto.
    + eapply (callers_ok_insert cs _ _ i (AtProviderAnswer (inr agentRecord))); eauto.
      * cbn. auto.
      * intros j x Hj Hne. apply caller_ok_outside; eauto.
  - (* Release *)
    intros [= <-]. constructor; cbn; auto.
    + eapply permit_release; eauto.
    + eapply phase_insert; eauto; discriminate.
    + eapply callers_ok_insert; eauto.
  - discriminate.
Qed.

Lemma run_inv schedule : forall p, inv p -> inv (run schedule p).
Proof.
  induction schedule as [|i rest IH]; intros p Hp; [assumption|].
  cbn [run]. apply IH. destruct (pool_step i p) as [p'|] eqn:E; [|assumption].
  eapply pool_step_inv; eassumption.
Qed.

(** Every turn that moves a caller brings the pool nearer to its end. *)
Lemma caller_step_remaining c w c' w' :
  caller_step c w = Some (c', w') -> (remaining c' < remaining c)%nat.
Proof.
  destruct c as [| | | | |[e|r]|result|result]; cbn; try discriminate.
  - intros [= <- _]. destruct (_disposed (service w)); cbn; lia.
  - intros [= <- _]. destruct (_latestAgentVersion (service w)); cbn; lia.
  - destruct (_agentLock (service w)); [discriminate|]. intros [= <- _]. cbn. lia.
  - intros [= <- _]. destruct (_latestAgentVersion (service w)); cbn; lia.
  - intros [= <- _]. cbn. lia.
  - intros [= <- _]. cbn. lia.
  - intros [= <- _]. cbn. lia.
  - intros [= <- _]. cbn. lia.
Qed.

Lemma remaining_insert (cs : list Caller) : forall i c c',
  cs !! i = Some c ->
  (list_sum (List.map remaining (<[i := c']> cs)) + remaining c
   = list_sum (List.map remaining cs) + remaining c')%nat.
Proof.
  unfold list_sum.
  induction cs as [|x cs IH]; intros [|i] c c' Hi; try discriminate.
  - injection Hi as ->. cbn. lia.
  - simpl in Hi |- *. specialize (IH i c c' Hi). lia.
Qed.

Lemma pool_step_remaining i p p' :
  pool_step i p = Some p' -> (pool_remaining p' < pool_remaining p)%nat.
Proof.
  unfold pool_step, pool_remaining.
  destruct (callers p !! i) as [c|] eqn:Hi; [|discriminate].
  destruct (caller_step c (world p)) as [[c' w']|] eqn:Hs; [|discriminate].
  intros [= <-]. cbn [callers]. apply caller_step_remaining in Hs.
  pose proof (remaining_insert _ _ _ c' Hi). lia.
Qed.

Lemma holder_can_step c w :
  holds_permit c = true -> exists c' w', caller_step c w = Some (c', w').
Proof.
  destruct c as [| | | | |[e|r]|result|result]; cbn; try discriminate; eauto.
Qed.

Lemma unfinished_caller (cs : list Caller) :
  forallb is_finished cs = false ->
  exists i c, cs !! i = Some c /\ is_finished c = false.
Proof.
  induction cs as [|x cs IH]; [discriminate|]. cbn.
  destruct (is_finished x) eqn:Hx.
  - intros H. destruct (IH H) as (i & c & Hi & Hc). exists (S i), c. auto.
  - intros _. exists 0%nat, x. auto.
Qed.

(** No pool is stuck before every caller has finished. *)
Lemma pool_progress p :
  inv p -> all_finished p = false -> exists i p', pool_step i p = Some p'.
Proof.
  intros Hinv Hf. destruct (unfinished_caller _ Hf) as (i & c & Hi & Hc).
  assert (Hlock : c = AtWait -> _agentLock (service (world p)) = 0%nat ->
            exists i p', pool_step i p = Some p').
  { intros _ Hl. destruct (inv_permit _ _ _ Hinv) as [[H1 _]|[_ (k & ck & Hk & Hck & _)]];
      [congruence|].
    destruct (holder_can_step ck (world p) Hck) as (c' & w' & Hs).
    exists k. unfold pool_step. rewrite Hk, Hs. eauto. }
  destruct (caller_step c (world p)) as [[c' w']|] eqn:Hs.
  - exists i. unfold pool_step. rewrite Hi, Hs. eauto.
  - destruct c as [| | | | |[e|r]|result|result]; cbn in Hs, Hc; try discriminate.
    destruct (_agentLock (service (world p))) eqn:Hl; [|discriminate]. auto.
Qed.

Lemma run_app s1 s2 : forall p, run (s1 ++ s2) p = run s2 (run s1 p).
Proof. induction s1 as [|i s1 IH]; intros p; [reflexivity|]. cbn. apply IH. Qed.

(** From every pool the callers can reach, some schedule finishes them all;
    it needs no more turns than [pool_remaining] counts. *)
Lemma pool_completes k : forall p,
  inv p -> (pool_remaining p <= k)%nat ->
  exists more, (List.length more <= k)%nat /\ all_finished (run more p) = true.
Proof.
  induction k as [|k IH]; intros p Hinv Hk.
  - exists []. split; [reflexivity|]. cbn.
    destruct (all_finished p) eqn:Hf; [reflexivity|].
    destruct (pool_progress p Hinv Hf) as (i & p' & Hs).
    apply pool_step_remaining in Hs. lia.
  - destruct (all_finished p) eqn:Hf.
    + exists []. split; [cbn; lia|assumption].
    + destruct (pool_progress p Hinv Hf) as (i & p' & Hs).
      destruct (IH p') as (more & Hlen & Hdone).
      * eapply pool_step_inv; eassumption.
      * apply pool_step_remaining in Hs. lia.
      * exists (i :: more). split; [cbn; lia|]. cbn. now rewrite Hs.
Qed.

Lemma run_length schedule : forall p,
  List.length (callers (run schedule p)) = List.length (callers p).
Proof.
  induction schedule as [|i rest IH]; intros p; [reflexivity|].
  cbn [run]. rewrite IH. unfold pool_step.
  destruct (callers p !! i) as [c|]; [|reflexivity].
  destruct (caller_step c (world p)) as [[c' w']|]; [|reflexivity].
  cbn. apply length_insert.
Qed.

Lemma all_finished_lookup p i :
  all_finished p = true -> (i < List.length (callers p))%nat ->
  exists result, callers p !! i = Some (Finished result).
Proof.
  unfold all_finished. intros Hf Hi.
  destruct (lookup_lt_is_Some_2 (callers p) i Hi) as [c Hc].
  rewrite forallb_forall in Hf.
  assert (Hin : In c (callers p)).
  { apply list_elem_of_In. eapply list_elem_of_lookup_2. eassumption. }
  specialize (Hf _ Hin). destruct c; try discriminate. eauto.
Qed.

(** C3. [n] callers arrive together at a fresh service whose first load the
    provider answers with [agentRecord]. However their steps interleave:
    at most one load is ever asked of the provider; a caller that has
    finished holds the handle of [agentRecord]; once all have finished
    (and there is at least one), exactly one load has been asked and each of
    the [n] callers holds that same handle; and every interleaving can be
    carried on until all have finished. *)
Theorem GetAgentAsync_single_flight (n : nat) (schedule : list nat) :
  let p := run schedule (first_time agentId n) in
  (count_GetAgent (calls (world p)) <= 1)%nat /\
  (forall i result,
     callers p !! i = Some (Finished result) ->
     result = inr (Versions_Latest agentRecord)) /\
  (all_finished p = true -> (0 < n)%nat ->
   count_GetAgent (calls (world p)) = 1%nat /\
   forall i, (i < n)%nat ->
     callers p !! i = Some (Finished (inr (Versions_Latest agentRecord)))) /\
  (exists more, all_finished (run (schedule ++ more) (first_time agentId n)) = true).
Proof.
  intros p.
  assert (Hinv : inv p) by (apply run_inv, initial_inv).
  assert (Hlen : List.length (callers p) = n).
  { subst p. rewrite run_length. cbn. apply length_replicate. }
  assert (Hfin : forall i result, callers p !! i = Some (Finished result) ->
            result = inr (Versions_Latest agentRecord) /\
            calls (world p) = [Agents_GetAgentAsync agentId]).
  { intros i result Hi. destruct (inv_callers _ _ _ Hinv _ _ Hi) as [-> Hl].
    split; [reflexivity|].
    destruct (inv_phase _ _ _ Hinv) as [[H _]|[(H & _)|[_ H]]]; congruence. }
  repeat split.
  - destruct (inv_phase _ _ _ Hinv) as [[_ ->]|[(_ & -> & _)|[_ ->]]]; cbn; lia.
  - intros i result Hi. now destruct (Hfin _ _ Hi).
  - destruct (all_finished_lookup p 0 H) as [result Hr]; [lia|].
    destruct (Hfin _ _ Hr) as [_ ->]. reflexivity.
  - intros i Hi. destruct (all_finished_lookup p i H) as [result Hr]; [lia|].
    now destruct (Hfin _ _ Hr) as [-> _].
  - destruct (pool_completes (pool_remaining p) p Hinv (Nat.le_refl _))
      as (more & _ & Hdone).
    exists more. now rewrite run_app.
Qed.

End FirstLoad.

(** ** Beyond the load: the other operations of the service *)

Lemma count_GetAgent_snoc log c :
  count_GetAgent (log ++ [c]) = (count_GetAgent log + if is_GetAgent c then 1 else 0)%nat.
Proof.
  unfold count_GetAgent. rewrite List.filter_app, List.length_app. simpl.
  now destruct (is_GetAgent c).
Qed.

Lemma GetAgentAsync_loaded w a :
  _latestAgentVersion (service w) = Some a ->
  GetAgentAsync w
  = (if _disposed (service w) then Threw ObjectDisposedException else Returned a, w).
Proof.
  destruct w as [[id cache lock usage disposed] log]. cbn. intros ->.
  now destruct disposed.
Qed.

Lemma foreach_update_lock us : forall w,
  _agentLock (service (snd (foreach_update us w))) = _agentLock (service w) /\
  _agentId (service (snd (foreach_update us w))) = _agentId (service w).
Proof.
  induction us as [|u rest IH]; intros w; [cbn; auto|].
  cbn [foreach_update].
  set (w1 := match u with
             | StreamingResponseCompletedUpdate usage =>
                 with_service (set_lastRunUsage (Some (ExtractUsageInfo usage))) w
             | _ => w
             end).
  specialize (IH w1). destruct (foreach_update rest w1) as [more w2].
  cbn [snd] in *. destruct IH as [-> ->]. now destruct u.
Qed.

(** What a call of [StreamMessageAsync] leaves behind, by how far it got. *)
Lemma StreamMessageAsync_cases conversationId message imageDataUris w :
  let '(deltas, ended, w') :=
    StreamMessageAsync conversationId message imageDataUris w in
  exists o w1,
    GetAgentAsync w = (o, w1) /\
    ((succeeded o = false /\ deltas = [] /\ ended = ending o /\ w' = w1) \/
     (exists agent, o = Returned agent /\
        ((deltas = [] /\ succeeded ended = false /\ ended <> Pending /\ w' = w1) \/
         (exists userMessage,
            let stream :=
              answer_CreateResponseStreaming provider (calls w1) agent conversationId
                [userMessage] in
            BuildUserMessage message imageDataUris = inr userMessage /\
            ended = match failure stream with
                    | Some e => Threw e
                    | None => Returned tt
                    end /\
            (deltas, w')
            = foreach_update (updates stream)
                (log_call (CreateResponseStreamingAsync agent conversationId [userMessage])
                   w1))))).
Proof.
  unfold StreamMessageAsync. rewrite open_stream_unfold.
  destruct (GetAgentAsync w) as [[agent|e|] w1] eqn:E.
  - destruct (Str.all_white message).
    { exists (Returned agent), w1. split; [reflexivity|]. right. exists agent.
      split; [reflexivity|]. left. repeat split; discriminate. }
    destruct (BuildUserMessage message imageDataUris) as [e|userMessage] eqn:Eb.
    { exists (Returned agent), w1. split; [reflexivity|]. right. exists agent.
      split; [reflexivity|]. left. repeat split; discriminate. }
    unfold call_CreateResponseStreaming.
    destruct (foreach_update _ _) as [deltas w2] eqn:Ef.
    exists (Returned agent), w1. split; [reflexivity|]. right. exists agent.
    split; [reflexivity|]. right. exists userMessage. cbv zeta. auto.
  - exists (Threw e), w1. split; [reflexivity|]. left. auto.
  - exists Pending, w1. split; [reflexivity|]. left. auto.
Qed.

(** What a call of [StreamMessageAsync] adds to the provider traffic. *)
Lemma StreamMessageAsync_traffic (w : World)
    (conversationId message : string) (imageDataUris : option (list string)) :
  let '(deltas, ended, w') :=
    StreamMessageAsync conversationId message imageDataUris w in
  exists loads opens,
    calls w' = (calls w ++ loads ++ opens)%list /\
    (loads = [] \/ loads = [Agents_GetAgentAsync (_agentId (service w))]) /\
    ((opens = [] /\ deltas = [] /\ succeeded ended = false) \/
     (exists agent userMessage,
        opens = [CreateResponseStreamingAsync agent conversationId [userMessage]] /\
        BuildUserMessage message imageDataUris = inr userMessage /\
        _latestAgentVersion (service w') = Some agent)) /\
    _disposed (service w') = _disposed (service w).
Proof.
  pose proof (StreamMessageAsync_cases conversationId message imageDataUris w) as H.
  destruct (StreamMessageAsync conversationId message imageDataUris w)
    as [[deltas ended] w'].
  destruct H as (o & w1 & E & H).
  destruct (GetAgentAsync_effect _ _ _ E) as (_ & Hd & _ & Hc & _ & _ & Ha).
  assert (Hloads : exists loads,
            calls w1 = (calls w ++ loads)%list /\
            (loads = [] \/ loads = [Agents_GetAgentAsync (_agentId (service w))])).
  { destruct Hc as [Hc|Hc]; [exists []|eexists]; split; eauto.
    now rewrite List.app_nil_r. }
  destruct Hloads as (loads & Hl & Hloads).
  destruct H as [(Ho & -> & -> & ->)|(agent & -> & H)].
  - exists loads, []. rewrite List.app_nil_r. repeat split; auto.
    left. repeat split. now destruct o.
  - destruct H as [(-> & Hs & _ & ->)|(userMessage & Hb & -> & Hf)].
    + exists loads, []. rewrite List.app_nil_r. repeat split; auto.
    + pose proof (foreach_update_effect
                    (updates (answer_CreateResponseStreaming provider (calls w1) agent
                                conversationId [userMessage]))
                    (log_call (CreateResponseStreamingAsync agent conversationId
                                 [userMessage]) w1)) as (_ & Hcalls & _ & Hcache & Hdisp).
      rewrite <- Hf in Hcalls, Hcache, Hdisp. cbn [snd log_call calls service] in *.
      exists loads, [CreateResponseStreamingAsync agent conversationId [userMessage]].
      rewrite Hcalls, Hl, Hdisp, Hd, <- List.app_assoc. repeat split; auto.
      right. exists agent, userMessage. repeat split; auto.
      rewrite Hcache. now apply Ha.
Qed.

(** X1. The calls [StreamMessageAsync] makes to the provider: at most one
    agent load, then at most one request for a stream, and nothing else; it
    creates no conversation. When no stream is asked for, nothing is yielded
    and the call does not complete; when one is, the agent it is asked for
    is the cached one. The call never disposes the service. *)
Theorem StreamMessageAsync_provider_calls (w : World)
    (conversationId message : string) (imageDataUris : option (list string)) :
  let '(deltas, ended, w') :=
    StreamMessageAsync conversationId message imageDataUris w in
  exists loads opens,
    calls w' = (calls w ++ loads ++ opens)%list /\
    (loads = [] \/ loads = [Agents_GetAgentAsync (_agentId (service w))]) /\
    ((opens = [] /\ deltas = [] /\ succeeded ended = false) \/
     (exists agent userMessage,
        opens = [CreateResponseStreamingAsync agent conversationId [userMessage]] /\
        BuildUserMessage message imageDataUris = inr userMessage /\
        _latestAgentVersion (service w') = Some agent)) /\
    _disposed (service w') = _disposed (service w).
Proof. exact (StreamMessageAsync_traffic w conversationId message imageDataUris). Qed.

(** *** Dispose *)

Lemma disposed_task_refuses {A} (t : Task A) w :
  _disposed (service w) = true ->
  (do! ThrowIfDisposed in t) w = (Threw ObjectDisposedException, w).
Proof. intros H. unfold bind, ThrowIfDisposed. now rewrite H. Qed.

(** X2. After [Dispose], which may be called again without effect, every
    other operation ends with [ObjectDisposedException] and leaves the
    service, its caches and the provider untouched; a stream yields
    nothing. *)
Theorem disposed_service_refuses (h : Host) (op : Operation) :
  op <> CallDispose ->
  let d := snd (perform CallDispose h) in
  _disposed (service (host_world d)) = true /\
  perform CallDispose d = (Returned tt, d) /\
  perform op d = (Threw ObjectDisposedException, d) /\
  (forall conversationId message imageDataUris,
     StreamMessageAsync conversationId message imageDataUris (host_world d)
     = ([], Threw ObjectDisposedException, host_world d)).
Proof.
  intros Hop. destruct h as [w cache]. cbn [perform snd host_world _cachedMetadata].
  set (d := Dispose w).
  assert (Hd : _disposed (service d) = true).
  { subst d. unfold Dispose. destruct (_disposed (service w)) eqn:E; cbn; auto. }
  assert (Hdd : Dispose d = d) by (unfold Dispose at 1; now rewrite Hd).
  assert (Hs : forall conversationId message imageDataUris,
            StreamMessageAsync conversationId message imageDataUris d
            = ([], Threw ObjectDisposedException, d)).
  { intros. unfold StreamMessageAsync, open_stream.
    now rewrite disposed_task_refuses. }
  split; [assumption|]. split; [now rewrite Hdd|]. split; [|assumption].
  destruct op as [| |firstMessage|conversationId message imageDataUris| |];
    cbn [perform]; unfold on_world; cbn [host_world _cachedMetadata].
  - unfold GetAgentInfoAsync. now rewrite disposed_task_refuses.
  - unfold GetAgentMetadataAsync. cbn [host_world]. now rewrite Hd.
  - unfold CreateConversationAsync. now rewrite disposed_task_refuses.
  - now rewrite Hs.
  - unfold GetLastRunUsageAsync. now rewrite disposed_task_refuses.
  - congruence.
Qed.

(** *** GetAgentMetadataAsync *)

(** X3. [GetAgentMetadataAsync] caches what it returns: a response it has
    returned is returned again by every later call on the live service,
    with no call to the provider and no look at the agent, whatever has
    become of the rest of the state. A call that fails or waits leaves the
    metadata cache as it was, so an earlier failure is not remembered. The
    first response is built from the agent that [GetAgentAsync] hands
    out. *)
Theorem GetAgentMetadataAsync_caches (h : Host) :
  match GetAgentMetadataAsync h with
  | (Returned m, h1) =>
      _cachedMetadata h1 = Some m /\
      (_cachedMetadata h = None ->
       exists agent, fst (GetAgentAsync (host_world h)) = Returned agent /\
                     m = metadata_of agent) /\
      (forall h2, _disposed (service (host_world h2)) = false ->
                  _cachedMetadata h2 = Some m ->
                  GetAgentMetadataAsync h2 = (Returned m, h2))
  | (_, h1) => _cachedMetadata h1 = _cachedMetadata h
  end.
Proof.
  assert (Hcached : forall m h2, _disposed (service (host_world h2)) = false ->
            _cachedMetadata h2 = Some m ->
            GetAgentMetadataAsync h2 = (Returned m, h2)).
  { intros m h2 Hd Hc. unfold GetAgentMetadataAsync. now rewrite Hd, Hc. }
  unfold GetAgentMetadataAsync.
  destruct (_disposed (service (host_world h))); [reflexivity|].
  destruct (_cachedMetadata h) as [m|] eqn:Hc.
  - repeat split; [assumption|discriminate|apply Hcached].
  - destruct (GetAgentAsync (host_world h)) as [[agent|e|] w]; cbn; auto.
    repeat split; [eauto|apply Hcached].
Qed.

(** *** Sequences of operations *)

Lemma perform_keeps_loaded op h a :
  _latestAgentVersion (service (host_world h)) = Some a ->
  _latestAgentVersion (service (host_world (snd (perform op h)))) = Some a /\
  count_GetAgent (calls (host_world (snd (perform op h))))
  = count_GetAgent (calls (host_world h)).
Proof.
  intros Ha. destruct h as [w cache]. cbn [host_world] in Ha.
  destruct op as [| |firstMessage|conversationId message imageDataUris| |];
    cbn [perform]; unfold on_world; cbn [host_world _cachedMetadata snd].
  - destruct w as [[id latest lock usage disposed] log]. cbn in Ha. subst latest.
    destruct disposed; cbn; auto.
  - destruct w as [[id latest lock usage disposed] log]. cbn in Ha. subst latest.
    unfold GetAgentMetadataAsync. destruct disposed, cache; cbn; auto.
  - unfold CreateConversationAsync, bind, ThrowIfDisposed, call_CreateConversation.
    destruct (_disposed (service w)); [cbn; auto|].
    destruct (answer_CreateConversation provider _ _);
      cbn [snd host_world log_call calls service];
      rewrite count_GetAgent_snoc; cbn [is_GetAgent]; split; auto; lia.
  - pose proof (StreamMessageAsync_cases conversationId message imageDataUris w) as H.
    destruct (StreamMessageAsync conversationId message imageDataUris w)
      as [[deltas ended] w']. cbn [snd host_world].
    destruct H as (o & w1 & E & H).
    rewrite (GetAgentAsync_loaded _ _ Ha) in E. injection E as <- <-.
    destruct H as [(_ & _ & _ & ->)|(agent & _ & [(_ & _ & _ & ->)|(um & _ & _ & Hf)])];
      auto.
    pose proof (foreach_update_effect
                  (updates (answer_CreateResponseStreaming provider (calls w) agent
                              conversationId [um]))
                  (log_call (CreateResponseStreamingAsync agent conversationId [um]) w))
      as (_ & Hcalls & _ & Hcache & _).
    rewrite <- Hf in Hcalls, Hcache. cbn [snd log_call calls service] in *.
    rewrite Hcalls, Hcache, count_GetAgent_snoc. cbn. split; [assumption|lia].
  - unfold GetLastRunUsageAsync, bind, ThrowIfDisposed, get_service, ret.
    destruct (_disposed (service w)); cbn; auto.
  - unfold Dispose. destruct (_disposed (service w)); cbn; auto.
Qed.

(** X4. Once the agent is loaded it stays loaded: whatever operations follow,
    in whatever order and however they end, the cached handle is still the
    same and not one more agent load has been asked of the provider. *)
Theorem loaded_agent_is_never_reloaded (ops : list Operation) (h : Host)
    (a : AgentVersion) :
  _latestAgentVersion (service (host_world h)) = Some a ->
  _latestAgentVersion (service (host_world (perform_all ops h))) = Some a /\
  count_GetAgent (calls (host_world (perform_all ops h)))
  = count_GetAgent (calls (host_world h)).
Proof.
  revert h. induction ops as [|op rest IH]; intros h Ha; [auto|].
  cbn [perform_all]. destruct (perform_keeps_loaded op h a Ha) as [Ha' Hc].
  destruct (IH _ Ha') as [H1 H2]. split; [assumption|congruence].
Qed.

Lemma GetAgentInfoAsync_unfold w :
  GetAgentInfoAsync w
  = match GetAgentAsync w with
    | (Returned agent, w1) =>
        (Returned (default "AI Assistant" (AgentVersion_ToString agent)), w1)
    | (Threw e, w1) => (Threw e, w1)
    | (Pending, w1) => (Pending, w1)
    end.
Proof.
  unfold GetAgentInfoAsync. unfold bind at 1. unfold ThrowIfDisposed at 1.
  destruct (_disposed (service w)) eqn:Hd.
  - unfold GetAgentAsync, bind, ThrowIfDisposed. now rewrite Hd.
  - unfold bind, ret. now destruct (GetAgentAsync w) as [[agent|e|] w1].
Qed.

Lemma perform_keeps_permit op h :
  _agentLock (service (host_world h)) = 1%nat ->
  fst (perform op h) <> Pending /\
  _agentLock (service (host_world (snd (perform op h)))) = 1%nat.
Proof.
  intros Hl. destruct h as [w cache]. cbn [host_world] in Hl.
  assert (Hget : forall o w1, GetAgentAsync w = (o, w1) ->
            o <> Pending /\ _agentLock (service w1) = 1%nat).
  { intros o w1 E. destruct (GetAgentAsync_effect _ _ _ E) as (_ & _ & _ & _ & H1 & H2 & _).
    assert (o <> Pending) by (apply H2; lia). split; [assumption|].
    rewrite H1; assumption. }
  destruct op as [| |firstMessage|conversationId message imageDataUris| |];
    cbn [perform]; unfold on_world; cbn [host_world _cachedMetadata].
  - rewrite GetAgentInfoAsync_unfold.
    destruct (GetAgentAsync w) as [o w1] eqn:E. destruct (Hget _ _ eq_refl) as [Ho Hw].
    destruct o; cbn; split; congruence.
  - unfold GetAgentMetadataAsync. cbn [host_world _cachedMetadata].
    destruct (_disposed (service w)); [cbn; split; [discriminate|assumption]|].
    destruct cache; [cbn; split; [discriminate|assumption]|].
    destruct (GetAgentAsync w) as [o w1] eqn:E. destruct (Hget _ _ eq_refl) as [Ho Hw].
    destruct o; cbn; split; congruence.
  - unfold CreateConversationAsync, bind, ThrowIfDisposed, call_CreateConversation.
    destruct (_disposed (service w)); [cbn; split; [discriminate|assumption]|].
    destruct (answer_CreateConversation provider _ _); cbn; split;
      try discriminate; assumption.
  - pose proof (StreamMessageAsync_cases conversationId message imageDataUris w) as H.
    destruct (StreamMessageAsync conversationId message imageDataUris w)
      as [[deltas ended] w']. cbn [fst snd host_world].
    destruct H as (o & w1 & E & H). destruct (Hget _ _ E) as [Ho Hw].
    destruct H as [(_ & _ & -> & ->)|(agent & _ & [(_ & _ & He & ->)|(um & _ & -> & Hf)])].
    + split; [now destruct o|assumption].
    + split; assumption.
    + pose proof (foreach_update_lock
                    (updates (answer_CreateResponseStreaming provider (calls w1) agent
                                conversationId [um]))
                    (log_call (CreateResponseStreamingAsync agent conversationId [um]) w1))
        as [Hlock _].
      rewrite <- Hf in Hlock. cbn [snd log_call service] in Hlock.
      split; [now destruct (failure _)|congruence].
  - unfold GetLastRunUsageAsync, bind, ThrowIfDisposed, get_service, ret.
    destruct (_disposed (service w)); cbn; split; try discriminate; assumption.
  - cbn. split; [discriminate|]. unfold Dispose.
    destruct (_disposed (service w)); cbn; assumption.
Qed.

(** X5. Operations made one after the other never wait for the semaphore:
    starting with the permit free, each operation ends (with a value or an
    exception) and leaves the permit free for the next one, also when the
    agent load inside it fails. *)
Theorem operations_return_the_permit (ops : list Operation) (h : Host) :
  _agentLock (service (host_world h)) = 1%nat ->
  _agentLock (service (host_world (perform_all ops h))) = 1%nat /\
  forall op, fst (perform op (perform_all ops h)) <> Pending.
Proof.
  revert h. induction ops as [|op rest IH]; intros h Hl.
  - split; [assumption|]. intros op. now apply perform_keeps_permit.
  - cbn [perform_all]. apply IH. now apply perform_keeps_permit.
Qed.

(** *** The endpoint and the conversation *)

Lemma count_creates_app l1 l2 :
  count_creates (l1 ++ l2) = (count_creates l1 + count_creates l2)%nat.
Proof. unfold count_creates. now rewrite List.filter_app, List.length_app. Qed.

Lemma StreamMessageAsync_creates_nothing conversationId message imageDataUris w :
  let '(_, _, w') := StreamMessageAsync conversationId message imageDataUris w in
  exists rest, calls w' = (calls w ++ rest)%list /\ count_creates rest = 0%nat.
Proof.
  pose proof (StreamMessageAsync_traffic w conversationId message imageDataUris)
    as H.
  destruct (StreamMessageAsync conversationId message imageDataUris w)
    as [[deltas ended] w'].
  destruct H as (loads & opens & Hc & Hl & Ho & _).
  exists (loads ++ opens)%list. split; [assumption|].
  rewrite count_creates_app.
  destruct Hl as [->| ->];
    destruct Ho as [(-> & _)|(agent & um & -> & _)]; reflexivity.
Qed.

(** X6. A request without a conversation id, on a live service, has its
    conversation created at the provider before anything else: the first
    call the handler makes is [CreateProjectConversationAsync], with the
    title taken from the message, and it makes no second one. This is so
    whatever the message and the attachments are, hence also for a request
    that is then rejected for a blank message or an invalid attachment. *)
Theorem StreamChatMessage_creates_conversation_first (request : ChatRequest) (w : World) :
  ConversationId request = None ->
  _disposed (service w) = false ->
  let '(_, _, w') := StreamChatMessage request w in
  exists rest,
    calls w'
    = (calls w
       ++ CreateProjectConversationAsync (conversation_options (Some (Message request)))
       :: rest)%list /\
    count_creates rest = 0%nat.
Proof.
  intros Hc Hd. unfold StreamChatMessage, conversation_for. rewrite Hc.
  unfold CreateConversationAsync, bind, ThrowIfDisposed, call_CreateConversation.
  rewrite Hd.
  destruct (answer_CreateConversation provider _ _) as [e|conversationId].
  - exists []. split; reflexivity.
  - pose proof (StreamMessageAsync_creates_nothing conversationId (Message request)
                  (ImageDataUris request)
                  (log_call (CreateProjectConversationAsync
                               (conversation_options (Some (Message request)))) w)) as H.
    destruct (StreamMessageAsync _ _ _ _) as [[chunks ended] w2].
    destruct H as (rest & Hr & Hn). exists rest. split; [|assumption].
    rewrite Hr. cbn [log_call calls]. now rewrite <- List.app_assoc.
Qed.

(** X7. A request that brings its conversation id never has a conversation
    created, and the first text written to its response is the frame of
    that id, with the id between the quotes exactly as the client sent it,
    nothing escaped. It is written before the service is asked anything, so
    also when the service is disposed or the request is rejected. *)
Theorem StreamChatMessage_supplied_conversation (request : ChatRequest) (w : World)
    (conversationId : string) :
  ConversationId request = Some conversationId ->
  let '(frames, _, w') := StreamChatMessage request w in
  (exists more,
     frames
     = ("data: {" ++ Str.quote ++ "type" ++ Str.quote ++ ":"
        ++ Str.quote ++ "conversationId" ++ Str.quote ++ ","
        ++ Str.quote ++ "conversationId" ++ Str.quote ++ ":"
        ++ Str.quote ++ conversationId ++ Str.quote ++ "}" ++ Str.LF ++ Str.LF)
       :: more) /\
  count_creates (calls w') = count_creates (calls w).
Proof.
  intros Hc. unfold StreamChatMessage, conversation_for. rewrite Hc. unfold ret.
  pose proof (StreamMessageAsync_creates_nothing conversationId (Message request)
                (ImageDataUris request) w) as H.
  destruct (StreamMessageAsync _ _ _ _) as [[chunks ended] w2].
  destruct H as (rest & -> & Hn). split; [eexists; reflexivity|].
  rewrite count_creates_app. lia.
Qed.

(** *** The encoder against the wire protocol *)

Lemma conversation_for_effect request w o w1 :
  conversation_for request w = (o, w1) ->
  service w1 = service w /\ o <> Pending.
Proof.
  unfold conversation_for. destruct (ConversationId request) as [conversationId|].
  - intros [= <- <-]. split; [reflexivity|discriminate].
  - destruct w as [s log]. task_unfold. destruct (_disposed s); cbn.
    + intros [= <- <-]. split; [reflexivity|discriminate].
    + destruct (answer_CreateConversation provider _ _); cbn;
        intros [= <- <-]; split; try reflexivity; discriminate.
Qed.

Lemma GetAgentAsync_live w a w' :
  GetAgentAsync w = (Returned a, w') -> _disposed (service w') = false.
Proof.
  destruct w as [[id cache lock usage disposed] log]. task_unfold.
  destruct disposed; cbn; [discriminate|].
  destruct cache as [a'|]; cbn; [now intros [= <- <-]|].
  destruct lock as [|n]; cbn; [discriminate|].
  destruct (answer_GetAgent provider log id) as [e|r]; cbn; [discriminate|].
  now intros [= <- <-].
Qed.

(** An iteration that started with the permit free has ended, and one that
    ended without an exception has left a live service. *)
Lemma StreamMessageAsync_ends conversationId message imageDataUris w :
  (0 < _agentLock (service w))%nat ->
  let '(_, ended, w') := StreamMessageAsync conversationId message imageDataUris w in
  ended <> Pending /\ (succeeded ended = true -> _disposed (service w') = false).
Proof.
  intros Hl. unfold StreamMessageAsync. rewrite open_stream_unfold.
  destruct (GetAgentAsync w) as [[agent|e|] w1] eqn:E;
    destruct (GetAgentAsync_effect _ _ _ E) as (_ & _ & _ & _ & _ & Hp & _).
  - pose proof (GetAgentAsync_live _ _ _ E) as Hd.
    destruct (Str.all_white message); [split; [discriminate|discriminate]|].
    destruct (BuildUserMessage message imageDataUris) as [e|userMessage];
      [split; discriminate|].
    unfold call_CreateResponseStreaming.
    set (stream := answer_CreateResponseStreaming provider (calls w1) agent conversationId
                     [userMessage]).
    pose proof (foreach_update_effect (updates stream)
                  (log_call (CreateResponseStreamingAsync agent conversationId
                               [userMessage]) w1)) as (_ & _ & _ & _ & Hdisp).
    destruct (foreach_update _ _) as [deltas w2]. cbn [snd log_call service] in Hdisp.
    split; [now destruct (failure stream)|]. intros _. congruence.
  - split; discriminate.
  - now destruct (Hp Hl).
Qed.

Lemma GetLastRunUsageAsync_live w :
  _disposed (service w) = false ->
  GetLastRunUsageAsync w = (Returned (_lastRunUsage (service w)), w).
Proof.
  intros Hd. unfold GetLastRunUsageAsync, bind, ThrowIfDisposed, get_service, ret.
  now rewrite Hd.
Qed.

Lemma count_one p (e : StreamEvent) : count p [e] = (if p e then 1 else 0)%nat.
Proof. unfold count. cbn. now destruct (p e). Qed.

(** The frames of a stream: the conversation id, a chunk for each delta,
    and an ending. *)
Lemma wire_protocol_stream success conversationId deltas ending :
  (match ending with
   | [DoneEvent] | [UsageEvent _; DoneEvent] => success = true
   | [ErrorEvent _] => success = false
   | _ => False
   end) ->
  count is_conversationId
    (ConversationIdEvent conversationId :: List.map ChunkEvent deltas ++ ending)%list = 1%nat /\
  wire_protocol success
    (ConversationIdEvent conversationId :: List.map ChunkEvent deltas ++ ending)%list = true.
Proof.
  intros H.
  change (ConversationIdEvent conversationId :: List.map ChunkEvent deltas ++ ending)%list
    with ([ConversationIdEvent conversationId] ++ List.map ChunkEvent deltas ++ ending)%list.
  unfold wire_protocol, ends_with_terminal.
  rewrite !count_app, !count_chunks by reflexivity.
  rewrite !List.map_app.
  destruct ending as [|[| |u| |m] [|[| |u'| |m'] [|? ?]]]; try contradiction; subst success;
    cbn [List.map]; rewrite ?List.app_assoc;
    try (change [Some (UsageEvent u); Some DoneEvent]
           with ([Some (UsageEvent u)] ++ [Some DoneEvent])%list;
         rewrite List.app_assoc);
    rewrite last_snoc; split; reflexivity.
Qed.

(** C1. Every stream of the encoder follows the wire protocol. When the
    request has or gets a conversation and the permit is free, the handler
    ends, the conversation id is the first frame and the only one of its
    kind, there is at most one usage frame, and there is exactly one
    terminal frame, the last one: [done] when the iteration of the gateway's
    deltas ended without an exception, [error] when it ended with one. When
    no conversation could be created, no frame is emitted at all. *)
Theorem StreamEncoder_follows_wire_protocol (request : ChatRequest) (w : World) :
  (0 < _agentLock (service w))%nat ->
  let '(frames, ended, _) := StreamEncoder request w in
  match conversation_for request w with
  | (Returned conversationId, w1) =>
      let '(_, iteration, _) :=
        StreamMessageAsync conversationId (Message request) (ImageDataUris request) w1 in
      ended = Returned tt /\
      List.head frames = Some (ConversationIdEvent conversationId) /\
      count is_conversationId frames = 1%nat /\
      wire_protocol (succeeded iteration) frames = true
  | (_, _) => frames = [] /\ succeeded ended = false
  end.
Proof.
  intros Hl. unfold StreamEncoder.
  destruct (conversation_for request w) as [[conversationId|e|] w1] eqn:Ec;
    [|split; reflexivity|split; reflexivity].
  destruct (conversation_for_effect _ _ _ _ Ec) as [Hs _].
  pose proof (StreamMessageAsync_ends conversationId (Message request)
                (ImageDataUris request) w1) as H.
  rewrite Hs in H. specialize (H Hl).
  destruct (StreamMessageAsync _ _ _ w1) as [[deltas iteration] w2].
  destruct H as [Hp Hd]. destruct iteration as [[]|e|]; [| |congruence].
  - rewrite (GetLastRunUsageAsync_live w2 (Hd eq_refl)).
    split; [reflexivity|]. split; [reflexivity|].
    destruct (_lastRunUsage (service w2)) as [usage|]; cbn [app];
      apply wire_protocol_stream; reflexivity.
  - split; [reflexivity|]. split; [reflexivity|]. cbn [app].
    apply wire_protocol_stream; reflexivity.
Qed.

(** C2. An exception raised while the gateway's deltas are iterated, after
    the conversation id has gone out, gives exactly one [error] frame, with
    the user-safe message for that exception: it comes after the chunks of
    the deltas delivered before the exception, it is the last frame, and
    there is no [done] frame. The handler itself ends normally. *)
Theorem StreamEncoder_exception_gives_one_error (request : ChatRequest) (w w1 w2 : World)
    (conversationId : string) (deltas : list string) (e : Exception) :
  conversation_for request w = (Returned conversationId, w1) ->
  StreamMessageAsync conversationId (Message request) (ImageDataUris request) w1
  = (deltas, Threw e, w2) ->
  let '(frames, ended, w') := StreamEncoder request w in
  frames = (ConversationIdEvent conversationId :: List.map ChunkEvent deltas
            ++ [ErrorEvent (user_safe_message e)])%list /\
  count is_error frames = 1%nat /\
  count is_done frames = 0%nat /\
  List.last frames DoneEvent = ErrorEvent (user_safe_message e) /\
  ended = Returned tt /\ w' = w2.
Proof.
  intros Hc Hs. unfold StreamEncoder. rewrite Hc, Hs. cbn [app].
  split; [reflexivity|].
  change (ConversationIdEvent conversationId :: List.map ChunkEvent deltas
          ++ [ErrorEvent (user_safe_message e)])%list
    with ([ConversationIdEvent conversationId] ++ List.map ChunkEvent deltas
          ++ [ErrorEvent (user_safe_message e)])%list.
  rewrite !count_app, !count_chunks by reflexivity.
  rewrite !List.app_assoc, last_snoc. repeat split.
Qed.

(** ** Concurrent callers, whatever the provider answers *)

Lemma sum_insert (f : Caller -> nat) (cs : list Caller) : forall i c c',
  cs !! i = Some c ->
  (list_sum (List.map f (<[i := c']> cs)) + f c
   = list_sum (List.map f cs) + f c')%nat.
Proof.
  unfold list_sum.
  induction cs as [|x cs IH]; intros [|i] c c' Hi; try discriminate.
  - injection Hi as ->. cbn. lia.
  - simpl in Hi |- *. specialize (IH i c c' Hi). lia.
Qed.

Lemma holds_permit_step c w c' w' :
  caller_step c w = Some (c', w') ->
  (holds_permit c = false /\ holds_permit c' = false /\
   _agentLock (service w') = _agentLock (service w)) \/
  (c = AtWait /\ holds_permit c' = true /\
   _agentLock (service w) = S (_agentLock (service w'))) \/
  (holds_permit c = true /\ holds_permit c' = true /\
   _agentLock (service w') = _agentLock (service w)) \/
  (holds_permit c = true /\ holds_permit c' = false /\
   _agentLock (service w') = S (_agentLock (service w))).
Proof.
  destruct c as [| | | | |[e|r]|result|result]; cbn; try discriminate.
  - intros [= <- <-]. left. now destruct (_disposed (service w)).
  - intros [= <- <-]. left. now destruct (_latestAgentVersion (service w)).
  - destruct (_agentLock (service w)) eqn:E; [discriminate|].
    intros [= <- <-]. right; left. cbn. auto.
  - intros [= <- <-]. right; right; left.
    now destruct (_latestAgentVersion (service w)).
  - intros [= <- <-]. right; right; left. auto.
  - intros [= <- <-]. right; right; left. auto.
  - intros [= <- <-]. right; right; left. auto.
  - intros [= <- <-]. right; right; right. auto.
Qed.

Lemma permit_step i p p' :
  permit_inv (callers p) (_agentLock (service (world p))) ->
  pool_step i p = Some p' ->
  permit_inv (callers p') (_agentLock (service (world p'))).
Proof.
  intros Hp. unfold pool_step.
  destruct (callers p !! i) as [c|] eqn:Hi; [|discriminate].
  destruct (caller_step c (world p)) as [[c' w']|] eqn:Hs; [|discriminate].
  intros [= <-]. cbn [callers world].
  destruct (holds_permit_step _ _ _ _ Hs)
    as [(H1 & H2 & ->)|[(-> & H2 & Hl)|[(H1 & H2 & ->)|(H1 & H2 & ->)]]].
  - eapply permit_waiting; eassumption.
  - rewrite Hl in Hp. eapply permit_acquire; eassumption.
  - eapply permit_keep; eassumption.
  - eapply permit_release; eassumption.
Qed.

Lemma permit_run schedule : forall p,
  permit_inv (callers p) (_agentLock (service (world p))) ->
  permit_inv (callers (run schedule p)) (_agentLock (service (world (run schedule p)))).
Proof.
  induction schedule as [|i rest IH]; intros p Hp; [assumption|].
  cbn [run]. apply IH. destruct (pool_step i p) as [p'|] eqn:E; [|assumption].
  eapply permit_step; eassumption.
Qed.

Lemma permit_arrivals w n :
  _agentLock (service w) = 1%nat ->
  permit_inv (callers (arrivals w n)) (_agentLock (service (world (arrivals w n)))).
Proof.
  intros Hl. left. split; [assumption|]. intros j c Hj.
  apply lookup_replicate in Hj as [-> _]. reflexivity.
Qed.

(** X9. Mutual exclusion, whatever the provider answers and whatever state
    the callers find (agent loaded or not, service disposed or not), as long
    as the permit is free when they arrive: at no point of any interleaving
    are two callers between [WaitAsync] and [Release], so no two loads are
    ever in flight; and the semaphore count is 0 exactly while one caller is
    there. *)
Theorem GetAgentAsync_mutual_exclusion (w : World) (n : nat) (schedule : list nat) :
  _agentLock (service w) = 1%nat ->
  let p := run schedule (arrivals w n) in
  (forall i j ci cj,
     callers p !! i = Some ci -> callers p !! j = Some cj ->
     holds_permit ci = true -> holds_permit cj = true -> i = j) /\
  _agentLock (service (world p)) = (if existsb holds_permit (callers p) then 0 else 1)%nat.
Proof.
  intros Hl p.
  pose proof (permit_run schedule _ (permit_arrivals w n Hl)) as Hp. fold p in Hp.
  split.
  - intros i j ci cj Hi Hj Hci Hcj.
    destruct (permit_holder _ _ _ _ Hp Hi Hci) as [_ Hothers].
    destruct (decide (j = i)) as [->|Hne]; [reflexivity|].
    rewrite (Hothers _ _ Hj Hne) in Hcj. discriminate.
  - destruct (existsb holds_permit (callers p)) eqn:E.
    + apply List.existsb_exists in E as (c & Hin & Hc).
      apply list_elem_of_In, list_elem_of_lookup in Hin as [i Hi].
      now destruct (permit_holder _ _ _ _ Hp Hi Hc).
    + destruct Hp as [[Hp _]|[_ (i & c & Hi & Hc & _)]]; [assumption|].
      assert (Hin : In c (callers p)).
      { apply list_elem_of_In. eapply list_elem_of_lookup_2. eassumption. }
      assert (existsb holds_permit (callers p) = true)
        by (apply List.existsb_exists; eauto).
      congruence.
Qed.

Lemma pool_step_fewer_turns i p p' :
  pool_step i p = Some p' -> (pool_remaining p' < pool_remaining p)%nat.
Proof.
  unfold pool_step, pool_remaining.
  destruct (callers p !! i) as [c|] eqn:Hi; [|discriminate].
  destruct (caller_step c (world p)) as [[c' w']|] eqn:Hs; [|discriminate].
  intros [= <-]. cbn [callers].
  assert (remaining c' < remaining c)%nat.
  { destruct c as [| | | | |[e|r]|result|result]; cbn in Hs; try discriminate;
      try (injection Hs as <- _; cbn; lia).
    - injection Hs as <- _. destruct (_disposed (service (world p))); cbn; lia.
    - injection Hs as <- _. destruct (_latestAgentVersion (service (world p))); cbn; lia.
    - destruct (_agentLock (service (world p))); [discriminate|].
      injection Hs as <- _. cbn. lia.
    - injection Hs as <- _. destruct (_latestAgentVersion (service (world p))); cbn; lia. }
  pose proof (sum_insert remaining _ _ _ c' Hi). lia.
Qed.

Lemma run_fewer_turns schedule : forall p,
  (pool_remaining (run schedule p) <= pool_remaining p)%nat.
Proof.
  induction schedule as [|i rest IH]; intros p; [reflexivity|].
  cbn [run]. destruct (pool_step i p) as [p'|] eqn:E; cbn; [|apply IH].
  apply pool_step_fewer_turns in E. specialize (IH p'). lia.
Qed.

Lemma run_concat s1 s2 : forall p, run (s1 ++ s2) p = run s2 (run s1 p).
Proof. induction s1 as [|i s1 IH]; intros p; [reflexivity|]. cbn. apply IH. Qed.

Lemma permit_progress p :
  permit_inv (callers p) (_agentLock (service (world p))) ->
  all_finished p = false -> exists i p', pool_step i p = Some p'.
Proof.
  intros Hp Hf.
  destruct (unfinished_caller _ Hf) as (i & c & Hi & Hc).
  destruct (caller_step c (world p)) as [[c' w']|] eqn:Hs.
  - exists i. unfold pool_step. rewrite Hi, Hs. eauto.
  - destruct c as [| | | | |[e|r]|result|result]; cbn in Hs, Hc; try discriminate.
    destruct (_agentLock (service (world p))) eqn:Hl; [|discriminate].
    destruct Hp as [[H1 _]|[_ (k & ck & Hk & Hck & _)]]; [congruence|].
    exists k. unfold pool_step. rewrite Hk.
    destruct ck as [| | | | |[e|r]|result|result]; cbn in Hck |- *;
      try discriminate; eauto.
Qed.

Lemma permit_completes k : forall p,
  permit_inv (callers p) (_agentLock (service (world p))) ->
  (pool_remaining p <= k)%nat ->
  exists more, (List.length more <= k)%nat /\ all_finished (run more p) = true.
Proof.
  induction k as [|k IH]; intros p Hp Hk.
  - exists []. split; [reflexivity|]. cbn.
    destruct (all_finished p) eqn:Hf; [reflexivity|].
    destruct (permit_progress p Hp Hf) as (i & p' & Hs).
    apply pool_step_fewer_turns in Hs. lia.
  - destruct (all_finished p) eqn:Hf.
    + exists []. split; [cbn; lia|assumption].
    + destruct (permit_progress p Hp Hf) as (i & p' & Hs).
      destruct (IH p') as (more & Hlen & Hdone).
      * eapply permit_step; eassumption.
      * apply pool_step_fewer_turns in Hs. lia.
      * exists (i :: more). split; [cbn; lia|]. cbn. now rewrite Hs.
Qed.

Lemma remaining_arrivals w n : pool_remaining (arrivals w n) = (7 * n)%nat.
Proof.
  unfold pool_remaining, arrivals, list_sum. cbn [callers].
  induction n as [|n IH]; [reflexivity|]. simpl replicate. simpl. lia.
Qed.

(** The loads asked and the loads that may still be asked never add up to
    more than before. *)
Lemma loads_step i p p' :
  pool_step i p = Some p' ->
  (count_GetAgent (calls (world p')) + list_sum (List.map loads_left (callers p'))
   <= count_GetAgent (calls (world p)) + list_sum (List.map loads_left (callers p)))%nat.
Proof.
  unfold pool_step.
  destruct (callers p !! i) as [c|] eqn:Hi; [|discriminate].
  destruct (caller_step c (world p)) as [[c' w']|] eqn:Hs; [|discriminate].
  intros [= <-]. cbn [callers world].
  pose proof (sum_insert loads_left _ _ _ c' Hi) as Hsum.
  assert (count_GetAgent (calls w') + loads_left c'
          <= count_GetAgent (calls (world p)) + loads_left c)%nat.
  { destruct c as [| | | | |[e|r]|result|result]; cbn in Hs; try discriminate;
      try (destruct (_agentLock (service (world p))); [discriminate|]);
      injection Hs as <- <-;
      try destruct (_disposed (service (world p)));
      try destruct (_latestAgentVersion (service (world p)));
      unfold Release, with_service, log_call; cbn [calls loads_left];
      rewrite ?count_GetAgent_snoc; cbn [is_GetAgent]; lia. }
  lia.
Qed.

Lemma loads_run schedule : forall p,
  (count_GetAgent (calls (world (run schedule p)))
   + list_sum (List.map loads_left (callers (run schedule p)))
   <= count_GetAgent (calls (world p)) + list_sum (List.map loads_left (callers p)))%nat.
Proof.
  induction schedule as [|i rest IH]; intros p; [reflexivity|].
  cbn [run]. destruct (pool_step i p) as [p'|] eqn:E; cbn; [|apply IH].
  apply loads_step in E. specialize (IH p'). lia.
Qed.

Lemma loads_left_arrivals w n :
  list_sum (List.map loads_left (callers (arrivals w n))) = n.
Proof.
  unfold arrivals, list_sum. cbn [callers].
  induction n as [|n IH]; [reflexivity|]. simpl replicate. simpl. now rewrite IH.
Qed.

(** X10. Whatever the provider answers, also when loads fail, callers that
    find the permit free all come to an end: every interleaving can be
    carried on, within [7 * n] further turns, until each of the [n] callers
    has returned or thrown; no caller is left waiting for a permit that a
    failed load kept. Each caller asks the provider at most once, so no more
    than [n] loads are made. *)
Theorem GetAgentAsync_callers_all_finish (w : World) (n : nat) (schedule : list nat) :
  _agentLock (service w) = 1%nat ->
  let p := run schedule (arrivals w n) in
  (count_GetAgent (calls (world p)) <= count_GetAgent (calls w) + n)%nat /\
  exists more,
    (List.length more <= 7 * n)%nat /\
    all_finished (run (schedule ++ more) (arrivals w n)) = true.
Proof.
  intros Hl p. split.
  - pose proof (loads_run schedule (arrivals w n)) as H. fold p in H.
    rewrite loads_left_arrivals in H. cbn [arrivals world] in H. lia.
  - pose proof (permit_run schedule _ (permit_arrivals w n Hl)) as Hp. fold p in Hp.
    destruct (permit_completes (7 * n) p Hp) as (more & Hlen & Hdone).
    { pose proof (run_fewer_turns schedule (arrivals w n)) as H. fold p in H.
      now rewrite remaining_arrivals in H. }
    exists more. split; [assumption|]. now rewrite run_concat.
Qed.

Lemma run_under (I : Pool -> Prop) :
  (forall i p p', I p -> pool_step i p = Some p' -> I p') ->
  forall schedule p, I p -> I (run schedule p).
Proof.
  intros Hstep schedule. induction schedule as [|i rest IH]; intros p Hp; [assumption|].
  cbn [run]. apply IH. destruct (pool_step i p) as [p'|] eqn:E; [|assumption].
  eapply Hstep; eassumption.
Qed.

Lemma completes_under (I : Pool -> Prop) :
  (forall i p p', I p -> pool_step i p = Some p' -> I p') ->
  (forall p, I p -> all_finished p = false -> exists i p', pool_step i p = Some p') ->
  forall k p, I p -> (pool_remaining p <= k)%nat ->
  exists more, all_finished (run more p) = true.
Proof.
  intros Hstep Hprogress k. induction k as [|k IH]; intros p Hp Hk.
  - exists []. cbn. destruct (all_finished p) eqn:Hf; [reflexivity|].
    destruct (Hprogress p Hp Hf) as (i & p' & Hs).
    apply pool_step_fewer_turns in Hs. lia.
  - destruct (all_finished p) eqn:Hf; [now exists []|].
    destruct (Hprogress p Hp Hf) as (i & p' & Hs).
    destruct (IH p') as (more & Hdone).
    + eapply Hstep; eassumption.
    + apply pool_step_fewer_turns in Hs. lia.
    + exists (i :: more). cbn. now rewrite Hs.
Qed.

(** X11. The fast path. Callers that find the agent loaded on a live service
    never touch the semaphore and never reach the provider: through every
    interleaving the state of the service and the log stay exactly as they
    were, each caller that has finished holds the cached handle, and all of
    them can finish, also while the permit is held by someone else. *)
Theorem loaded_callers_never_wait (w : World) (a : AgentVersion) (n : nat)
    (schedule : list nat) :
  _disposed (service w) = false ->
  _latestAgentVersion (service w) = Some a ->
  let p := run schedule (arrivals w n) in
  world p = w /\
  (forall i c, callers p !! i = Some c ->
               c = AtEntry \/ c = AtFastCheck \/ c = Finished (inr a)) /\
  exists more, all_finished (run (schedule ++ more) (arrivals w n)) = true.
Proof.
  intros Hd Ha p.
  set (I := fun q : Pool =>
              world q = w /\
              forall i c, callers q !! i = Some c ->
                          c = AtEntry \/ c = AtFastCheck \/ c = Finished (inr a)).
  assert (Hstep : forall i q q', I q -> pool_step i q = Some q' -> I q').
  { intros i q q' [Hw Hc]. unfold pool_step. rewrite Hw.
    destruct (callers q !! i) as [c|] eqn:Hi; [|discriminate].
    destruct (Hc _ _ Hi) as [->|[->| ->]]; cbn [caller_step]; rewrite ?Hd, ?Ha;
      [| |discriminate]; intros [= <-]; (split; [reflexivity|]); cbn [callers];
      intros j x Hj;
      destruct (lookup_insert_cases _ _ _ _ _ _ Hi Hj) as [[_ ->]|[_ Hj']]; eauto. }
  assert (Hprogress : forall q, I q -> all_finished q = false ->
            exists i q', pool_step i q = Some q').
  { intros q [Hw Hc] Hf. destruct (unfinished_caller _ Hf) as (i & c & Hi & Hn).
    exists i. unfold pool_step. rewrite Hi.
    destruct (Hc _ _ Hi) as [->|[->| ->]]; cbn [caller_step]; eauto. discriminate. }
  assert (Hinit : I (arrivals w n)).
  { split; [reflexivity|]. intros i c Hi. apply lookup_replicate in Hi as [-> _]. auto. }
  pose proof (run_under I Hstep schedule _ Hinit) as [Hw Hc]. fold p in Hw, Hc.
  split; [assumption|]. split; [assumption|].
  destruct (completes_under I Hstep Hprogress (pool_remaining p) p) as [more Hdone];
    [split; assumption|reflexivity|].
  exists more. now rewrite run_concat.
Qed.

Lemma finished_loads_left (cs : list Caller) :
  forallb is_finished cs = true -> list_sum (List.map loads_left cs) = 0%nat.
Proof.
  unfold list_sum. induction cs as [|c cs IH]; [reflexivity|]. cbn.
  destruct c; cbn; try discriminate. exact IH.
Qed.

(** X12. A failed load is not shared with the callers that waited for it. On
    a live service with no agent cached and a provider that fails every
    load, each of [n] concurrent callers makes a load of its own, one after
    the other: the cache stays empty, every caller that has finished has
    thrown, and once all have finished exactly [n] loads have been asked. *)
Theorem failed_load_is_retried_by_every_caller (w : World) (n : nat)
    (schedule : list nat) :
  (forall log agentId, exists e, answer_GetAgent provider log agentId = inl e) ->
  _disposed (service w) = false ->
  _latestAgentVersion (service w) = None ->
  let p := run schedule (arrivals w n) in
  _latestAgentVersion (service (world p)) = None /\
  (forall i result, callers p !! i = Some (Finished result) -> failed result = true) /\
  (all_finished p = true ->
   count_GetAgent (calls (world p)) = (count_GetAgent (calls w) + n)%nat).
Proof.
  intros Hfail Hd Ha p.
  set (J := fun q : Pool =>
              _disposed (service (world q)) = false /\
              _latestAgentVersion (service (world q)) = None /\
              (forall i c, callers q !! i = Some c -> failing_ok c) /\
              (count_GetAgent (calls (world q))
               + list_sum (List.map loads_left (callers q))
               = count_GetAgent (calls w) + n)%nat).
  assert (Hstep : forall i q q', J q -> pool_step i q = Some q' -> J q').
  { intros i q q' (Hq1 & Hq2 & Hq3 & Hq4). unfold pool_step.
    destruct (callers q !! i) as [c|] eqn:Hi; [|discriminate].
    pose proof (Hq3 _ _ Hi) as Hc.
    pose proof (fun c' => sum_insert loads_left _ _ _ c' Hi) as Hsum.
    assert (Hrest : forall c', failing_ok c' ->
              forall j x, <[i := c']> (callers q) !! j = Some x -> failing_ok x).
    { intros c' Hc' j x Hj.
      destruct (lookup_insert_cases _ _ _ _ _ _ Hi Hj) as [[_ ->]|[_ Hj']]; eauto. }
    assert (Hclose : forall c' w',
              _disposed (service w') = false ->
              _latestAgentVersion (service w') = None ->
              failing_ok c' ->
              (count_GetAgent (calls w') + loads_left c'
               = count_GetAgent (calls (world q)) + loads_left c)%nat ->
              J {| callers := <[i := c']> (callers q); world := w' |}).
    { intros c' w' H1 H2 H3 H5. specialize (Hsum c'). unfold J. cbn [callers world].
      split; [assumption|]. split; [assumption|]. split; [now apply Hrest|lia]. }
    destruct c as [| | | | |[e|r]|result|result]; cbn [caller_step];
      rewrite ?Hq1, ?Hq2.
    - intros [= <-]. apply Hclose; cbn; auto.
    - intros [= <-]. apply Hclose; cbn; auto.
    - destruct (_agentLock (service (world q))); [discriminate|].
      intros [= <-]. apply Hclose; cbn; auto.
    - intros [= <-]. apply Hclose; cbn; auto.
    - intros [= <-]. apply Hclose; cbn [log_call service calls loads_left failing_ok];
        auto.
      rewrite count_GetAgent_snoc. cbn. lia.
    - intros [= <-]. apply Hclose; cbn; auto.
    - destruct Hc as [e [=]].
    - intros [= <-]. apply Hclose; cbn; auto.
    - discriminate. }
  assert (Hinit : J (arrivals w n)).
  { repeat split; try assumption.
    - intros i c Hi. apply lookup_replicate in Hi as [-> _]. exact I.
    - now rewrite loads_left_arrivals. }
  pose proof (run_under J Hstep schedule _ Hinit) as (_ & H2 & H3 & H4).
  fold p in H2, H3, H4.
  split; [assumption|]. split.
  - intros i result Hi. exact (H3 _ _ Hi).
  - intros Hf. rewrite (finished_loads_left _ Hf) in H4. lia.
Qed.

(** *** What validation lets through *)

Lemma split_at_first_app c m r :
  EnvFile.has_char c m = false -> Grammar.split_at_first c (m ++ String c r) = Some (m, r).
Proof.
  induction m as [|a m IH].
  - intros _. change (EmptyString ++ String c r) with (String c r). cbn.
    now rewrite Ascii.eqb_refl.
  - cbn [EnvFile.has_char]. destruct (Ascii.eqb a c) eqn:E; [discriminate|]. cbn [orb].
    intros H. change (String a m ++ String c r) with (String a (m ++ String c r)).
    cbn [Grammar.split_at_first]. now rewrite E, (IH H).
Qed.

(** X13. What an attachment needs to pass: after [data:], a mime type that is
    one of the five allowed ones whatever its letter case, a [;], any text
    without a comma where the encoding is named, a [,], and a payload that
    decodes to at most 5MB. The name of the encoding is never looked at: an
    entry that does not say [base64] passes all the same and its payload is
    decoded as base64. *)
Theorem attachment_passes_whatever_the_encoding_says (i : nat)
    (mediaType label base64Data : string) (imageBytes : list Byte.byte) :
  Contains allowedMimeTypes (Str.ToLowerInvariant mediaType) = true ->
  EnvFile.has_char "," label = false ->
  FromBase64String base64Data = Some imageBytes ->
  Z.of_nat (List.length imageBytes) <= 5 * 1024 * 1024 ->
  validate_entry i ("data:" ++ mediaType ++ ";" ++ label ++ "," ++ base64Data) = [].
Proof.
  intros Hm Hl Hd Hsize.
  assert (Hsemi : EnvFile.has_char ";" mediaType = false).
  { clear - Hm. unfold Contains, allowedMimeTypes in Hm. cbn in Hm.
    assert (Hlow : forall a, Ascii.eqb (Str.lower_char a) ";" = Ascii.eqb a ";")
      by (intros a; destruct a as [[] [] [] [] [] [] [] []]; reflexivity).
    assert (H : EnvFile.has_char ";" (Str.ToLowerInvariant mediaType) = false).
    { repeat (apply orb_prop in Hm; destruct Hm as [Hm|Hm];
              [apply String.eqb_eq in Hm; rewrite Hm; reflexivity|]).
      discriminate. }
    revert H. clear Hm. induction mediaType as [|a m IH]; [reflexivity|].
    cbn. rewrite Hlow. destruct (Ascii.eqb a ";"); [discriminate|]. exact IH. }
  pose proof (validate_entry_verdict i
                ("data:" ++ mediaType ++ ";" ++ label ++ "," ++ base64Data)) as Hv.
  assert (Hok : attachment_valid
                  ("data:" ++ mediaType ++ ";" ++ label ++ "," ++ base64Data) = true).
  { unfold attachment_valid, Grammar.parse_data_uri.
    change (Grammar.strip_prefix "data:"
              ("data:" ++ mediaType ++ ";" ++ label ++ "," ++ base64Data))
      with (Some (mediaType ++ ";" ++ label ++ "," ++ base64Data)).
    cbv beta iota.
    change (mediaType ++ ";" ++ label ++ "," ++ base64Data)
      with (mediaType ++ String ";" (label ++ String "," base64Data)).
    rewrite (split_at_first_app _ _ _ Hsemi), (split_at_first_app _ _ _ Hl).
    cbn [Grammar.mime Grammar.payload]. rewrite mime_allowed_Contains, Hm, Hd.
    cbn [andb]. apply Z.leb_le. assumption. }
  rewrite Hok in Hv. now destruct (validate_entry i _).
Qed.

(** X14. [BuildUserMessage] fails in one way only: with the
    [ArgumentException] that lists the validation errors, exactly when there
    are some. The decoding it does itself never throws, and no attachment is
    handed on as a URI, because validation has decoded the same payloads
    before. *)
Theorem BuildUserMessage_fails_only_on_validation (message : string)
    (imageDataUris : option (list string)) :
  match BuildUserMessage message imageDataUris with
  | inl e =>
      ValidateImageDataUris imageDataUris <> [] /\
      e = ArgumentException
            ("Invalid image attachments: "
             ++ Str.Join ", "
                  (List.map error_message (ValidateImageDataUris imageDataUris)))
            None
  | inr userMessage =>
      ValidateImageDataUris imageDataUris = [] /\
      exists parts,
        userMessage = UserMessageItem (InputTextPart message :: parts) /\
        List.length parts = List.length (default [] imageDataUris) /\
        Forall (fun p => is_uri_part p = false) parts
  end.
Proof.
  destruct (ValidateImageDataUris imageDataUris) as [|e errors] eqn:Hv.
  - destruct (BuildUserMessage_inline_parts message imageDataUris Hv)
      as (parts & -> & H2 & Hn).
    split; [reflexivity|]. exists parts. repeat split; [|assumption].
    symmetry. eapply Forall2_length. eassumption.
  - rewrite BuildUserMessage_rejects by (rewrite Hv; discriminate).
    rewrite Hv. split; [discriminate|reflexivity].
Qed.

End Gateway.

(** ** The model at work *)

Example StartsWith_data : Str.StartsWith "data:" Sample.png = true.
Proof. reflexivity. Qed.

Example IndexOf_semicolon : Str.IndexOf ";" Sample.png = 14.
Proof. reflexivity. Qed.

Example Range_media_type : Str.Range Sample.png 5 14 = "image/png".
Proof. reflexivity. Qed.

Example Join_three : Str.Join ", " ["a"; "b"; "c"] = "a, b, c".
Proof. reflexivity. Qed.

Example six_attachments :
  ValidateImageDataUris Sample.FromBase64String
    (Some [Sample.png; "x"; Sample.png; "y"; Sample.png; Sample.png])
  = [TooManyImages 6].
Proof. reflexivity. Qed.

Example mixed_attachments :
  List.map (error_message Sample.FormatF1)
    (ValidateImageDataUris Sample.FromBase64String
       (Some [Sample.png; "x"; "data:IMAGE/PNG;foo,AA=="; "data:image/bmp;base64,AAAA";
              "data:image/png;base64,A"]))
  = ["Image 2: Invalid data URI format (must start with 'data:')";
     "Image 4: Unsupported MIME type 'image/bmp' (allowed: PNG, JPEG, GIF, WebP)";
     "Image 5: Invalid base64 encoding"].
Proof. reflexivity. Qed.

Example stream_of_two_deltas :
  let request := {| Message := "hi"; ConversationId := Some "conv_7"; ImageDataUris := None |} in
  fst (fst (StreamEncoder Sample.FromBase64String Sample.FormatF1 Sample.steady
              Sample.user_safe_message request Sample.loaded))
  = [ConversationIdEvent "conv_7"; ChunkEvent "Hel"; ChunkEvent "lo";
     UsageEvent {| PromptTokens := 1; CompletionTokens := 2; TotalTokens := 3 |};
     DoneEvent].
Proof. reflexivity. Qed.

Example pattern_of_two_deltas :
  let request := {| Message := "hi"; ConversationId := Some "conv_7"; ImageDataUris := None |} in
  fst (fst (StreamChatMessage Sample.FromBase64String Sample.FormatF1 Sample.steady
              Sample.Serialize_chunk request Sample.loaded))
  = [conversationId_frame "conv_7";
     chunk_frame Sample.Serialize_chunk "Hel"; chunk_frame Sample.Serialize_chunk "lo";
     done_frame].
Proof. reflexivity. Qed.

Example three_callers_one_load :
  let p := run Sample.steady [0; 1; 2; 0; 1; 2; 0; 1; 2; 0; 0; 0; 0; 1; 1; 1; 2; 2; 2; 2]%nat
             (first_time "asst_1" 3) in
  callers p = [Finished (inr Sample.agent); Finished (inr Sample.agent);
               Finished (inr Sample.agent)] /\
  calls (world p) = [Agents_GetAgentAsync "asst_1"].
Proof. split; reflexivity. Qed.

(** ** Witnesses and counterexamples *)

Lemma StreamEncoder_follows_wire_protocol_witness :
  let request :=
    {| Message := "hi"; ConversationId := None; ImageDataUris := Some [Sample.png] |} in
  (0 < _agentLock (service Sample.fresh))%nat /\
  let '(frames, ended, _) :=
    StreamEncoder Sample.FromBase64String Sample.FormatF1 Sample.steady
      Sample.user_safe_message request Sample.fresh in
  match conversation_for Sample.steady request Sample.fresh with
  | (Returned conversationId, w1) =>
      let '(_, iteration, _) :=
        StreamMessageAsync Sample.FromBase64String Sample.FormatF1 Sample.steady
          conversationId (Message request) (ImageDataUris request) w1 in
      ended = Returned tt /\
      List.head frames = Some (ConversationIdEvent conversationId) /\
      count is_conversationId frames = 1%nat /\
      wire_protocol (succeeded iteration) frames = true
  | (_, _) => frames = [] /\ succeeded ended = false
  end.
Proof.
  intros request.
  assert (Hl : (0 < _agentLock (service Sample.fresh))%nat) by (cbn; lia).
  split; [exact Hl|].
  exact (StreamEncoder_follows_wire_protocol Sample.FromBase64String Sample.FormatF1
           Sample.steady Sample.user_safe_message request Sample.fresh Hl).
Defined.

Lemma StreamEncoder_exception_gives_one_error_witness :
  let request :=
    {| Message := "Hello there"; ConversationId := Some "conv_fail";
       ImageDataUris := Some [Sample.png] |} in
  let e := RequestFailedException "connection reset" in
  let w2 :=
    snd (StreamMessageAsync Sample.FromBase64String Sample.FormatF1 Sample.steady
           "conv_fail" (Message request) (ImageDataUris request) Sample.loaded) in
  conversation_for Sample.steady request Sample.loaded = (Returned "conv_fail", Sample.loaded) /\
  StreamMessageAsync Sample.FromBase64String Sample.FormatF1 Sample.steady
    "conv_fail" (Message request) (ImageDataUris request) Sample.loaded
  = (["Hel"], Threw e, w2) /\
  let '(frames, ended, w') :=
    StreamEncoder Sample.FromBase64String Sample.FormatF1 Sample.steady
      Sample.user_safe_message request Sample.loaded in
  frames = (ConversationIdEvent "conv_fail" :: List.map ChunkEvent ["Hel"]
            ++ [ErrorEvent (Sample.user_safe_message e)])%list /\
  count is_error frames = 1%nat /\
  count is_done frames = 0%nat /\
  List.last frames DoneEvent = ErrorEvent (Sample.user_safe_message e) /\
  ended = Returned tt /\ w' = w2.
Proof.
  intros request e w2. split; [reflexivity|]. split; [reflexivity|].
  exact (StreamEncoder_exception_gives_one_error Sample.FromBase64String Sample.FormatF1
           Sample.steady Sample.user_safe_message request Sample.loaded Sample.loaded w2
           "conv_fail" ["Hel"] e eq_refl eq_refl).
Defined.

Lemma GetAgentAsync_single_flight_witness :
  answer_GetAgent Sample.steady [] "asst_1" = inr {| Versions_Latest := Sample.agent |} /\
  let schedule := [2; 0; 1; 1; 0; 2; 2; 2; 1; 0]%nat in
  let p := run Sample.steady schedule (first_time "asst_1" 3) in
  (count_GetAgent (calls (world p)) <= 1)%nat /\
  (forall i result,
     callers p !! i = Some (Finished result) -> result = inr Sample.agent) /\
  (all_finished p = true -> (0 < 3)%nat ->
   count_GetAgent (calls (world p)) = 1%nat /\
   forall i, (i < 3)%nat -> callers p !! i = Some (Finished (inr Sample.agent))) /\
  (exists more,
     all_finished (run Sample.steady (schedule ++ more) (first_time "asst_1" 3)) = true).
Proof.
  split; [reflexivity|].
  exact (GetAgentAsync_single_flight Sample.steady "asst_1"
           {| Versions_Latest := Sample.agent |} eq_refl 3
           [2; 0; 1; 1; 0; 2; 2; 2; 1; 0]%nat).
Defined.

Lemma GetAgentAsync_caches_success_only_witness :
  _disposed (service Sample.fresh) = false /\
  _agentLock (service Sample.fresh) = 1%nat /\
  let w1 := snd (GetAgentAsync Sample.flaky Sample.fresh) in
  calls w1 = [Agents_GetAgentAsync "asst_1"] /\
  _latestAgentVersion (service w1) = None /\
  _agentLock (service w1) = 1%nat /\
  calls (snd (GetAgentAsync Sample.flaky w1))
    = [Agents_GetAgentAsync "asst_1"; Agents_GetAgentAsync "asst_1"] /\
  fst (GetAgentAsync Sample.flaky w1) = Returned Sample.agent.
Proof.
  split; [reflexivity|]. split; [reflexivity|].
  exact (GetAgentAsync_caches_success_only Sample.flaky Sample.fresh eq_refl eq_refl).
Defined.

Lemma StreamMessageAsync_rejects_blank_message_witness :
  blank "  " /\
  (0 < _agentLock (service Sample.fresh))%nat /\
  let '(deltas, ended, w') :=
    StreamMessageAsync Sample.FromBase64String Sample.FormatF1 Sample.steady
      "conv_1" "  " (Some [Sample.png]) Sample.fresh in
  deltas = [] /\
  (exists e, ended = Threw e) /\
  count_streams (calls w') = count_streams (calls Sample.fresh).
Proof.
  assert (Hb : blank "  ") by (repeat constructor).
  split; [exact Hb|]. split; [cbn; lia|].
  apply (StreamMessageAsync_rejects_blank_message Sample.FromBase64String Sample.FormatF1
           Sample.steady Sample.fresh "conv_1" "  " (Some [Sample.png]) Hb).
  cbn. lia.
Defined.

Lemma StreamMessageAsync_rejects_invalid_attachments_witness :
  ValidateImageDataUris Sample.FromBase64String (Some [Sample.png; "x"]) <> [] /\
  let '(deltas, ended, w') :=
    StreamMessageAsync Sample.FromBase64String Sample.FormatF1 Sample.steady
      "conv_1" "hi" (Some [Sample.png; "x"]) Sample.loaded in
  deltas = [] /\
  succeeded ended = false /\
  count_streams (calls w') = count_streams (calls Sample.loaded) /\
  (calls w' = calls Sample.loaded \/
   calls w' = (calls Sample.loaded ++ [Agents_GetAgentAsync "asst_1"])%list) /\
  (forall agent w1,
     GetAgentAsync Sample.steady Sample.loaded = (Returned agent, w1) ->
     ~ blank "hi" ->
     ended = Threw (ArgumentException
                      "Invalid image attachments: Image 2: Invalid data URI format (must start with 'data:')"
                      None)) /\
  (forall agent w1,
     GetAgentAsync Sample.steady Sample.loaded = (Returned agent, w1) ->
     blank "hi" ->
     ended = Threw (ArgumentException "Message cannot be null or whitespace"
                      (Some "message"))) /\
  (forall e w1,
     GetAgentAsync Sample.steady Sample.loaded = (Threw e, w1) -> ended = Threw e) /\
  (_disposed (service Sample.loaded) = true -> ended = Threw ObjectDisposedException) /\
  (forall w1, GetAgentAsync Sample.steady Sample.loaded = (Pending, w1) -> ended = Pending) /\
  ((0 < _agentLock (service Sample.loaded))%nat -> exists e, ended = Threw e).
Proof.
  assert (Hv : ValidateImageDataUris Sample.FromBase64String (Some [Sample.png; "x"]) <> [])
    by discriminate.
  split; [exact Hv|].
  exact (StreamMessageAsync_rejects_invalid_attachments Sample.FromBase64String
           Sample.FormatF1 Sample.steady Sample.loaded "conv_1" "hi"
           (Some [Sample.png; "x"]) Hv).
Defined.

(** C6, as the specification has it, fails in both its parts. On a service
    whose agent is not loaded yet, the agent load has reached the provider
    before the call is rejected. And the exception is not always the one
    that lists the validation errors: with the agent at hand and a blank
    message it is the one for the blank message, on a disposed service it is
    [ObjectDisposedException], and when the agent load fails it is the
    load's. The attachments are invalid in all four calls. *)
Lemma StreamMessageAsync_rejection_differs_from_specification :
  let invalid := Some ["x"] in
  let stream provider message w :=
    StreamMessageAsync Sample.FromBase64String Sample.FormatF1 provider
      "conv_1" message invalid w in
  let claimed provider message w :=
    rejected_before_any_provider_call Sample.FromBase64String Sample.FormatF1
      provider "conv_1" message invalid w in
  ValidateImageDataUris Sample.FromBase64String invalid <> [] /\
  (calls (snd (stream Sample.steady "hi" Sample.fresh)) = [Agents_GetAgentAsync "asst_1"] /\
   ~ claimed Sample.steady "hi" Sample.fresh) /\
  (snd (fst (stream Sample.steady "  " Sample.loaded))
   = Threw (ArgumentException "Message cannot be null or whitespace" (Some "message")) /\
   ~ claimed Sample.steady "  " Sample.loaded) /\
  (snd (fst (stream Sample.steady "hi" (Dispose Sample.loaded)))
   = Threw ObjectDisposedException /\
   ~ claimed Sample.steady "hi" (Dispose Sample.loaded)) /\
  (snd (fst (stream Sample.flaky "hi" Sample.fresh))
   = Threw (RequestFailedException "503") /\
   ~ claimed Sample.flaky "hi" Sample.fresh).
Proof.
  cbv zeta. unfold rejected_before_any_provider_call.
  split; [discriminate|].
  split; [split; [reflexivity|vm_compute; intros (_ & H & _); discriminate]|].
  split; [split; [reflexivity|vm_compute; intros (H & _); discriminate]|].
  split; [split; [reflexivity|vm_compute; intros (H & _); discriminate]|].
  split; [reflexivity|vm_compute; intros (H & _); discriminate].
Qed.

Lemma StreamMessageAsync_usage_slot_witness :
  let w := Sample.loaded in
  let '(deltas, ended, w') :=
    StreamMessageAsync Sample.FromBase64String Sample.FormatF1 Sample.steady
      "conv_2" "again" None w in
  ((deltas = [] /\
    count_streams (calls w') = count_streams (calls w) /\
    _lastRunUsage (service w') = _lastRunUsage (service w))
   \/
   (exists agent userMessage w1,
      let opened := CreateResponseStreamingAsync agent "conv_2" [userMessage] in
      let stream :=
        answer_CreateResponseStreaming Sample.steady (calls w1) agent "conv_2"
          [userMessage] in
      GetAgentAsync Sample.steady w = (Returned agent, w1) /\
      BuildUserMessage Sample.FromBase64String Sample.FormatF1 "again" None
        = inr userMessage /\
      calls w' = (calls w1 ++ [opened])%list /\
      count_streams (calls w') = S (count_streams (calls w)) /\
      deltas = deltas_of (updates stream) /\
      _lastRunUsage (service w')
        = match captured (updates stream) with
          | Some usage => Some usage
          | None => _lastRunUsage (service w)
          end))
  /\ (_disposed (service w') = false ->
      GetLastRunUsageAsync w' = (Returned (_lastRunUsage (service w')), w')).
Proof.
  exact (StreamMessageAsync_usage_slot Sample.FromBase64String Sample.FormatF1
           Sample.steady Sample.loaded "conv_2" "again" None).
Defined.

(** C8, as the specification has it, fails for two calls one after the
    other: both streams complete, and the accessor, which returned the usage
    of the first stream after the first call, returns that of the second
    after the second. *)
Lemma second_call_overwrites_usage :
  let first :=
    StreamMessageAsync Sample.FromBase64String Sample.FormatF1 Sample.steady
      "conv_1" "hi" None in
  let second :=
    StreamMessageAsync Sample.FromBase64String Sample.FormatF1 Sample.steady
      "conv_2" "again" None in
  snd (fst (first Sample.fresh)) = Returned tt /\
  snd (fst (second (snd (first Sample.fresh)))) = Returned tt /\
  fst (GetLastRunUsageAsync (snd (first Sample.fresh)))
    = Returned (Some (ExtractUsageInfo (Sample.usage 1))) /\
  fst (GetLastRunUsageAsync (snd (second (snd (first Sample.fresh)))))
    = Returned (Some (ExtractUsageInfo (Sample.usage 2))) /\
  ~ usage_unaltered_by first second Sample.fresh.
Proof.
  cbv zeta. repeat split; try reflexivity.
  unfold usage_unaltered_by. vm_compute. discriminate.
Qed.

Lemma CreateConversationAsync_title_witness :
  _disposed (service Sample.fresh) = false /\
  exists options,
    calls (snd (CreateConversationAsync Sample.steady
                  (Some "Please summarise the attached quarterly report for the board meeting")
                  Sample.fresh))
      = [CreateProjectConversationAsync options] /\
    Metadata options !! "title"
      = Some "Please summarise the attached quarterly report for...".
Proof.
  split; [reflexivity|].
  exact (CreateConversationAsync_title Sample.steady Sample.fresh
           (Some "Please summarise the attached quarterly report for the board meeting")
           eq_refl).
Defined.

Lemma BuildUserMessage_parts_are_inline_witness :
  ValidateImageDataUris Sample.FromBase64String (Some [Sample.png]) = [] /\
  exists parts,
    BuildUserMessage Sample.FromBase64String Sample.FormatF1 "hi" (Some [Sample.png])
      = inr (UserMessageItem (InputTextPart "hi" :: parts)) /\
    Forall2 (inline_part Sample.FromBase64String) [Sample.png] parts /\
    Forall (fun p => is_uri_part p = false) parts.
Proof.
  split; [reflexivity|].
  exact (BuildUserMessage_parts_are_inline Sample.FromBase64String Sample.FormatF1
           "hi" (Some [Sample.png]) eq_refl).
Defined.

(** ** The service and the endpoint on sample runs *)

Lemma disposed_service_refuses_witness :
  CallCreateConversation (Some "hi") <> CallDispose /\
  let d :=
    snd (perform Sample.FromBase64String Sample.FormatF1 Sample.steady
           Sample.ToString Sample.properties CallDispose
           {| host_world := Sample.loaded; _cachedMetadata := None |}) in
  _disposed (service (host_world d)) = true /\
  perform Sample.FromBase64String Sample.FormatF1 Sample.steady
    Sample.ToString Sample.properties CallDispose d = (Returned tt, d) /\
  perform Sample.FromBase64String Sample.FormatF1 Sample.steady
    Sample.ToString Sample.properties (CallCreateConversation (Some "hi")) d
  = (Threw ObjectDisposedException, d) /\
  (forall conversationId message imageDataUris,
     StreamMessageAsync Sample.FromBase64String Sample.FormatF1 Sample.steady
       conversationId message imageDataUris (host_world d)
     = ([], Threw ObjectDisposedException, host_world d)).
Proof.
  assert (Hop : CallCreateConversation (Some "hi") <> CallDispose) by discriminate.
  split; [exact Hop|].
  exact (disposed_service_refuses Sample.FromBase64String Sample.FormatF1 Sample.steady
           Sample.ToString Sample.properties
           {| host_world := Sample.loaded; _cachedMetadata := None |}
           (CallCreateConversation (Some "hi")) Hop).
Defined.

Lemma loaded_agent_is_never_reloaded_witness :
  let ops := [CallGetAgentInfo; CallStreamMessage "conv_1" "hi" None;
              CallGetAgentMetadata; CallCreateConversation None] in
  let h := {| host_world := Sample.loaded; _cachedMetadata := None |} in
  _latestAgentVersion (service (host_world h)) = Some Sample.agent /\
  _latestAgentVersion
    (service (host_world (perform_all Sample.FromBase64String Sample.FormatF1
                            Sample.flaky Sample.ToString Sample.properties ops h)))
  = Some Sample.agent /\
  count_GetAgent
    (calls (host_world (perform_all Sample.FromBase64String Sample.FormatF1
                          Sample.flaky Sample.ToString Sample.properties ops h)))
  = count_GetAgent (calls (host_world h)).
Proof.
  intros ops h. split; [reflexivity|].
  exact (loaded_agent_is_never_reloaded Sample.FromBase64String Sample.FormatF1
           Sample.flaky Sample.ToString Sample.properties ops h Sample.agent eq_refl).
Defined.

Lemma operations_return_the_permit_witness :
  let ops := [CallGetAgentInfo; CallStreamMessage "conv_fail" "hi" None] in
  let h := {| host_world := Sample.fresh; _cachedMetadata := None |} in
  _agentLock (service (host_world h)) = 1%nat /\
  _agentLock
    (service (host_world (perform_all Sample.FromBase64String Sample.FormatF1
                            Sample.flaky Sample.ToString Sample.properties ops h)))
  = 1%nat /\
  forall op,
    fst (perform Sample.FromBase64String Sample.FormatF1 Sample.flaky
           Sample.ToString Sample.properties op
           (perform_all Sample.FromBase64String Sample.FormatF1 Sample.flaky
              Sample.ToString Sample.properties ops h))
    <> Pending.
Proof.
  intros ops h. split; [reflexivity|].
  exact (operations_return_the_permit Sample.FromBase64String Sample.FormatF1
           Sample.flaky Sample.ToString Sample.properties ops h eq_refl).
Defined.

Lemma StreamChatMessage_creates_conversation_first_witness :
  let request :=
    {| Message := "hi"; ConversationId := None; ImageDataUris := Some [Sample.png] |} in
  ConversationId request = None /\
  _disposed (service Sample.fresh) = false /\
  let '(_, _, w') :=
    StreamChatMessage Sample.FromBase64String Sample.FormatF1 Sample.steady
      Sample.Serialize_chunk request Sample.fresh in
  exists rest,
    calls w'
    = (calls Sample.fresh
       ++ CreateProjectConversationAsync (conversation_options (Some (Message request)))
       :: rest)%list /\
    count_creates rest = 0%nat.
Proof.
  intros request. split; [reflexivity|]. split; [reflexivity|].
  exact (StreamChatMessage_creates_conversation_first Sample.FromBase64String
           Sample.FormatF1 Sample.steady Sample.Serialize_chunk request Sample.fresh
           eq_refl eq_refl).
Defined.

Lemma StreamChatMessage_supplied_conversation_witness :
  let request :=
    {| Message := "hi"; ConversationId := Some "conv_7"; ImageDataUris := None |} in
  ConversationId request = Some "conv_7" /\
  let '(frames, _, w') :=
    StreamChatMessage Sample.FromBase64String Sample.FormatF1 Sample.steady
      Sample.Serialize_chunk request Sample.fresh in
  (exists more,
     frames
     = ("data: {" ++ Str.quote ++ "type" ++ Str.quote ++ ":"
        ++ Str.quote ++ "conversationId" ++ Str.quote ++ ","
        ++ Str.quote ++ "conversationId" ++ Str.quote ++ ":"
        ++ Str.quote ++ "conv_7" ++ Str.quote ++ "}" ++ Str.LF ++ Str.LF)
       :: more) /\
  count_creates (calls w') = count_creates (calls Sample.fresh).
Proof.
  intros request. split; [reflexivity|].
  exact (StreamChatMessage_supplied_conversation Sample.FromBase64String
           Sample.FormatF1 Sample.steady Sample.Serialize_chunk request Sample.fresh
           "conv_7" eq_refl).
Defined.

Lemma GetAgentAsync_mutual_exclusion_witness :
  _agentLock (service Sample.fresh) = 1%nat /\
  let p := run Sample.flaky [0; 1; 2; 0; 1; 0; 2]%nat (arrivals Sample.fresh 3) in
  (forall i j ci cj,
     callers p !! i = Some ci -> callers p !! j = Some cj ->
     holds_permit ci = true -> holds_permit cj = true -> i = j) /\
  _agentLock (service (world p)) = (if existsb holds_permit (callers p) then 0 else 1)%nat.
Proof.
  split; [reflexivity|].
  exact (GetAgentAsync_mutual_exclusion Sample.flaky Sample.fresh 3
           [0; 1; 2; 0; 1; 0; 2]%nat eq_refl).
Defined.

Lemma GetAgentAsync_callers_all_finish_witness :
  _agentLock (service Sample.fresh) = 1%nat /\
  let p := run Sample.flaky [0; 1; 2; 0; 1; 0; 2]%nat (arrivals Sample.fresh 3) in
  (count_GetAgent (calls (world p)) <= count_GetAgent (calls Sample.fresh) + 3)%nat /\
  exists more,
    (List.length more <= 7 * 3)%nat /\
    all_finished (run Sample.flaky ([0; 1; 2; 0; 1; 0; 2]%nat ++ more)
                    (arrivals Sample.fresh 3)) = true.
Proof.
  split; [reflexivity|].
  exact (GetAgentAsync_callers_all_finish Sample.flaky Sample.fresh 3
           [0; 1; 2; 0; 1; 0; 2]%nat eq_refl).
Defined.

Lemma loaded_callers_never_wait_witness :
  _disposed (service Sample.loaded) = false /\
  _latestAgentVersion (service Sample.loaded) = Some Sample.agent /\
  let p := run Sample.flaky [1; 0; 1]%nat (arrivals Sample.loaded 2) in
  world p = Sample.loaded /\
  (forall i c, callers p !! i = Some c ->
               c = AtEntry \/ c = AtFastCheck \/ c = Finished (inr Sample.agent)) /\
  exists more,
    all_finished (run Sample.flaky ([1; 0; 1]%nat ++ more) (arrivals Sample.loaded 2))
    = true.
Proof.
  split; [reflexivity|]. split; [reflexivity|].
  exact (loaded_callers_never_wait Sample.flaky Sample.loaded Sample.agent 2
           [1; 0; 1]%nat eq_refl eq_refl).
Defined.

Lemma failed_load_is_retried_by_every_caller_witness :
  (forall log agentId, exists e, answer_GetAgent Sample.broken log agentId = inl e) /\
  _disposed (service Sample.fresh) = false /\
  _latestAgentVersion (service Sample.fresh) = None /\
  let p := run Sample.broken [0; 0; 1; 1; 0]%nat (arrivals Sample.fresh 2) in
  _latestAgentVersion (service (world p)) = None /\
  (forall i result, callers p !! i = Some (Finished result) -> failed result = true) /\
  (all_finished p = true ->
   count_GetAgent (calls (world p)) = (count_GetAgent (calls Sample.fresh) + 2)%nat).
Proof.
  assert (Hfail : forall log agentId,
             exists e, answer_GetAgent Sample.broken log agentId = inl e)
    by (intros log agentId; eexists; reflexivity).
  split; [exact Hfail|]. split; [reflexivity|]. split; [reflexivity|].
  exact (failed_load_is_retried_by_every_caller Sample.broken Sample.fresh 2
           [0; 0; 1; 1; 0]%nat Hfail eq_refl eq_refl).
Defined.

Lemma attachment_passes_whatever_the_encoding_says_witness :
  let imageBytes := [Byte.x89; Byte.x50; Byte.x4e; Byte.x47;
                     Byte.x0d; Byte.x0a; Byte.x1a; Byte.x0a] in
  Contains allowedMimeTypes (Str.ToLowerInvariant "Image/PNG") = true /\
  EnvFile.has_char "," "utf8" = false /\
  Sample.FromBase64String "iVBORw0KGgo=" = Some imageBytes /\
  Z.of_nat (List.length imageBytes) <= 5 * 1024 * 1024 /\
  validate_entry Sample.FromBase64String 1
    ("data:" ++ "Image/PNG" ++ ";" ++ "utf8" ++ "," ++ "iVBORw0KGgo=") = [].
Proof.
  intros imageBytes.
  assert (Hsize : Z.of_nat (List.length imageBytes) <= 5 * 1024 * 1024)
    by (vm_compute; discriminate).
  split; [reflexivity|]. split; [reflexivity|]. split; [reflexivity|].
  split; [exact Hsize|].
  exact (attachment_passes_whatever_the_encoding_says Sample.FromBase64String 1
           "Image/PNG" "utf8" "iVBORw0KGgo=" imageBytes eq_refl eq_refl eq_refl Hsize).
Defined.

(** ** The .env file *)

Module EnvFileFacts.
Import EnvFile.

Lemma Split2_without c s : has_char c s = false -> Split2 c s = [s].
Proof.
  induction s as [|a s IH]; [reflexivity|]. cbn.
  destruct (Ascii.eqb a c); [discriminate|]. cbn. intros H. now rewrite (IH H).
Qed.

Lemma Split2_at_first c k v :
  has_char c k = false -> Split2 c (k ++ String c v) = [k; v].
Proof.
  induction k as [|a k IH].
  - intros _. change (EmptyString ++ String c v) with (String c v).
    cbn [Split2]. now rewrite Ascii.eqb_refl.
  - cbn [has_char]. destruct (Ascii.eqb a c) eqn:E; [discriminate|]. cbn [orb].
    intros H. change (String a k ++ String c v) with (String a (k ++ String c v)).
    cbn [Split2]. now rewrite E, (IH H).
Qed.

Lemma Split2_shape c s :
  Split2 c s = [s] \/
  exists k v, Split2 c s = [k; v] /\ has_char c k = false /\ s = k ++ String c v.
Proof.
  induction s as [|a s IH]; [now left|]. cbn [Split2].
  destruct (Ascii.eqb_spec a c) as [->|Hne].
  - right. exists EmptyString, s. auto.
  - destruct IH as [->|(k & v & -> & Hk & ->)]; [now left|].
    right. exists (String a k), v. repeat split. cbn.
    destruct (Ascii.eqb_spec a c); [contradiction|assumption].
Qed.

Lemma TrimStart_first s a :
  first_char (TrimStart s) = Some a -> Str.IsWhiteSpace a = false.
Proof.
  induction s as [|b s IH]; [discriminate|]. cbn.
  destruct (Str.IsWhiteSpace b) eqn:E; [assumption|]. cbn. now intros [= <-].
Qed.

Lemma TrimEnd_last s a :
  last_char (TrimEnd s) = Some a -> Str.IsWhiteSpace a = false.
Proof.
  induction s as [|b s IH]; [discriminate|]. cbn [TrimEnd].
  destruct (TrimEnd s) as [|c r] eqn:E.
  - destruct (Str.IsWhiteSpace b) eqn:Eb; [discriminate|]. cbn. now intros [= <-].
  - exact IH.
Qed.

Lemma TrimEnd_first s a :
  first_char (TrimEnd s) = Some a -> first_char s = Some a.
Proof.
  destruct s as [|b s]; [discriminate|]. cbn [TrimEnd].
  destruct (TrimEnd s); [destruct (Str.IsWhiteSpace b); [discriminate|]|]; exact id.
Qed.

Lemma Trim_trimmed s : trimmed (Trim s).
Proof.
  split; intros a H.
  - apply TrimEnd_first in H. eapply TrimStart_first; eassumption.
  - eapply TrimEnd_last; eassumption.
Qed.

Lemma TrimStart_without c s : has_char c s = false -> has_char c (TrimStart s) = false.
Proof.
  induction s as [|b s IH]; [reflexivity|]. cbn.
  destruct (Ascii.eqb b c) eqn:E; [discriminate|]. cbn. intros H.
  destruct (Str.IsWhiteSpace b); [auto|]. cbn. now rewrite E.
Qed.

Lemma TrimEnd_without c s : has_char c s = false -> has_char c (TrimEnd s) = false.
Proof.
  induction s as [|b s IH]; [reflexivity|]. cbn [has_char TrimEnd].
  destruct (Ascii.eqb b c) eqn:E; [discriminate|]. cbn [orb]. intros H.
  specialize (IH H). destruct (TrimEnd s) as [|d r].
  - destruct (Str.IsWhiteSpace b); [reflexivity|]. cbn. now rewrite E.
  - cbn [has_char] in *. now rewrite E.
Qed.

(** X15. In every call of [SetEnvironmentVariable] the loader makes, the
    name has no [=] and does not begin or end with white space: in the calls
    that return, where the value does not begin or end with white space
    either, and in the call that throws, if there is one. So no name is ever
    refused for an equals sign in it. *)
Theorem load_sets_trimmed_pairs (accepts : string -> bool) (lines : list string) :
  Forall (fun kv => has_char "=" (fst kv) = false /\
                    trimmed (fst kv) /\ trimmed (snd kv))
         (fst (load accepts lines)) /\
  (forall name, snd (load accepts lines) = Some name ->
                has_char "=" name = false /\ trimmed name).
Proof.
  induction lines as [|line rest [IH1 IH2]]; [split; [constructor|discriminate]|].
  cbn [load].
  destruct (kept line); [|split; assumption].
  destruct (Split2_shape "=" line) as [->|(k & v & -> & Hk & _)]; [split; assumption|].
  assert (Hname : has_char "=" (Trim k) = false)
    by (unfold Trim; now apply TrimEnd_without, TrimStart_without).
  destruct (accepts (Trim k)) eqn:Ea.
  - destruct (load accepts rest) as [sets refused]. cbn [fst snd] in *.
    split; [|assumption]. constructor; [|assumption]. cbn [fst snd].
    repeat split; try apply Trim_trimmed; assumption.
  - cbn [fst snd]. split; [constructor|]. intros name [= <-].
    split; [assumption|apply Trim_trimmed].
Qed.

(** X16. A line that is empty or all white space, that begins with [#], or
    that has no [=] changes nothing: the loader does with the file what it
    does with the file without that line. A [#] after leading white space
    does not make a line a comment. *)
Theorem load_skips_line (accepts : string -> bool) (before after : list string)
    (line : string) :
  Str.all_white line = true \/ first_char line = Some "#"%char \/
  has_char "=" line = false ->
  load accepts (before ++ line :: after) = load accepts (before ++ after).
Proof.
  intros H.
  assert (Hone : load accepts (line :: after) = load accepts after).
  { cbn [load]. unfold kept. cbn [Str.IsNullOrWhiteSpace].
    destruct H as [->|[H|H]]; [reflexivity| |].
    - destruct line as [|a l]; [reflexivity|]. injection H as ->.
      cbn. now rewrite andb_false_r.
    - rewrite (Split2_without _ _ H). now destruct (_ && _). }
  induction before as [|l before IH]; [exact Hone|].
  cbn [List.app load]. rewrite IH. reflexivity.
Qed.

(** X17. A line is split at its first [=]: for a line [k=v] that is let
    through, with no [=] in [k], the loader sets the variable [Trim k] to
    [Trim v], further [=] signs staying in the value, and goes on with the
    next line; when the runtime refuses the name, nothing of the rest of
    the file is set. *)
Theorem load_line_at_first_equals (accepts : string -> bool) (k v : string)
    (rest : list string) :
  has_char "=" k = false ->
  kept (k ++ String "=" v) = true ->
  load accepts ((k ++ String "=" v) :: rest)
  = if accepts (Trim k)
    then ((Trim k, Trim v) :: fst (load accepts rest), snd (load accepts rest))
    else ([], Some (Trim k)).
Proof.
  intros Hk Hkept. cbn [load]. rewrite Hkept, (Split2_at_first _ _ _ Hk).
  destruct (accepts (Trim k)); [|reflexivity].
  now destruct (load accepts rest).
Qed.

Lemma load_skips_line_witness :
  (Str.all_white "# local settings" = true \/
   first_char "# local settings" = Some "#"%char \/
   has_char "=" "# local settings" = false) /\
  load (fun _ => true) (["A=1"] ++ "# local settings" :: ["B=2"])
  = load (fun _ => true) (["A=1"] ++ ["B=2"]).
Proof.
  assert (H : Str.all_white "# local settings" = true \/
              first_char "# local settings" = Some "#"%char \/
              has_char "=" "# local settings" = false)
    by (right; left; reflexivity).
  split; [exact H|].
  exact (load_skips_line (fun _ => true) ["A=1"] ["B=2"] "# local settings" H).
Defined.

Lemma load_line_at_first_equals_witness :
  has_char "=" " KEY " = false /\
  kept (" KEY " ++ String "=" " a=b ") = true /\
  load (fun _ => true) ((" KEY " ++ String "=" " a=b ") :: ["B=2"])
  = if (fun _ : string => true) (Trim " KEY ")
    then ((Trim " KEY ", Trim " a=b ") :: fst (load (fun _ => true) ["B=2"]),
          snd (load (fun _ => true) ["B=2"]))
    else ([], Some (Trim " KEY ")).
Proof.
  split; [reflexivity|]. split; [reflexivity|].
  exact (load_line_at_first_equals (fun _ => true) " KEY " " a=b " ["B=2"]
           eq_refl eq_refl).
Defined.

End EnvFileFacts.

(** ** The authentication hook *)

Module AuthFacts.
Import Auth.

Lemma digits_of_uint u : digits (NilEmpty.string_of_uint u) = NilEmpty.string_of_uint u.
Proof. induction u; cbn; now rewrite ?IHu. Qed.

Lemma uint_starts_with_digit u a r :
  NilEmpty.string_of_uint u = String a r -> is_digit a = true.
Proof. destruct u; cbn; try discriminate; now intros [= <- _]. Qed.

Lemma N_to_uint_nonempty n : NilEmpty.string_of_uint (N.to_uint n) <> EmptyString.
Proof.
  destruct n as [|p]; [discriminate|]. cbn [N.to_uint].
  pose proof (DecimalPos.Unsigned.to_uint_nonnil p) as H.
  destruct (Pos.to_uint p); cbn; congruence.
Qed.

Lemma parse_unsigned n :
  let s := NilEmpty.string_of_uint (N.to_uint n) in
  skip_space s = s /\
  (forall a r, s = String a r -> Ascii.eqb a "-" = false /\ Ascii.eqb a "+" = false) /\
  digits s = s /\ s <> EmptyString /\ digits_value s = n.
Proof.
  intros s. subst s.
  assert (Hd : forall a r, NilEmpty.string_of_uint (N.to_uint n) = String a r ->
             is_digit a = true) by (intros; eapply uint_starts_with_digit; eassumption).
  repeat split.
  - destruct (NilEmpty.string_of_uint (N.to_uint n)) as [|a r] eqn:E; [reflexivity|].
    specialize (Hd _ _ eq_refl). cbn.
    destruct a as [[] [] [] [] [] [] [] []]; try discriminate; reflexivity.
  - specialize (Hd _ _ H).
    destruct a as [[] [] [] [] [] [] [] []]; try discriminate; reflexivity.
  - specialize (Hd _ _ H).
    destruct a as [[] [] [] [] [] [] [] []]; try discriminate; reflexivity.
  - apply digits_of_uint.
  - apply N_to_uint_nonempty.
  - unfold digits_value. rewrite NilEmpty.usu. apply DecimalN.Unsigned.of_to.
Qed.

(** What [toString] writes, [parseInt] reads back. *)
Lemma parseInt_toString n : parseInt (toString n) = Some n.
Proof.
  unfold toString. destruct (Z.ltb_spec n 0) as [Hn|Hn].
  - destruct (parse_unsigned (Z.to_N (- n))) as (_ & _ & Hd & Hne & Hv).
    set (u := NilEmpty.string_of_uint (N.to_uint (Z.to_N (- n)))) in *.
    change ("-" ++ u) with (String "-" u).
    unfold parseInt. cbn [skip_space]. change (js_space "-") with false. cbv iota.
    change (Ascii.eqb "-" "-") with true. cbv iota. rewrite Hd.
    destruct u eqn:E; [congruence|]. rewrite Hv. f_equal. lia.
  - destruct (parse_unsigned (Z.to_N n)) as (Hs & Hsign & Hd & Hne & Hv).
    unfold parseInt. rewrite Hs.
    destruct (NilEmpty.string_of_uint (N.to_uint (Z.to_N n))) as [|a r] eqn:E;
      [congruence|].
    destruct (Hsign a r eq_refl) as [-> ->]. rewrite Hd, Hv. f_equal. lia.
Qed.

Section Hook.

Variable J : Json.

Lemma keys_distinct :
  tokenKey <> tokenExpiryKey /\ tokenKey <> userKey /\ tokenExpiryKey <> userKey.
Proof. repeat split; discriminate. Qed.

Lemma clear_lookup (storage : gmap string string) k :
  clear storage !! k
  = if decide (k = tokenKey \/ k = tokenExpiryKey \/ k = userKey) then None
    else storage !! k.
Proof.
  unfold clear. rewrite !lookup_delete. repeat case_decide; try reflexivity;
    exfalso; intuition congruence.
Qed.

(** X18. [logout] removes the token, its expiry and the user from the
    storage and nothing else, and leaves the hook signed out; doing it again
    changes nothing. *)
Theorem logout_clears_credentials (st : State J) :
  let st' := logout st in
  localStorage st' !! tokenKey = None /\
  localStorage st' !! tokenExpiryKey = None /\
  localStorage st' !! userKey = None /\
  (forall k, k <> tokenKey -> k <> tokenExpiryKey -> k <> userKey ->
             localStorage st' !! k = localStorage st !! k) /\
  isAuthenticated st' = false /\ user st' = None /\
  logout st' = st'.
Proof.
  cbv zeta. unfold logout. cbn [localStorage isAuthenticated user isLoading].
  rewrite !clear_lookup. repeat split.
  - intros k H1 H2 H3. rewrite clear_lookup. case_decide; [intuition|reflexivity].
  - f_equal. apply map_eq. intros k. rewrite !clear_lookup. now case_decide.
Qed.

Lemma truthy_Some v : truthy v = true <-> exists s, v = Some s /\ s <> EmptyString.
Proof.
  destruct v as [[|a s]|]; cbn; split; try discriminate.
  - intros (s & [= <-] & H). congruence.
  - intros _. eexists. split; [reflexivity|discriminate].
  - intros (s' & [= <-] & H). reflexivity.
  - intros (s & [=] & _).
Qed.

(** X19. With the clock and the stored expiry in the range of the safe
    integers, [getAccessToken] hands out a token only when the storage holds
    a non-empty token and a non-empty expiry that does not read as a time at
    or before now; it then changes nothing. It returns null either with
    nothing changed, when token or expiry is missing or empty, or after
    signing out, when the expiry reads as a time that has come. *)
Theorem getAccessToken_only_unexpired (now : Z) (st : State J) :
  safe_integer now -> safe_expiry st ->
  match getAccessToken now st with
  | (Some token, st') =>
      st' = st /\
      localStorage st !! tokenKey = Some token /\ token <> EmptyString /\
      exists expiry,
        localStorage st !! tokenExpiryKey = Some expiry /\ expiry <> EmptyString /\
        forall t, parseInt expiry = Some t -> (now < t)%Z
  | (None, st') =>
      (st' = st /\
       (truthy (localStorage st !! tokenKey) = false \/
        truthy (localStorage st !! tokenExpiryKey) = false)) \/
      (st' = logout st /\
       exists expiry t,
         localStorage st !! tokenExpiryKey = Some expiry /\
         parseInt expiry = Some t /\ (t <= now)%Z)
  end.
Proof.
  intros _ _. unfold getAccessToken.
  destruct (truthy (localStorage st !! tokenKey)) eqn:Ht; [|left; auto].
  destruct (truthy (localStorage st !! tokenExpiryKey)) eqn:He; [|left; auto].
  apply truthy_Some in Ht as (token & Ht & Hne).
  apply truthy_Some in He as (expiry & He & Hne').
  rewrite Ht, He. cbn [negb orb default from_option id].
  destruct (parseInt expiry) as [t|] eqn:Hp; cbn [at_least].
  - destruct (Z.leb_spec t now); cbv iota.
    + right. split; [reflexivity|]. eauto.
    + split; [reflexivity|]. split; [reflexivity|]. split; [assumption|].
      exists expiry. split; [reflexivity|]. split; [assumption|].
      intros t' E. replace t' with t by congruence. assumption.
  - cbv iota. split; [reflexivity|]. split; [reflexivity|]. split; [assumption|].
    exists expiry. split; [reflexivity|]. split; [assumption|]. intros t' E.
    congruence.
Qed.

(** X20. After a successful [login] at time [now], [getAccessToken] at a
    later time returns the token of the response as long as that time is
    before [now + expires_in * 1000], and from then on returns null and
    signs out; the expiry survives being written to the storage as text and
    read back. A response with an empty token leaves the hook signed in with
    no token to hand out. *)
Theorem login_then_getAccessToken (now later : Z) (username : string)
    (data : LoginResponse) (st st1 : State J) :
  safe_integer now -> safe_integer (expires_in data) ->
  safe_integer (now + expires_in data * 1000) ->
  login now username (Ok data) st = inr st1 ->
  isAuthenticated st1 = true /\
  getAccessToken later st1
  = match access_token data with
    | EmptyString => (None, st1)
    | _ => if (later <? now + expires_in data * 1000)%Z
           then (Some (access_token data), st1)
           else (None, logout st1)
    end.
Proof.
  intros _ _ _ [= <-]. split; [reflexivity|].
  destruct keys_distinct as (H1 & H2 & H3).
  unfold getAccessToken. cbn [localStorage].
  rewrite (lookup_insert_ne _ userKey tokenKey) by congruence.
  rewrite (lookup_insert_ne _ tokenExpiryKey tokenKey) by congruence.
  rewrite lookup_insert_eq.
  rewrite (lookup_insert_ne _ userKey tokenExpiryKey) by congruence.
  rewrite lookup_insert_eq.
  assert (Hex : truthy (Some (toString (now + expires_in data * 1000))) = true).
  { apply truthy_Some. eexists. split; [reflexivity|].
    intros E. pose proof (parseInt_toString (now + expires_in data * 1000)) as P.
    rewrite E in P. discriminate. }
  rewrite Hex. cbn [negb orb default from_option id].
  destruct (access_token data) as [|a r] eqn:Et; [reflexivity|].
  change (truthy (Some (String a r))) with true. cbn [negb orb].
  rewrite parseInt_toString. cbn [at_least].
  rewrite Z.leb_antisym. now destruct (later <? now + expires_in data * 1000)%Z.
Qed.

(** X21. An expiry in the storage that does not read as a number (it has no
    digit where [parseInt] looks for one) is taken both ways: on mount it
    counts as expired, the stored credentials are removed and the hook is
    not signed in; [getAccessToken], asked on the same storage, hands the
    token out, at whatever time, and removes nothing. *)
Theorem unreadable_expiry_is_taken_both_ways (now : Z) (st : State J)
    (token expiry : string) :
  localStorage st !! tokenKey = Some token -> token <> EmptyString ->
  localStorage st !! tokenExpiryKey = Some expiry -> expiry <> EmptyString ->
  parseInt expiry = None ->
  getAccessToken now st = (Some token, st) /\
  localStorage (mount now st) !! tokenKey = None /\
  isAuthenticated (mount now st) = isAuthenticated st.
Proof.
  intros Ht Hne He Hne' Hp.
  assert (T1 : truthy (Some token) = true) by (apply truthy_Some; eauto).
  assert (T2 : truthy (Some expiry) = true) by (apply truthy_Some; eauto).
  unfold getAccessToken, mount. rewrite Ht, He, T1, T2. cbn [default from_option id negb orb andb].
  rewrite Hp. cbn [at_least less localStorage isAuthenticated].
  repeat split. rewrite clear_lookup. case_decide; [reflexivity|]. intuition.
Qed.

(** X22. A session outlives a reload of the page: the storage a successful
    [login] leaves, handed to a freshly mounted hook before the expiry,
    signs it in with the same user, provided the user object survives
    [JSON.stringify] and [JSON.parse]; mounted at or after the expiry, the
    hook stays signed out and the stored credentials are removed. *)
Theorem session_survives_reload (now later : Z) (username : string)
    (data : LoginResponse) (st st1 : State J) :
  safe_integer now -> safe_integer (expires_in data) ->
  safe_integer (now + expires_in data * 1000) ->
  access_token data <> EmptyString ->
  stringify J (user_named J username) <> EmptyString ->
  parse J (stringify J (user_named J username)) = Some (user_named J username) ->
  login now username (Ok data) st = inr st1 ->
  let reloaded := mount later (initial (localStorage st1)) in
  isLoading reloaded = false /\
  if (later <? now + expires_in data * 1000)%Z
  then isAuthenticated reloaded = true /\
       user reloaded = Some (user_named J username) /\
       localStorage reloaded = localStorage st1
  else isAuthenticated reloaded = false /\
       user reloaded = None /\
       localStorage reloaded !! tokenKey = None.
Proof.
  intros _ _ _ Htok Hstr Hparse [= <-]. cbv zeta.
  destruct keys_distinct as (H1 & H2 & H3).
  unfold mount, initial. cbn [localStorage isAuthenticated user isLoading].
  rewrite (lookup_insert_ne _ userKey tokenKey) by congruence.
  rewrite (lookup_insert_ne _ tokenExpiryKey tokenKey) by congruence.
  rewrite lookup_insert_eq.
  rewrite (lookup_insert_ne _ userKey tokenExpiryKey) by congruence.
  rewrite !lookup_insert_eq.
  assert (T1 : truthy (Some (access_token data)) = true) by (apply truthy_Some; eauto).
  assert (T2 : truthy (Some (toString (now + expires_in data * 1000))) = true).
  { apply truthy_Some. eexists. split; [reflexivity|].
    intros E. pose proof (parseInt_toString (now + expires_in data * 1000)) as P.
    rewrite E in P. discriminate. }
  assert (T3 : truthy (Some (stringify J (user_named J username))) = true)
    by (apply truthy_Some; eauto).
  rewrite T1, T2. cbn [default from_option id andb]. rewrite parseInt_toString. cbn [less].
  destruct (later <? now + expires_in data * 1000)%Z;
    cbn [localStorage isAuthenticated user isLoading].
  - rewrite T3, Hparse. cbn. auto.
  - repeat split. rewrite clear_lookup. case_decide; [reflexivity|]. intuition.
Qed.

End Hook.

(** *** The hook on a sample session *)

Lemma getAccessToken_only_unexpired_witness :
  let st : State names :=
    initial (<[tokenExpiryKey := "5000"]> (<[tokenKey := "tok"]> ∅)) in
  safe_integer 1000 /\ safe_expiry st /\
  match getAccessToken 1000 st with
  | (Some token, st') =>
      st' = st /\
      localStorage st !! tokenKey = Some token /\ token <> EmptyString /\
      exists expiry,
        localStorage st !! tokenExpiryKey = Some expiry /\ expiry <> EmptyString /\
        forall t, parseInt expiry = Some t -> (1000 < t)%Z
  | (None, st') =>
      (st' = st /\
       (truthy (localStorage st !! tokenKey) = false \/
        truthy (localStorage st !! tokenExpiryKey) = false)) \/
      (st' = logout st /\
       exists expiry t,
         localStorage st !! tokenExpiryKey = Some expiry /\
         parseInt expiry = Some t /\ (t <= 1000)%Z)
  end.
Proof.
  intros st.
  assert (H1 : safe_integer 1000) by (split; reflexivity).
  assert (H2 : safe_expiry st).
  { intros expiry t He Ht. vm_compute in He. injection He as <-.
    vm_compute in Ht. injection Ht as <-. split; reflexivity. }
  split; [exact H1|]. split; [exact H2|].
  exact (getAccessToken_only_unexpired names 1000 st H1 H2).
Defined.

Lemma login_then_getAccessToken_witness :
  let data := {| access_token := "tok"; token_type := "bearer"; expires_in := 3600 |} in
  let st : State names := initial ∅ in
  let st1 : State names :=
    match login 1000 "ann" (Ok data) st with inr s => s | inl _ => st end in
  safe_integer 1000 /\ safe_integer (expires_in data) /\
  safe_integer (1000 + expires_in data * 1000) /\
  login 1000 "ann" (Ok data) st = inr st1 /\
  isAuthenticated st1 = true /\
  getAccessToken 2000 st1
  = match access_token data with
    | EmptyString => (None, st1)
    | _ => if (2000 <? 1000 + expires_in data * 1000)%Z
           then (Some (access_token data), st1)
           else (None, logout st1)
    end.
Proof.
  intros data st st1.
  assert (H1 : safe_integer 1000) by (split; reflexivity).
  assert (H2 : safe_integer (expires_in data)) by (split; reflexivity).
  assert (H3 : safe_integer (1000 + expires_in data * 1000)) by (split; reflexivity).
  split; [exact H1|]. split; [exact H2|]. split; [exact H3|]. split; [reflexivity|].
  exact (login_then_getAccessToken names 1000 2000 "ann" data st st1 H1 H2 H3 eq_refl).
Defined.

Lemma unreadable_expiry_is_taken_both_ways_witness :
  let st : State names :=
    initial (<[tokenExpiryKey := "soon"]> (<[tokenKey := "tok"]> ∅)) in
  localStorage st !! tokenKey = Some "tok" /\ "tok" <> EmptyString /\
  localStorage st !! tokenExpiryKey = Some "soon" /\ "soon" <> EmptyString /\
  parseInt "soon" = None /\
  getAccessToken 1000 st = (Some "tok", st) /\
  localStorage (mount 1000 st) !! tokenKey = None /\
  isAuthenticated (mount 1000 st) = isAuthenticated st.
Proof.
  intros st.
  assert (Ht : "tok" <> EmptyString) by discriminate.
  assert (He : "soon" <> EmptyString) by discriminate.
  assert (H1 : localStorage st !! tokenKey = Some "tok") by (vm_compute; reflexivity).
  assert (H2 : localStorage st !! tokenExpiryKey = Some "soon") by (vm_compute; reflexivity).
  split; [exact H1|]. split; [exact Ht|]. split; [exact H2|]. split; [exact He|].
  split; [reflexivity|].
  exact (unreadable_expiry_is_taken_both_ways names 1000 st "tok" "soon"
           H1 Ht H2 He eq_refl).
Defined.

Lemma session_survives_reload_witness :
  let data := {| access_token := "tok"; token_type := "bearer"; expires_in := 3600 |} in
  let st : State names := initial ∅ in
  let st1 : State names :=
    match login 1000 "ann" (Ok data) st with inr s => s | inl _ => st end in
  safe_integer 1000 /\ safe_integer (expires_in data) /\
  safe_integer (1000 + expires_in data * 1000) /\
  access_token data <> EmptyString /\
  stringify names (user_named names "ann") <> EmptyString /\
  parse names (stringify names (user_named names "ann")) = Some (user_named names "ann") /\
  login 1000 "ann" (Ok data) st = inr st1 /\
  let reloaded := mount 2000 (initial (localStorage st1)) in
  isLoading reloaded = false /\
  if (2000 <? 1000 + expires_in data * 1000)%Z
  then isAuthenticated reloaded = true /\
       user reloaded = Some (user_named names "ann") /\
       localStorage reloaded = localStorage st1
  else isAuthenticated reloaded = false /\
       user reloaded = None /\
       localStorage reloaded !! tokenKey = None.
Proof.
  intros data st st1.
  assert (H1 : safe_integer 1000) by (split; reflexivity).
  assert (H2 : safe_integer (expires_in data)) by (split; reflexivity).
  assert (H3 : safe_integer (1000 + expires_in data * 1000)) by (split; reflexivity).
  assert (H4 : access_token data <> EmptyString) by discriminate.
  assert (H5 : stringify names (user_named names "ann") <> EmptyString) by discriminate.
  split; [exact H1|]. split; [exact H2|]. split; [exact H3|]. split; [exact H4|].
  split; [exact H5|]. split; [reflexivity|]. split; [reflexivity|].
  exact (session_survives_reload names 1000 2000 "ann" data st st1
           H1 H2 H3 H4 H5 eq_refl eq_refl).
Defined.

End AuthFacts.
